(** * go-merkletree: a shallow embedding of the tree builder, the tree
      facade, proof extraction and proof verification.

    The Go code builds a graph of [Node] values that point at each other
    ([left], [right], [parent]) and patches the [parent] field of a node
    after the node has been created.  The embedding keeps that: nodes live
    in a store addressed by natural numbers, a Go pointer is an optional
    address ([None] is [nil]), and [buildMerkleTree] threads the store. *)

From Stdlib Require Import ZArith Lia.
From Stdlib Require Import Strings.Ascii Strings.Byte Strings.String.
From stdpp Require Import base list sets.

Local Open Scope Z_scope.

(** [[]byte]: a nil slice and an empty slice are both the empty list
    ([bytes.Equal] does not tell them apart either). *)
Abbreviation bytes := (list byte).

#[global] Instance byte_eq_decision : EqDecision byte := byte_eq_dec.

(** ** The digest behind [hashing.HashSHA256] *)

Module SHA256.

Definition w32 (x : Z) : Z := x mod 2 ^ 32.

Definition rotr (k x : Z) : Z :=
  Z.lor (Z.shiftr x k) (w32 (Z.shiftl x (32 - k))).

Definition Ch (x y z : Z) : Z :=
  Z.lxor (Z.land x y) (Z.land (Z.lxor x 0xffffffff) z).

Definition Maj (x y z : Z) : Z :=
  Z.lxor (Z.lxor (Z.land x y) (Z.land x z)) (Z.land y z).

Definition Sigma0 (x : Z) : Z :=
  Z.lxor (Z.lxor (rotr 2 x) (rotr 13 x)) (rotr 22 x).
Definition Sigma1 (x : Z) : Z :=
  Z.lxor (Z.lxor (rotr 6 x) (rotr 11 x)) (rotr 25 x).
Definition sigma0 (x : Z) : Z :=
  Z.lxor (Z.lxor (rotr 7 x) (rotr 18 x)) (Z.shiftr x 3).
Definition sigma1 (x : Z) : Z :=
  Z.lxor (Z.lxor (rotr 17 x) (rotr 19 x)) (Z.shiftr x 10).

(** The constants of FIPS 180-4 are the first 32 bits of the fractional
    parts of the cube roots (round constants) and of the square roots
    (initial hash value) of the first primes. *)
Definition is_prime (p : Z) : bool :=
  forallb (fun d => negb (p mod Z.of_nat d =? 0))
          (seq 2 (Z.to_nat p - 2)).

Definition primes (k : nat) : list Z :=
  firstn k (List.filter is_prime (map Z.of_nat (seq 2 310))).

(** The integer cube root of [n], found bit by bit below bit [k]. *)
Fixpoint cube_root (k : nat) (n r : Z) : Z :=
  match k with
  | O => r
  | S k' =>
      let c := r + 2 ^ Z.of_nat k' in
      cube_root k' n (if c * c * c <=? n then c else r)
  end.

Definition K : list Z :=
  Eval vm_compute in
    map (fun p => w32 (cube_root 36 (p * 2 ^ 96) 0)) (primes 64).

Definition H0 : list Z :=
  Eval vm_compute in
    map (fun p => w32 (Z.sqrt (p * 2 ^ 64))) (primes 8).

Definition Z_of_byte (b : byte) : Z := Z.of_N (Byte.to_N b).

Definition byte_of_Z (z : Z) : byte :=
  match Byte.of_N (Z.to_N (z mod 256)) with
  | Some b => b
  | None => x00
  end.

(** Big-endian encoding of [x] on [k] bytes. *)
Fixpoint be_bytes (k : nat) (x : Z) : list Z :=
  match k with
  | O => []
  | S k' => be_bytes k' (x / 256) ++ [x mod 256]
  end.

(** The message, a [0x80] byte, zero bytes up to 56 modulo 64, and the
    bit length on eight bytes. *)
Definition pad (msg : list Z) : list Z :=
  let len := Z.of_nat (length msg) in
  msg ++ [0x80] ++ repeat 0 (Z.to_nat ((55 - len) mod 64))
      ++ be_bytes 8 (8 * len).

Fixpoint words (k : nat) (bs : list Z) : list Z :=
  match k, bs with
  | S k', b0 :: b1 :: b2 :: b3 :: rest =>
      (((b0 * 256 + b1) * 256 + b2) * 256 + b3) :: words k' rest
  | _, _ => []
  end.

(** Extends the message schedule by [k] words. *)
Fixpoint schedule (k : nat) (W : list Z) : list Z :=
  match k with
  | O => W
  | S k' =>
      let t := length W in
      let w i := nth (t - i) W 0 in
      schedule k' (W ++ [w32 (sigma1 (w 2%nat) + w 7%nat
                               + sigma0 (w 15%nat) + w 16%nat)])
  end.

Definition round (s : list Z) (kw : Z * Z) : list Z :=
  match s with
  | [a; b; c; d; e; f; g; h] =>
      let T1 := h + Sigma1 e + Ch e f g + fst kw + snd kw in
      let T2 := Sigma0 a + Maj a b c in
      [w32 (T1 + T2); a; b; c; w32 (d + T1); e; f; g]
  | _ => s
  end.

Definition compress (H : list Z) (block : list Z) : list Z :=
  let W := schedule 48 (words 16 block) in
  let s := fold_left round (combine K W) H in
  map (fun p => w32 (fst p + snd p)) (combine H s).

Fixpoint blocks (k : nat) (H : list Z) (bs : list Z) : list Z :=
  match k with
  | O => H
  | S k' => blocks k' (compress H (firstn 64 bs)) (skipn 64 bs)
  end.

(** Modelled from the spec: the digest of Go's [crypto/sha256], which
    [hashing.HashSHA256] calls; the package belongs to the Go standard
    library, not to this repository, and the spec names its function
    SHA-256.  It is written out here after FIPS 180-4. *)
Definition digest (msg : bytes) : bytes :=
  let padded := pad (map Z_of_byte msg) in
  let H := blocks (length padded / 64) H0 padded in
  map byte_of_Z (concat (map (be_bytes 4) H)).

Definition of_string (s : string) : bytes := list_byte_of_string s.

(** Rendering of a byte string in lower-case hexadecimal. *)
Definition hex_digit (z : Z) : byte :=
  if z <? 10 then byte_of_Z (48 + z) else byte_of_Z (87 + z).
Definition hex (bs : bytes) : string :=
  string_of_list_byte
    (concat (map (fun b => [hex_digit (Z_of_byte b / 16);
                            hex_digit (Z_of_byte b mod 16)]) bs)).

End SHA256.

(** ** Outcomes of a call

    A Go call returns, panics (a nil dereference or an index out of
    range), or keeps running.  The recursive and looping functions of
    the model carry an iteration budget; [OutOfFuel] says the budget was
    too small to decide what the call does. *)

Inductive outcome (A : Type) : Type :=
| Done (a : A)
| Panics
| OutOfFuel.
Arguments Done {A} a.
Arguments Panics {A}.
Arguments OutOfFuel {A}.

#[global] Instance outcome_ret : MRet outcome := fun A a => Done a.
#[global] Instance outcome_bind : MBind outcome := fun A B f m =>
  match m with
  | Done a => f a
  | Panics => Panics
  | OutOfFuel => OutOfFuel
  end.

(** ** Data model *)

Abbreviation addr := nat.
(** [*Node]: [None] is the nil pointer. *)
Abbreviation ptr := (option nat).

Record Node : Type := mkNode {
  n_h : bytes;
  n_left : ptr;
  n_right : ptr;
  n_parent : ptr
}.

(** The store of allocated nodes; the address of a node is its index. *)
Abbreviation heap := (list Node).

(** [type Leaf interface { Bytes() []byte }]: an item is a non-nil
    interface value whose [Bytes()] returns the same bytes at every
    call. *)
Record Leaf : Type := { Bytes : bytes }.

(** [type HashStrategy interface]; an interface value may be nil, so the
    fields that hold one have type [option HashStrategy]. *)
Record HashStrategy : Type := {
  HashLeaf : bytes -> bytes;
  HashInternal : bytes -> bytes -> bytes
}.

Record MerkleProof : Type := mkProof {
  p_root : bytes;
  p_siblings : list bytes;
  p_left : list bool;
  p_hashStrategy : option HashStrategy
}.

Record MerkleTree : Type := mkTree {
  m_root : ptr;
  m_n : Z;
  m_leaves : list ptr;
  m_hashStrategy : option HashStrategy
}.

(** [errors.New(msg)]; a nil [error] is [None]. *)
Inductive error : Type := errors_New (msg : string).

(** Go's [int], taken as 64 bits wide, with its wrap-around. *)
Definition int_wrap (z : Z) : Z := (z + 2 ^ 63) mod 2 ^ 64 - 2 ^ 63.
Definition int_max : Z := 2 ^ 63 - 1.

Definition bytes_Equal (a b : bytes) : bool := bool_decide (a = b).

(** Reading through a pointer.  A nil pointer panics; an address outside
    the store does not exist in Go and is treated the same way. *)
Definition deref (H : heap) (p : ptr) : outcome Node :=
  match p with
  | Some a => match H !! a with Some nd => Done nd | None => Panics end
  | None => Panics
  end.

(** [l[i]], which panics out of range. *)
Definition index {A : Type} (l : list A) (i : nat) : outcome A :=
  match l !! i with Some x => Done x | None => Panics end.

(** [&Node{...}]: a fresh address at the end of the store. *)
Definition new_Node (H : heap) (nd : Node) : heap * ptr :=
  (H ++ [nd], Some (length H)).

Definition with_parent (q : ptr) (nd : Node) : Node :=
  {| n_h := n_h nd; n_left := n_left nd; n_right := n_right nd;
     n_parent := q |}.

(** [p.parent = q] *)
Definition set_parent (H : heap) (p q : ptr) : outcome heap :=
  match p with
  | Some a =>
      match H !! a with
      | Some _ => Done (alter (with_parent q) a H)
      | None => Panics
      end
  | None => Panics
  end.

(** ** package hashing and the default strategy *)

(** [h := sha256.New(); h.Write(b); return h.Sum(nil)]: the digest of
    [b]. *)
Definition HashSHA256 (b : bytes) : bytes := SHA256.digest b.

(** [append(s, t...)] on byte slices, as far as the contents go. *)
Definition append (s t : bytes) : bytes := s ++ t.

Definition defaultHashStrategy : HashStrategy := {|
  HashLeaf := fun l =>
    let bytes := append [x00] l in
    HashSHA256 bytes;
  HashInternal := fun l r =>
    let bytes := append [x01] l in
    let bytes := append bytes r in
    HashSHA256 bytes
|}.

(** ** Node methods *)

(** [func (n *Node) verify(hasher HashStrategy) bool].  The two [&&] of
    the source evaluate left to right and stop at the first [false]. *)
Fixpoint Node_verify (fuel : nat) (H : heap) (hasher : HashStrategy)
    (n : ptr) : outcome bool :=
  match fuel with
  | O => OutOfFuel
  | S fuel' =>
      nd ← deref H n;
      match n_left nd, n_right nd with
      | Some _, Some _ =>
          l ← deref H (n_left nd);
          r ← deref H (n_right nd);
          let hash := HashInternal hasher (n_h l) (n_h r) in
          if bytes_Equal (n_h nd) hash then
            ok ← Node_verify fuel' H hasher (n_left nd);
            if ok : bool then Node_verify fuel' H hasher (n_right nd)
            else Done false
          else Done false
      | None, None => Done true
      | _, _ => Done false
      end
  end.

(** [func (n *Node) isLeft() bool]: pointer identity with the parent's
    left child. *)
Definition Node_isLeft (H : heap) (n : ptr) : outcome bool :=
  nd ← deref H n;
  match n_parent nd with
  | None => Done false
  | Some _ =>
      pn ← deref H (n_parent nd);
      Done (bool_decide (n_left pn = n))
  end.

(** ** The tree builder *)

(** Calling a method of a nil interface value panics. *)
Definition the_strategy (hash : option HashStrategy) : outcome HashStrategy :=
  match hash with
  | Some hs => Done hs
  | None => Panics
  end.

(** [for i, x := range data { level[i] = &Node{h: hash.HashLeaf(x.Bytes())} }],
    entered with [i] the index of the first item of [data] still to do.
    [level] has one slot per item, so the store into [level[i]] is in
    range. *)
Fixpoint leaf_loop (hash : HashStrategy) (data : list Leaf) (i : nat)
    (st : heap * list ptr) : heap * list ptr :=
  match data with
  | [] => st
  | x :: rest =>
      let '(H, level) := st in
      let '(H1, p) :=
        new_Node H (mkNode (HashLeaf hash (Bytes x)) None None None) in
      leaf_loop hash rest (S i) (H1, <[i := p]> level)
  end.

(** A loop body run for each index of a list, left to right. *)
Fixpoint iterate {S : Type} (body : S -> nat -> outcome S)
    (idx : list nat) (s : S) : outcome S :=
  match idx with
  | [] => Done s
  | i :: rest => s' ← body s i; iterate body rest s'
  end.

(** [for i := range k { body }] *)
Definition for_range {S : Type} (k : nat) (body : S -> nat -> outcome S)
    (s : S) : outcome S :=
  iterate body (seq 0 k) s.

(** The body of the pairing loop; the state is the store, [next] and
    the node counter [n]. *)
Definition pair_step (hash : HashStrategy) (level : list ptr)
    (st : heap * list ptr * Z) (i : nat) : outcome (heap * list ptr * Z) :=
  let '(H, next, n) := st in
  lp ← index level (2 * i);
  rp ← index level (2 * i + 1);
  l ← deref H lp;
  r ← deref H rp;
  let '(H1, parent) :=
    new_Node H (mkNode (HashInternal hash (n_h l) (n_h r)) lp rp None) in
  H2 ← set_parent H1 lp parent;
  H3 ← set_parent H2 rp parent;
  Done (H3, next ++ [parent], int_wrap (n + 1)).

(** [for len(level) > 1 { ... }] *)
Fixpoint level_loop (fuel : nat) (hash : HashStrategy)
    (st : heap * list ptr * Z) : outcome (heap * list ptr * Z) :=
  let '(H, level, n) := st in
  if decide (1 < length level)%nat then
    match fuel with
    | O => OutOfFuel
    | S fuel' =>
        '(H', next, n') ←
          for_range (length level / 2)%nat (pair_step hash level) (H, [], n);
        next' ←
          (if decide ((length level mod 2)%nat ≠ 0%nat) then
             last ← index level (length level - 1);
             Done (next ++ [last])
           else Done next);
        level_loop fuel' hash (H', next', n')
    end
  else Done st.

(** [func buildMerkleTree(data []Leaf, hash HashStrategy) *MerkleTree].
    The level loop halves the level (rounding up) each time round, so a
    budget of [len(level)] iterations is never used up
    ([buildMerkleTree_returns] below). *)
Definition buildMerkleTree (data : list Leaf) (hash : option HashStrategy)
    (H : heap) : outcome (heap * option MerkleTree) :=
  if decide (length data = 0%nat) then Done (H, None)
  else
    hs ← the_strategy hash;
    let '(H1, level) :=
      leaf_loop hs data 0 (H, replicate (length data) None) in
    let leaves := level in
    let n := Z.of_nat (length level) in
    '(H2, level', n') ← level_loop (length level) hs (H1, level, n);
    root ← index level' 0;
    Done (H2, Some (mkTree root n' leaves hash)).

Definition BuildMerkleTree (data : list Leaf) (H : heap)
    : outcome (heap * option MerkleTree) :=
  buildMerkleTree data (Some defaultHashStrategy) H.

Definition BuildMerkleTreeWithHashStrategy (data : list Leaf)
    (hash : option HashStrategy) (H : heap)
    : outcome (heap * option MerkleTree) :=
  buildMerkleTree data hash H.

(** ** The tree facade; the receiver [m] may be nil *)

Definition MerkleTree_Root (H : heap) (m : option MerkleTree)
    : outcome bytes :=
  match m with
  | None => Done []
  | Some t =>
      match m_root t with
      | None => Done []
      | Some _ => nd ← deref H (m_root t); Done (n_h nd)
      end
  end.

Definition MerkleTree_Len (m : option MerkleTree) : outcome Z :=
  match m with
  | None => Done (-1)
  | Some t => Done (m_n t)
  end.

Definition MerkleTree_Verify (fuel : nat) (H : heap)
    (m : option MerkleTree) : outcome bool :=
  match m with
  | None => Done false
  | Some t =>
      match m_root t with
      | None => Done false
      | Some _ =>
          match m_hashStrategy t with
          | None => Done false
          | Some hs => Node_verify fuel H hs (m_root t)
          end
      end
  end.

(** [for _, l := range m.leaves { if bytes.Equal(hash, l.h) { inLeaves = true; node = l } }] *)
Fixpoint scan_leaves (H : heap) (hash : bytes) (ls : list ptr)
    (st : bool * ptr) : outcome (bool * ptr) :=
  match ls with
  | [] => Done st
  | l :: rest =>
      nd ← deref H l;
      scan_leaves H hash rest
        (if bytes_Equal hash (n_h nd) then (true, l) else st)
  end.

Definition MerkleTree_VerifyExists (fuel : nat) (H : heap)
    (m : option MerkleTree) (x : Leaf) : outcome (ptr * option error) :=
  match m with
  | None => Panics
  | Some t =>
      hs ← the_strategy (m_hashStrategy t);
      let hash := HashLeaf hs (Bytes x) in
      '(inLeaves, node) ← scan_leaves H hash (m_leaves t) (false, None);
      if negb inLeaves then Done (node, Some (errors_New "not in tree"))
      else
        ok ← MerkleTree_Verify fuel H m;
        if negb ok then Done (node, Some (errors_New "unable to verify tree"))
        else Done (node, None)
  end.

(** [for node.parent != nil { ...; node = node.parent }] *)
Fixpoint climb (fuel : nat) (H : heap) (node : ptr)
    (siblings : list bytes) (left : list bool)
    : outcome (list bytes * list bool) :=
  match fuel with
  | O => OutOfFuel
  | S fuel' =>
      nd ← deref H node;
      match n_parent nd with
      | None => Done (siblings, left)
      | Some _ =>
          isLeft ← Node_isLeft H node;
          pn ← deref H (n_parent nd);
          if isLeft : bool then
            r ← deref H (n_right pn);
            climb fuel' H (n_parent nd) (siblings ++ [n_h r]) (left ++ [false])
          else
            l ← deref H (n_left pn);
            climb fuel' H (n_parent nd) (siblings ++ [n_h l]) (left ++ [true])
      end
  end.

Definition MerkleTree_Proof (fuel : nat) (H : heap) (m : option MerkleTree)
    (x : Leaf) : outcome (option MerkleProof * option error) :=
  match m with
  | None => Done (None, Some (errors_New "nil tree"))
  | Some t =>
      '(node, err) ← MerkleTree_VerifyExists fuel H m x;
      match err with
      | Some e => Done (None, Some e)
      | None =>
          '(siblings, left_) ← climb fuel H node [] [];
          root ← MerkleTree_Root H m;
          Done (Some (mkProof root siblings left_ (m_hashStrategy t)), None)
      end
  end.

(** ** The proof verifier *)

(** [for i, isLeft := range p.left { ... p.siblings[i] ... }], entered
    with [i] the index of the first flag of [left] still to do. *)
Fixpoint proof_loop (hash : HashStrategy) (siblings : list bytes)
    (left : list bool) (i : nat) (acc : bytes) : outcome bytes :=
  match left with
  | [] => Done acc
  | isLeft :: rest =>
      s ← index siblings i;
      proof_loop hash siblings rest (S i)
        (if isLeft : bool then HashInternal hash s acc
         else HashInternal hash acc s)
  end.

Definition VerifyProof (x : Leaf) (p : option MerkleProof)
    : outcome (option error) :=
  match p with
  | None => Done (Some (errors_New "no proof/hash strategy"))
  | Some pr =>
      match p_hashStrategy pr with
      | None => Done (Some (errors_New "no proof/hash strategy"))
      | Some hs =>
          if decide (length (p_siblings pr) ≠ length (p_left pr)) then
            Done (Some (errors_New "proof lengths mismatch"))
          else
            hash ← proof_loop hs (p_siblings pr) (p_left pr) 0
                     (HashLeaf hs (Bytes x));
            if negb (bytes_Equal hash (p_root pr)) then
              Done (Some (errors_New "root does not match"))
            else Done None
      end
  end.

(** The test suite's leaf type: [func (t *TestLeaf) Bytes() []byte { return []byte(t.x) }] *)
Definition TestLeaf (x : string) : Leaf := {| Bytes := list_byte_of_string x |}.


(** * Notions used to state and prove the properties *)

(** ** The builder on addresses

    Inside [buildMerkleTree] every pointer of [level] comes from
    [&Node{...}]; the lemmas below show that the loops compute the
    following functions on the addresses. *)

Definition leaf_node (hash : HashStrategy) (x : Leaf) : Node :=
  mkNode (HashLeaf hash (Bytes x)) None None None.

Definition hash_at (H : heap) (a : addr) : bytes :=
  match H !! a with
  | Some nd => n_h nd
  | None => []
  end.

(** One pass of the pairing loop body on the nodes at [a] and [b]: the
    parent is allocated at [length H] and both children point at it. *)
Definition merge (hash : HashStrategy) (H : heap) (a b : addr) : heap :=
  alter (with_parent (Some (length H))) b
    (alter (with_parent (Some (length H))) a
       (H ++ [mkNode (HashInternal hash (hash_at H a) (hash_at H b))
                     (Some a) (Some b) None])).

(** The parents created for a level, left to right. *)
Fixpoint pair_up (hash : HashStrategy) (H : heap) (lvl : list addr)
    : heap * list addr :=
  match lvl with
  | a :: b :: rest =>
      let '(H', next) := pair_up hash (merge hash H a b) rest in
      (H', length H :: next)
  | _ => (H, [])
  end.

(** The node of an odd level that has no partner. *)
Fixpoint leftover (lvl : list addr) : list addr :=
  match lvl with
  | _ :: _ :: rest => leftover rest
  | _ => lvl
  end.

(** The rounds of the level loop: pair the level up and carry the node
    without partner along, until one node is left. *)
Fixpoint rounds (fuel : nat) (hash : HashStrategy) (H : heap)
    (lvl : list addr) : heap * list addr :=
  match fuel with
  | O => (H, lvl)
  | S fuel' =>
      if decide (1 < length lvl)%nat then
        let '(H', next) := pair_up hash H lvl in
        rounds fuel' hash H' (next ++ leftover lvl)
      else (H, lvl)
  end.

(** The store and the root address that [buildMerkleTree] arrives at
    from the store [H]. *)
Definition built (hash : HashStrategy) (data : list Leaf) (H : heap)
    : heap * list addr :=
  rounds (length data) hash (H ++ (leaf_node hash <$> data))
         (seq (length H) (length data)).

(** [k] times [n++]. *)
Definition bump (k : nat) (n : Z) : Z :=
  Nat.iter k (fun z => int_wrap (z + 1)) n.

(** ** Stores that grow

    [extends H H']: every node of [H] is still there in [H'] with the
    same hash and children, and a parent pointer that was set is
    unchanged. *)
Definition extends (H H' : heap) : Prop :=
  forall a nd, H !! a = Some nd ->
    exists nd', H' !! a = Some nd' /\
      n_h nd' = n_h nd /\ n_left nd' = n_left nd /\
      n_right nd' = n_right nd /\
      (n_parent nd <> None -> n_parent nd' = n_parent nd).

(** ** Consistent subtrees *)

(** A node is locally sound when it is a leaf, or has two children and
    stores the internal hash of their hashes. *)
Definition node_ok (hash : HashStrategy) (H : heap) (a : addr) : Prop :=
  exists nd, H !! a = Some nd /\
    ((n_left nd = None /\ n_right nd = None) \/
     (exists l r nl nr,
        n_left nd = Some l /\ n_right nd = Some r /\
        H !! l = Some nl /\ H !! r = Some nr /\
        n_h nd = HashInternal hash (n_h nl) (n_h nr))).

(** The nodes of the graph under a node: the node itself and whatever
    its children reach. *)
Inductive reach (H : heap) : addr -> addr -> Prop :=
| reach_refl a : reach H a a
| reach_left a nd c d :
    H !! a = Some nd -> n_left nd = Some c -> reach H c d -> reach H a d
| reach_right a nd c d :
    H !! a = Some nd -> n_right nd = Some c -> reach H c d -> reach H a d.

(** The graph under a node is finite: every chain of child pointers ends
    and every pointer on the way is an address of the store. *)
Inductive grounded (H : heap) : addr -> Prop :=
| grounded_node a nd :
    H !! a = Some nd ->
    (forall c, n_left nd = Some c -> grounded H c) ->
    (forall c, n_right nd = Some c -> grounded H c) ->
    grounded H a.

(** The whole subtree under a node is sound. *)
Inductive valid (hash : HashStrategy) (H : heap) : addr -> Prop :=
| valid_leaf a nd :
    H !! a = Some nd -> n_left nd = None -> n_right nd = None ->
    valid hash H a
| valid_node a nd l r nl nr :
    H !! a = Some nd -> n_left nd = Some l -> n_right nd = Some r ->
    H !! l = Some nl -> H !! r = Some nr ->
    n_h nd = HashInternal hash (n_h nl) (n_h nr) ->
    valid hash H l -> valid hash H r ->
    valid hash H a.

(** ** Paths to the top *)

(** Following the spec of the verifier: the running hash is combined
    with each (sibling, direction) pair in leaf-to-root order, the
    sibling on the left when the flag says so. *)
Definition recompute (hash : HashStrategy) (start : bytes)
    (pairs : list (bytes * bool)) : bytes :=
  fold_left
    (fun (acc : bytes) (sd : bytes * bool) =>
       if snd sd then HashInternal hash (fst sd) acc
       else HashInternal hash acc (fst sd))
    pairs start.

(** [path H p t sibs dirs]: walking up the parent pointers from [p]
    arrives at [t], and [sibs], [dirs] are what the loop of
    [MerkleTree_Proof] records on the way. *)
Inductive path (H : heap) : addr -> addr -> list bytes -> list bool -> Prop :=
| path_here a : path H a a [] []
| path_from_left p q t nd pn r nr sibs dirs :
    H !! p = Some nd -> n_parent nd = Some q -> H !! q = Some pn ->
    n_left pn = Some p -> n_right pn = Some r -> H !! r = Some nr ->
    path H q t sibs dirs ->
    path H p t (n_h nr :: sibs) (false :: dirs)
| path_from_right p q t nd pn l nl sibs dirs :
    H !! p = Some nd -> n_parent nd = Some q -> H !! q = Some pn ->
    n_left pn <> Some p -> n_left pn = Some l -> H !! l = Some nl ->
    path H q t sibs dirs ->
    path H p t (n_h nl :: sibs) (true :: dirs).

(** A checker for [path]: the walk from [p] to the node without
    parent, within [fuel] steps. *)
Fixpoint walk (fuel : nat) (H : heap) (p : addr)
    : option (addr * list bytes * list bool) :=
  match fuel with
  | O => None
  | S fuel' =>
      nd ← H !! p;
      match n_parent nd with
      | None => Some (p, [], [])
      | Some q =>
          pn ← H !! q;
          if bool_decide (n_left pn = Some p) then
            r ← n_right pn; nr ← H !! r;
            '(t, sibs, dirs) ← walk fuel' H q;
            Some (t, n_h nr :: sibs, false :: dirs)
          else
            l ← n_left pn; nl ← H !! l;
            '(t, sibs, dirs) ← walk fuel' H q;
            Some (t, n_h nl :: sibs, true :: dirs)
      end
  end.

(** What the pairing rounds maintain, for the leaves [L] and the nodes
    [T] that have no parent yet. *)
Record inv (hash : HashStrategy) (H : heap) (L T : list addr) : Prop := {
  inv_nodup : NoDup T;
  inv_top : forall t, t ∈ T ->
    exists nd, H !! t = Some nd /\ n_parent nd = None;
  inv_valid : forall t, t ∈ T -> valid hash H t;
  inv_path : forall l, l ∈ L ->
    exists t sibs dirs nl nt,
      t ∈ T /\ path H l t sibs dirs /\
      H !! l = Some nl /\ H !! t = Some nt /\
      recompute hash (n_h nl) (combine sibs dirs) = n_h nt
}.

(** ** Looking an item up *)

(** The leaf pointer [l] is a node whose stored hash is [hash]. *)
Definition matches (H : heap) (hash : bytes) (l : ptr) : bool :=
  match l with
  | Some a =>
      match H !! a with
      | Some nd => bytes_Equal hash (n_h nd)
      | None => false
      end
  | None => false
  end.

(** The rightmost leaf of [ls] whose stored hash is [hash]; nil when
    there is none. *)
Definition last_match (H : heap) (hash : bytes) (ls : list ptr) : ptr :=
  match last (List.filter (matches H hash) ls) with
  | Some l => l
  | None => None
  end.

(** Every leaf pointer is the address of a node. *)
Definition live (H : heap) (l : ptr) : Prop :=
  exists a nd, l = Some a /\ H !! a = Some nd.

(** The graph under the root of a tree is finite (a tree without root
    has no graph). *)
Definition finite_tree (H : heap) (t : MerkleTree) : Prop :=
  forall r, m_root t = Some r -> grounded H r.

(** A node with exactly one child. *)
Definition one_child (nd : Node) : Prop :=
  (n_left nd = None /\ n_right nd <> None) \/
  (n_left nd <> None /\ n_right nd = None).

(** A checker for [grounded]: the children of every node within [fuel]
    steps of [a] are addresses of the store. *)
Fixpoint groundedb (fuel : nat) (H : heap) (a : addr) : bool :=
  match fuel with
  | O => false
  | S fuel' =>
      match H !! a with
      | None => false
      | Some nd =>
          match n_left nd with
          | Some c => groundedb fuel' H c
          | None => true
          end &&
          match n_right nd with
          | Some c => groundedb fuel' H c
          | None => true
          end
      end
  end.

(** ** Test data *)

(** The three items of the repository's tests and README. *)
Definition abc : list Leaf := [TestLeaf "a"; TestLeaf "b"; TestLeaf "c"].

(** The store and the tree that [BuildMerkleTree] makes of them in an
    empty store ([abc_built] below). *)
Definition abc_store : heap :=
  Eval vm_compute in (built defaultHashStrategy abc []).1.

Definition abc_tree : MerkleTree :=
  mkTree (Some 4%nat) 5 [Some 0%nat; Some 1%nat; Some 2%nat]
         (Some defaultHashStrategy).

(** A strategy that tags like the default one but does not digest; its
    leaf and internal hashes visibly never coincide. *)
Definition tagStrategy : HashStrategy := {|
  HashLeaf := fun l => x00 :: l;
  HashInternal := fun l r => x01 :: l ++ r
|}.

(** A proof value without strategy whose two sequences differ in length,
    and the zero value of [Proof]. *)
Definition lopsided_proof : MerkleProof := mkProof [] [[]] [] None.
Definition zero_proof : MerkleProof := mkProof [] [] [] None.

(** An input with a duplicate item, and the store and tree that
    [BuildMerkleTree] makes of it in an empty store. *)
Definition aba : list Leaf := [TestLeaf "a"; TestLeaf "b"; TestLeaf "a"].

Definition aba_store : heap :=
  Eval vm_compute in (built defaultHashStrategy aba []).1.

Definition aba_tree : MerkleTree :=
  mkTree (Some 4%nat) 5 [Some 0%nat; Some 1%nat; Some 2%nat]
         (Some defaultHashStrategy).

(** ** The root as a function of the leaf hashes *)

(** One level of hashes reduced to the next: neighbours are combined
    left to right and a hash without neighbour is carried over. *)
Fixpoint hash_pairs (hash : HashStrategy) (level : list bytes)
    : list bytes :=
  match level with
  | l :: r :: rest => HashInternal hash l r :: hash_pairs hash rest
  | _ => level
  end.

(** The levels reduced until one hash is left. *)
Fixpoint hash_levels (fuel : nat) (hash : HashStrategy)
    (level : list bytes) : list bytes :=
  match fuel with
  | O => level
  | S fuel' =>
      if decide (1 < length level)%nat then
        hash_levels fuel' hash (hash_pairs hash level)
      else level
  end.

(** The root hash of a sequence of items: the leaf hashes, reduced. *)
Definition merkle_root (hash : HashStrategy) (data : list Leaf) : bytes :=
  match hash_levels (length data) hash
          ((fun x => HashLeaf hash (Bytes x)) <$> data) with
  | [root] => root
  | _ => []
  end.

(** ** Tampering with the store *)

(** The node with another stored hash. *)
Definition with_hash (h : bytes) (nd : Node) : Node :=
  {| n_h := h; n_left := n_left nd; n_right := n_right nd;
     n_parent := n_parent nd |}.

(** A strategy whose internal hash determines each of its two arguments
    once the other one is fixed. *)
Definition binding (hash : HashStrategy) : Prop :=
  (forall s h h', HashInternal hash s h = HashInternal hash s h' -> h = h') /\
  (forall s h h', HashInternal hash h s = HashInternal hash h' s -> h = h').

(** The proof of ["a"] in the tree over ["a"], ["b"] under the tagging
    strategy. *)
Definition ab_tag_proof : MerkleProof :=
  mkProof (HashInternal tagStrategy
             (HashLeaf tagStrategy (Bytes (TestLeaf "a")))
             (HashLeaf tagStrategy (Bytes (TestLeaf "b"))))
          [HashLeaf tagStrategy (Bytes (TestLeaf "b"))] [false]
          (Some tagStrategy).

(** ** The length of paths *)

(** Every leaf of [L] has a path to a node of [T]; the path has at most
    [S d] steps when it ends in [fresh] and at most [d] steps when it
    ends in [old]. *)
Definition within (H : heap) (L fresh old : list addr) (d : nat) : Prop :=
  forall l, l ∈ L ->
    exists t sibs dirs,
      path H l t sibs dirs /\
      ((t ∈ fresh /\ (length sibs <= S d)%nat) \/
       (t ∈ old /\ (length sibs <= d)%nat)).

(** ** Ideal strategies *)

(** No two pairs of arguments have the same internal hash. *)
Definition collision_free (hash : HashStrategy) : Prop :=
  forall l r l' r',
    HashInternal hash l r = HashInternal hash l' r' -> l = l' /\ r = r'.

(** No leaf hash is an internal hash. *)
Definition separated (hash : HashStrategy) : Prop :=
  forall b l r, HashLeaf hash b <> HashInternal hash l r.

(** A self-delimiting code for a byte string: each byte behind a [0x01],
    closed by a [0x00]. *)
Fixpoint framed (l : bytes) : bytes :=
  match l with
  | [] => [x00]
  | b :: rest => x01 :: b :: framed rest
  end.

(** A strategy that tags like the default one and, instead of
    digesting, keeps its arguments apart; it is collision free and
    separated by construction. *)
Definition framedStrategy : HashStrategy := {|
  HashLeaf := fun l => x00 :: l;
  HashInternal := fun l r => x01 :: framed l ++ r
|}.

(** ** The leaves under a node *)

(** Every node without children under [a] stores one of [hashes]. *)
Inductive leaves_in (H : heap) (hashes : list bytes) : addr -> Prop :=
| leaves_in_leaf a nd :
    H !! a = Some nd -> n_left nd = None -> n_right nd = None ->
    n_h nd ∈ hashes ->
    leaves_in H hashes a
| leaves_in_node a nd l r :
    H !! a = Some nd -> n_left nd = Some l -> n_right nd = Some r ->
    leaves_in H hashes l -> leaves_in H hashes r ->
    leaves_in H hashes a.

(** A node with a child. *)
Definition internal (nd : Node) : Prop :=
  n_left nd <> None \/ n_right nd <> None.

(** Every leaf of [L] is in the graph under a node of [T]. *)
Definition reached (H : heap) (L T : list addr) : Prop :=
  forall l, l ∈ L -> exists t, t ∈ T /\ reach H t l.

(** ** The items under a node *)

(** The subtree under [a] is a hash tree over the items [xs], left to
    right: a node without children stores the leaf hash of one item, a
    node with two children stores the internal hash of their hashes and
    stands for the items of the left child followed by those of the
    right child. *)
Inductive covers (hash : HashStrategy) (H : heap)
    : addr -> list Leaf -> Prop :=
| covers_leaf a nd x :
    H !! a = Some nd -> n_left nd = None -> n_right nd = None ->
    n_h nd = HashLeaf hash (Bytes x) ->
    covers hash H a [x]
| covers_node a nd l r nl nr xl xr :
    H !! a = Some nd -> n_left nd = Some l -> n_right nd = Some r ->
    H !! l = Some nl -> H !! r = Some nr ->
    n_h nd = HashInternal hash (n_h nl) (n_h nr) ->
    covers hash H l xl -> covers hash H r xr ->
    covers hash H a (xl ++ xr).

(** The nodes of a level stand, in order, for consecutive pieces of
    [xs]. *)
Definition covering (hash : HashStrategy) (H : heap) (T : list addr)
    (xs : list Leaf) : Prop :=
  exists xss, Forall2 (covers hash H) T xss /\ concat xss = xs.

(** * The first version of the package

    [merkletree.go] before hash strategies were introduced: the hashes
    are those of package [hashing], [isLeft] compares hashes instead of
    pointers, and the methods have no nil guards.  The node type is the
    same, so the store is shared with the later version. *)

Module V1.

(** ** package hashing *)

Definition hashing_HashLeaf (l : bytes) : bytes :=
  let bytes := append [x00] l in
  HashSHA256 bytes.

Definition hashing_HashInternal (l r : bytes) : bytes :=
  let bytes := append [x01] l in
  let bytes := append bytes r in
  HashSHA256 bytes.

(** The two functions of the package as one value, with which the loops
    of the builder are run. *)
Definition hashing : HashStrategy := {|
  HashLeaf := hashing_HashLeaf;
  HashInternal := hashing_HashInternal
|}.

(** ** Data model *)

Record MerkleProof : Type := mkProof {
  p_root : bytes;
  p_siblings : list bytes;
  p_left : list bool
}.

Record MerkleTree : Type := mkTree {
  m_root : ptr;
  m_n : Z;
  m_leaves : list ptr
}.

(** ** Node methods *)

(** [func (n *Node) verify() bool] *)
Fixpoint Node_verify (fuel : nat) (H : heap) (n : ptr) : outcome bool :=
  match fuel with
  | O => OutOfFuel
  | S fuel' =>
      nd ← deref H n;
      match n_left nd, n_right nd with
      | Some _, Some _ =>
          l ← deref H (n_left nd);
          r ← deref H (n_right nd);
          let hash := hashing_HashInternal (n_h l) (n_h r) in
          if bytes_Equal (n_h nd) hash then
            ok ← Node_verify fuel' H (n_left nd);
            if ok : bool then Node_verify fuel' H (n_right nd)
            else Done false
          else Done false
      | None, None => Done true
      | _, _ => Done false
      end
  end.

(** [func (n *Node) isLeft() bool]: the hash of the node is compared
    with the hash of the parent's left child. *)
Definition Node_isLeft (H : heap) (n : ptr) : outcome bool :=
  nd ← deref H n;
  match n_parent nd with
  | None => Done false
  | Some _ =>
      pn ← deref H (n_parent nd);
      l ← deref H (n_left pn);
      if bytes_Equal (n_h nd) (n_h l) then Done true
      else Done false
  end.

(** [func (n *Node) PrintTreeDFS()]: what is written to standard
    output, one string per call of [fmt.Printf] or [fmt.Println]. *)

Definition newline : string := String "010"%char EmptyString.

(** The alphabet of [base64.RawStdEncoding] (RFC 4648, section 4). *)
Definition base64_alphabet : list ascii :=
  list_ascii_of_string
    "ABCDEFGHIJKLMNOPQRSTUVWXYZabcdefghijklmnopqrstuvwxyz0123456789+/".

Definition base64_char (z : Z) : ascii :=
  nth (Z.to_nat z) base64_alphabet "A"%char.

(** Three bytes give four characters; one or two bytes left over give
    two or three characters, and no padding is written. *)
Fixpoint base64_raw (bs : list Z) : list ascii :=
  match bs with
  | b0 :: b1 :: b2 :: rest =>
      base64_char (b0 / 4)
        :: base64_char ((b0 mod 4) * 16 + b1 / 16)
        :: base64_char ((b1 mod 16) * 4 + b2 / 64)
        :: base64_char (b2 mod 64)
        :: base64_raw rest
  | [b0; b1] =>
      [base64_char (b0 / 4);
       base64_char ((b0 mod 4) * 16 + b1 / 16);
       base64_char ((b1 mod 16) * 4)]
  | [b0] =>
      [base64_char (b0 / 4); base64_char ((b0 mod 4) * 16)]
  | [] => []
  end.

(** [base64.RawStdEncoding.EncodeToString]; the package belongs to the
    Go standard library and is written out here after RFC 4648. *)
Definition base64_RawStdEncoding_EncodeToString (b : bytes) : string :=
  string_of_list_ascii (base64_raw (SHA256.Z_of_byte <$> b)).

Fixpoint Node_PrintTreeDFS (fuel : nat) (H : heap) (n : ptr)
    : outcome (list string) :=
  match fuel with
  | O => OutOfFuel
  | S fuel' =>
      nd ← deref H n;
      let b64 := base64_RawStdEncoding_EncodeToString (n_h nd) in
      let out := [("x: " ++ b64 ++ newline)%string] in
      out ←
        match n_left nd with
        | Some _ =>
            sub ← Node_PrintTreeDFS fuel' H (n_left nd);
            Done (out ++ ("left:" ++ newline)%string :: sub)
        | None => Done out
        end;
      match n_right nd with
      | Some _ =>
          sub ← Node_PrintTreeDFS fuel' H (n_right nd);
          Done (out ++ ("right:" ++ newline)%string :: sub)
      | None => Done out
      end
  end.

(** ** The tree builder *)

(** [func BuildMerkleTree(data []Leaf) *MerkleTree]: the loops are those
    of the later [buildMerkleTree], with the functions of package
    [hashing] called directly. *)
Definition BuildMerkleTree (data : list Leaf) (H : heap)
    : outcome (heap * option MerkleTree) :=
  if decide (length data = 0%nat) then Done (H, None)
  else
    let '(H1, level) :=
      leaf_loop hashing data 0 (H, replicate (length data) None) in
    let leaves := level in
    let n := Z.of_nat (length level) in
    '(H2, level', n') ← level_loop (length level) hashing (H1, level, n);
    root ← index level' 0;
    Done (H2, Some (mkTree root n' leaves)).

(** ** The tree facade; a nil receiver is dereferenced *)

Definition MerkleTree_Root (H : heap) (m : option MerkleTree)
    : outcome bytes :=
  match m with
  | None => Panics
  | Some t => nd ← deref H (m_root t); Done (n_h nd)
  end.

Definition MerkleTree_Len (m : option MerkleTree) : outcome Z :=
  match m with
  | None => Panics
  | Some t => Done (m_n t)
  end.

Definition MerkleTree_Verify (fuel : nat) (H : heap)
    (m : option MerkleTree) : outcome bool :=
  match m with
  | None => Panics
  | Some t => Node_verify fuel H (m_root t)
  end.

Definition MerkleTree_VerifyExists (fuel : nat) (H : heap)
    (m : option MerkleTree) (x : Leaf) : outcome (ptr * option error) :=
  let hash := hashing_HashLeaf (Bytes x) in
  match m with
  | None => Panics
  | Some t =>
      '(inLeaves, node) ← scan_leaves H hash (m_leaves t) (false, None);
      if negb inLeaves then Done (node, Some (errors_New "not in tree"))
      else
        ok ← MerkleTree_Verify fuel H m;
        if negb ok then Done (node, Some (errors_New "unable to verify tree"))
        else Done (node, None)
  end.

(** [for node.parent != nil { ...; node = node.parent }] *)
Fixpoint climb (fuel : nat) (H : heap) (node : ptr)
    (siblings : list bytes) (left : list bool)
    : outcome (list bytes * list bool) :=
  match fuel with
  | O => OutOfFuel
  | S fuel' =>
      nd ← deref H node;
      match n_parent nd with
      | None => Done (siblings, left)
      | Some _ =>
          isLeft ← Node_isLeft H node;
          pn ← deref H (n_parent nd);
          if isLeft : bool then
            r ← deref H (n_right pn);
            climb fuel' H (n_parent nd) (siblings ++ [n_h r]) (left ++ [false])
          else
            l ← deref H (n_left pn);
            climb fuel' H (n_parent nd) (siblings ++ [n_h l]) (left ++ [true])
      end
  end.

Definition MerkleTree_Proof (fuel : nat) (H : heap) (m : option MerkleTree)
    (x : Leaf) : outcome (option MerkleProof * option error) :=
  '(node, err) ← MerkleTree_VerifyExists fuel H m x;
  match err with
  | Some e => Done (None, Some e)
  | None =>
      '(siblings, left_) ← climb fuel H node [] [];
      root ← MerkleTree_Root H m;
      Done (Some (mkProof root siblings left_), None)
  end.

(** [func VerifyProof(x Leaf, p *Proof) error] *)
Definition VerifyProof (x : Leaf) (p : option MerkleProof)
    : outcome (option error) :=
  match p with
  | None => Panics
  | Some pr =>
      if decide (length (p_siblings pr) ≠ length (p_left pr)) then
        Done (Some (errors_New "proof lengths mismatch"))
      else
        hash ← proof_loop hashing (p_siblings pr) (p_left pr) 0
                 (hashing_HashLeaf (Bytes x));
        if negb (bytes_Equal hash (p_root pr)) then
          Done (Some (errors_New "root does not match"))
        else Done None
  end.

End V1.

(** ** Parent links *)

(** [linked hash H p t]: from [p] the parent pointers lead to [t], and
    every node on the way is one of the two children of its parent,
    which stores the internal hash of the hashes of its children. *)
Inductive linked (hash : HashStrategy) (H : heap) : addr -> addr -> Prop :=
| linked_here a : linked hash H a a
| linked_step p q t nd pn l r nl nr :
    H !! p = Some nd -> n_parent nd = Some q -> H !! q = Some pn ->
    n_left pn = Some l -> n_right pn = Some r ->
    H !! l = Some nl -> H !! r = Some nr ->
    n_h pn = HashInternal hash (n_h nl) (n_h nr) ->
    p = l \/ p = r ->
    linked hash H q t ->
    linked hash H p t.

(** Every leaf of [L] is linked to a node of [T]. *)
Definition all_linked (hash : HashStrategy) (H : heap) (L T : list addr)
    : Prop :=
  forall l, l ∈ L -> exists t, t ∈ T /\ linked hash H l t.

(** ** The lines of [PrintTreeDFS] *)

Definition left_line : string := ("left:" ++ V1.newline)%string.
Definition right_line : string := ("right:" ++ V1.newline)%string.
Definition node_line (h : bytes) : string :=
  ("x: " ++ V1.base64_RawStdEncoding_EncodeToString h ++ V1.newline)%string.

(** * Properties *)

Set Warnings "-clear-no-such-hyp".

Local Open Scope nat_scope.

(** ** The digest *)

Example sha256_constants :
  length SHA256.K = 64%nat /\
  head SHA256.K = Some 0x428a2f98%Z /\ last SHA256.K = Some 0xc67178f2%Z /\
  head SHA256.H0 = Some 0x6a09e667%Z /\ last SHA256.H0 = Some 0x5be0cd19%Z.
Proof. vm_compute. repeat split. Qed.

(** The function agrees with the published test vectors. *)
Example sha256_empty :
  SHA256.hex (SHA256.digest []) =
  "e3b0c44298fc1c149afbf4c8996fb92427ae41e4649b934ca495991b7852b855"%string.
Proof. vm_compute. reflexivity. Qed.

Example sha256_abc :
  SHA256.hex (SHA256.digest (SHA256.of_string "abc")) =
  "ba7816bf8f01cfea414140de5dae2223b00361a396177a9cb410ff61f20015ad"%string.
Proof. vm_compute. reflexivity. Qed.

Example sha256_two_blocks :
  SHA256.hex (SHA256.digest (repeat "b"%byte 119)) =
  "68297a9eb141ce16bbc0847da1c0c48e2858704feaa13993bde29f87a198a6e1"%string.
Proof. vm_compute. reflexivity. Qed.


(** ** Arithmetic of [int] *)

Lemma int_wrap_id z :
  (- 2 ^ 63 <= z <= int_max)%Z -> int_wrap z = z.
Proof.
  unfold int_wrap, int_max. intros Hz.
  rewrite Z.mod_small; lia.
Qed.

Lemma bump_exact k n :
  (- 2 ^ 63 <= n)%Z -> (n + Z.of_nat k <= int_max)%Z ->
  bump k n = (n + Z.of_nat k)%Z.
Proof.
  unfold bump. induction k as [|k IH]; intros Hlo Hhi; simpl.
  - lia.
  - rewrite IH by lia. rewrite int_wrap_id by (unfold int_max in *; lia). lia.
Qed.

Lemma bump_add j k n : bump j (bump k n) = bump (j + k) n.
Proof. unfold bump. by rewrite Nat.iter_add. Qed.

(** ** The leaf loop *)

Section Builder.
Context (hash : HashStrategy).

Lemma leaf_loop_spec data : forall i H pre,
  length pre = i ->
  leaf_loop hash data i (H, pre ++ replicate (length data) None) =
  (H ++ (leaf_node hash <$> data),
   pre ++ (Some <$> seq (length H) (length data))).
Proof.
  induction data as [|x rest IH]; intros i H pre Hi; simpl.
  - by rewrite !app_nil_r.
  - replace i with (length pre + 0) by lia.
    rewrite insert_app_r. simpl.
    replace (pre ++ Some (length H) :: replicate (length rest) None)
      with ((pre ++ [Some (length H)]) ++ replicate (length rest) None)
      by (by rewrite <- app_assoc).
    rewrite (IH (S (length pre + 0)) (H ++ [_]) (pre ++ [Some (length H)])).
    + rewrite <- !app_assoc. simpl. rewrite length_app. simpl.
      by rewrite Nat.add_1_r.
    + rewrite length_app. simpl. lia.
Qed.

(** ** One pairing step *)

Lemma merge_length H a b : length (merge hash H a b) = S (length H).
Proof.
  unfold merge. rewrite !length_alter, length_app. simpl. lia.
Qed.

Lemma pair_step_merge level H next n i a b :
  level !! (2 * i) = Some (Some a) ->
  level !! (2 * i + 1) = Some (Some b) ->
  a < length H -> b < length H ->
  pair_step hash level (H, next, n) i =
  Done (merge hash H a b, next ++ [Some (length H)], int_wrap (n + 1)).
Proof.
  intros Ha Hb Hla Hlb. unfold pair_step, index.
  rewrite Ha, Hb. simpl.
  destruct (lookup_lt_is_Some_2 H a Hla) as [na Hna].
  destruct (lookup_lt_is_Some_2 H b Hlb) as [nb Hnb].
  rewrite Hna, Hnb. simpl.
  rewrite (lookup_app_l_Some _ _ _ _ Hna). simpl.
  assert (Hb' : alter (with_parent (Some (length H))) a
                  (H ++ [mkNode (HashInternal hash (n_h na) (n_h nb))
                                (Some a) (Some b) None]) !! b
                = Some (if decide (a = b) then with_parent (Some (length H)) nb else nb)).
  { rewrite list_lookup_alter.
    destruct (decide (a = b)) as [->|Hne].
    - rewrite (lookup_app_l_Some _ _ _ _ Hnb). done.
    - by rewrite (lookup_app_l_Some _ _ _ _ Hnb). }
  rewrite Hb'. simpl.
  unfold merge, hash_at. by rewrite Hna, Hnb.
Qed.

(** ** The pairing loop *)

Lemma pair_ind {A : Type} (P : list A -> Prop) :
  P [] -> (forall a, P [a]) -> (forall a b l, P l -> P (a :: b :: l)) ->
  forall l, P l.
Proof.
  intros H0 H1 H2 l.
  assert (Hboth : P l /\ forall a, P (a :: l)).
  { induction l as [|b l [IH1 IH2]]; split; auto. }
  apply Hboth.
Qed.

Lemma half_SS n : S (S n) / 2 = S (n / 2).
Proof.
  replace (S (S n)) with (n + 1 * 2) by lia.
  rewrite Nat.div_add by lia. lia.
Qed.

Lemma mod2_SS n : S (S n) mod 2 = n mod 2.
Proof.
  replace (S (S n)) with (n + 1 * 2) by lia.
  by rewrite Nat.Div0.mod_add.
Qed.

Lemma bump_succ_r k n : bump k (int_wrap (n + 1)) = bump (S k) n.
Proof. unfold bump. by rewrite Nat.iter_succ_r. Qed.

Lemma iterate_pairs lvl : forall done k H next n,
  length done = 2 * k ->
  Forall (fun a => a < length H) lvl ->
  iterate (pair_step hash (Some <$> (done ++ lvl)))
          (seq k (length lvl / 2)) (H, next, n) =
  Done ((pair_up hash H lvl).1,
        next ++ (Some <$> (pair_up hash H lvl).2),
        bump (length lvl / 2) n).
Proof.
  induction lvl as [|a|a b lvl IH] using pair_ind;
    intros done k H next n Hk Hlt.
  - simpl. by rewrite app_nil_r.
  - simpl. by rewrite app_nil_r.
  - cbn [length]. rewrite half_SS. cbn [seq iterate].
    apply Forall_cons in Hlt as [Ha Hlt].
    apply Forall_cons in Hlt as [Hb Hlt].
    rewrite (pair_step_merge _ H next n k a b); try done.
    + cbn [mbind outcome_bind].
      replace (done ++ a :: b :: lvl) with ((done ++ [a; b]) ++ lvl)
        by (by rewrite <- app_assoc).
      rewrite (IH (done ++ [a; b]) (S k)).
      * cbn [pair_up]. destruct (pair_up hash (merge hash H a b) lvl) as [H' ps].
        cbn [fst snd]. rewrite <- app_assoc. cbn [fmap list_fmap app].
        by rewrite bump_succ_r.
      * rewrite length_app. simpl. lia.
      * rewrite merge_length. eapply Forall_impl; [exact Hlt|]. simpl. lia.
    + rewrite list_lookup_fmap.
      rewrite lookup_app_r by lia. by replace (2 * k - length done) with 0 by lia.
    + rewrite list_lookup_fmap.
      rewrite lookup_app_r by lia.
      by replace (2 * k + 1 - length done) with 1 by lia.
Qed.

Lemma promote_leftover lvl : forall (next : list ptr),
  (if decide (length (Some <$> lvl) mod 2 ≠ 0) then
     last ← index (Some <$> lvl) (length (Some <$> lvl) - 1);
     Done (next ++ [last])
   else Done next) =
  Done (next ++ (Some <$> leftover lvl)).
Proof.
  induction lvl as [|a|a b lvl IH] using pair_ind; intros next.
  - simpl. by rewrite app_nil_r.
  - done.
  - cbn [leftover]. rewrite <- (IH next). cbn [fmap list_fmap length].
    rewrite mod2_SS.
    destruct (decide (length (Some <$> lvl) mod 2 ≠ 0)) as [Hodd|]; [|done].
    destruct (length (Some <$> lvl)) as [|m] eqn:Hm; [done|].
    unfold index. by replace (S (S (S m)) - 1) with (S (S (S m - 1))) by lia.
Qed.

Lemma promote_leftover' lvl (next : list ptr) :
  (if decide (length lvl mod 2 ≠ 0) then
     last ← index (Some <$> lvl) (length lvl - 1);
     Done (next ++ [last])
   else Done next) =
  Done (next ++ (Some <$> leftover lvl)).
Proof. rewrite <- (promote_leftover lvl next). by rewrite length_fmap. Qed.

Lemma pair_up_length lvl : forall H,
  length (pair_up hash H lvl).2 = length lvl / 2.
Proof.
  induction lvl as [|a|a b lvl IH] using pair_ind; intros H; try done.
  cbn [pair_up length]. rewrite half_SS, <- (IH (merge hash H a b)).
  by destruct (pair_up hash (merge hash H a b) lvl).
Qed.

Lemma leftover_length lvl : length (leftover lvl) = length lvl mod 2.
Proof.
  induction lvl as [|a|a b lvl IH] using pair_ind; try done.
  cbn [leftover length]. by rewrite mod2_SS.
Qed.

(** A round leaves a shorter, non-empty level. *)
Lemma round_length lvl H :
  length ((pair_up hash H lvl).2 ++ leftover lvl) = (length lvl + 1) / 2.
Proof.
  rewrite length_app, pair_up_length, leftover_length.
  generalize (length lvl). intros m.
  rewrite (Nat.div_mod_eq m 2) at 3.
  assert (m mod 2 < 2) by (apply Nat.mod_upper_bound; lia).
  destruct (m mod 2) as [|[|?]] eqn:E; [| |lia].
  - replace (2 * (m / 2) + 0 + 1) with (1 + (m / 2) * 2) by lia.
    rewrite Nat.div_add by lia. simpl. lia.
  - replace (2 * (m / 2) + 1 + 1) with (0 + (m / 2 + 1) * 2) by lia.
    rewrite Nat.div_add by lia. simpl. lia.
Qed.

(** ** What a merge does to the store *)

Lemma merge_lookup_new H a b :
  a < length H -> b < length H ->
  merge hash H a b !! length H =
  Some (mkNode (HashInternal hash (hash_at H a) (hash_at H b))
               (Some a) (Some b) None).
Proof.
  intros Ha Hb. unfold merge.
  rewrite !list_lookup_alter_ne by lia.
  by apply list_lookup_middle.
Qed.

Lemma merge_lookup_other H a b x :
  x <> a -> x <> b -> x < length H ->
  merge hash H a b !! x = H !! x.
Proof.
  intros Hxa Hxb Hx. unfold merge.
  rewrite !list_lookup_alter_ne by done.
  by apply lookup_app_l.
Qed.

Lemma merge_lookup_left H a b na :
  a <> b -> H !! a = Some na ->
  merge hash H a b !! a = Some (with_parent (Some (length H)) na).
Proof.
  intros Hne Ha. unfold merge.
  rewrite list_lookup_alter_ne by done.
  rewrite list_lookup_alter_eq.
  by rewrite (lookup_app_l_Some _ _ _ _ Ha).
Qed.

Lemma merge_lookup_right H a b nb :
  a <> b -> H !! b = Some nb ->
  merge hash H a b !! b = Some (with_parent (Some (length H)) nb).
Proof.
  intros Hne Hb. unfold merge.
  rewrite list_lookup_alter_eq.
  rewrite list_lookup_alter_ne by done.
  by rewrite (lookup_app_l_Some _ _ _ _ Hb).
Qed.

Lemma merge_extends H a b na nb :
  a <> b ->
  H !! a = Some na -> n_parent na = None ->
  H !! b = Some nb -> n_parent nb = None ->
  extends H (merge hash H a b).
Proof.
  intros Hne Ha Hpa Hb Hpb x nd Hx.
  destruct (decide (x = a)) as [->|Hxa].
  { exists (with_parent (Some (length H)) na).
    rewrite (merge_lookup_left _ _ _ _ Hne Ha).
    assert (nd = na) as -> by congruence.
    repeat split; try done. }
  destruct (decide (x = b)) as [->|Hxb].
  { exists (with_parent (Some (length H)) nb).
    rewrite (merge_lookup_right _ _ _ _ Hne Hb).
    assert (nd = nb) as -> by congruence.
    repeat split; try done. }
  exists nd. rewrite merge_lookup_other; eauto using lookup_lt_Some.
Qed.
End Builder.

Lemma extends_refl H : extends H H.
Proof. intros a nd Ha. exists nd. eauto. Qed.

Lemma extends_trans H1 H2 H3 :
  extends H1 H2 -> extends H2 H3 -> extends H1 H3.
Proof.
  intros H12 H23 a nd Ha.
  destruct (H12 a nd Ha) as (nd2 & Ha2 & Eh & El & Er & Ep).
  destruct (H23 a nd2 Ha2) as (nd3 & Ha3 & Eh' & El' & Er' & Ep').
  exists nd3. repeat split; try congruence.
  intros Hp. specialize (Ep Hp). rewrite Ep' by congruence. done.
Qed.

Lemma extends_app H l : extends H (H ++ l).
Proof.
  intros a nd Ha. exists nd. split; [by apply lookup_app_l_Some|done].
Qed.

Lemma valid_extends hash H H' a :
  valid hash H a -> extends H H' -> valid hash H' a.
Proof.
  intros Hv Hext. induction Hv as
    [a nd Ha Hl Hr | a nd l r nl nr Ha Hl Hr Hnl Hnr Hh Hvl IHl Hvr IHr].
  - destruct (Hext a nd Ha) as (nd' & Ha' & _ & El & Er & _).
    apply (valid_leaf _ _ a nd' Ha'); congruence.
  - destruct (Hext a nd Ha) as (nd' & Ha' & Eh & El & Er & _).
    destruct (Hext l nl Hnl) as (nl' & Hnl' & Ehl & _).
    destruct (Hext r nr Hnr) as (nr' & Hnr' & Ehr & _).
    apply (valid_node _ _ a nd' l r nl' nr' Ha'); try congruence; auto.
Qed.

Lemma path_extends H H' p t sibs dirs :
  path H p t sibs dirs -> extends H H' -> path H' p t sibs dirs.
Proof.
  intros Hp Hext. induction Hp as
    [a
    | p q t nd pn r nr sibs dirs Hnd Hpar Hpn Hl Hr Hnr Hrest IH
    | p q t nd pn l nl sibs dirs Hnd Hpar Hpn Hnl Hl Hnl' Hrest IH].
  - constructor.
  - destruct (Hext p nd Hnd) as (nd' & Hnd' & _ & _ & _ & Ep).
    destruct (Hext q pn Hpn) as (pn' & Hpn' & _ & El & Er & _).
    destruct (Hext r nr Hnr) as (nr' & Hnr' & Eh & _).
    rewrite <- Eh.
    apply (path_from_left _ p q t nd' pn' r nr'); try congruence; auto.
    rewrite Ep; congruence.
  - destruct (Hext p nd Hnd) as (nd' & Hnd' & _ & _ & _ & Ep).
    destruct (Hext q pn Hpn) as (pn' & Hpn' & _ & El & Er & _).
    destruct (Hext l nl Hnl') as (nl' & Hnl'' & Eh & _).
    rewrite <- Eh.
    apply (path_from_right _ p q t nd' pn' l nl'); try congruence; auto.
    rewrite Ep; congruence.
Qed.

Lemma path_length H p t sibs dirs :
  path H p t sibs dirs -> length sibs = length dirs.
Proof. induction 1; simpl; congruence. Qed.

(** One more step at the top of a path. *)
Lemma path_snoc_left H p t sibs dirs q nt pn r nr :
  path H p t sibs dirs ->
  H !! t = Some nt -> n_parent nt = Some q -> H !! q = Some pn ->
  n_left pn = Some t -> n_right pn = Some r -> H !! r = Some nr ->
  path H p q (sibs ++ [n_h nr]) (dirs ++ [false]).
Proof.
  intros Hp Hnt Hpar Hpn Hl Hr Hnr.
  induction Hp; simpl.
  - eapply path_from_left; eauto. constructor.
  - eapply path_from_left; eauto.
  - eapply path_from_right; eauto.
Qed.

Lemma path_snoc_right H p t sibs dirs q nt pn l nl :
  path H p t sibs dirs ->
  H !! t = Some nt -> n_parent nt = Some q -> H !! q = Some pn ->
  n_left pn <> Some t -> n_left pn = Some l -> H !! l = Some nl ->
  path H p q (sibs ++ [n_h nl]) (dirs ++ [true]).
Proof.
  intros Hp Hnt Hpar Hpn Hl Hr Hnr.
  induction Hp; simpl.
  - eapply path_from_right; eauto. constructor.
  - eapply path_from_left; eauto.
  - eapply path_from_right; eauto.
Qed.

Lemma combine_snoc {A B : Type} (l : list A) : forall (k : list B) a b,
  length l = length k ->
  combine (l ++ [a]) (k ++ [b]) = combine l k ++ [(a, b)].
Proof.
  induction l as [|x l IH]; intros [|y k] a b Hlen; simpl in *; try done.
  rewrite IH by lia. done.
Qed.

Lemma recompute_snoc hash start sibs dirs s d :
  length sibs = length dirs ->
  recompute hash start (combine (sibs ++ [s]) (dirs ++ [d])) =
  if d then HashInternal hash s (recompute hash start (combine sibs dirs))
  else HashInternal hash (recompute hash start (combine sibs dirs)) s.
Proof.
  intros Hlen. unfold recompute.
  rewrite combine_snoc by done. by rewrite fold_left_app.
Qed.

(** ** The invariant of the pairing rounds *)

Section Rounds.
Context (hash : HashStrategy) (L : list addr).

Lemma inv_top_lt H T t : inv hash H L T -> t ∈ T -> t < length H.
Proof.
  intros HI Ht. destruct (inv_top _ _ _ _ HI t Ht) as (nd & Hnd & _).
  by eapply lookup_lt_Some.
Qed.

Lemma merge_inv H done a b rest :
  inv hash H L (done ++ a :: b :: rest) ->
  inv hash (merge hash H a b) L (done ++ length H :: rest).
Proof.
  intros HI.
  assert (Hlt : forall t, t ∈ done ++ a :: b :: rest -> t < length H)
    by (intros t; apply inv_top_lt; done).
  pose proof (inv_nodup _ _ _ _ HI) as Hnd.
  apply NoDup_app in Hnd as (Hnd1 & Hdisj & Hnd2).
  apply NoDup_cons in Hnd2 as (Hab & Hnd2).
  apply NoDup_cons in Hnd2 as (Hb & Hnd2).
  assert (Hne : a <> b) by set_solver.
  destruct (inv_top _ _ _ _ HI a) as (na & Hna & Hpa); [set_solver|].
  destruct (inv_top _ _ _ _ HI b) as (nb & Hnb & Hpb); [set_solver|].
  pose proof (merge_extends hash H a b na nb Hne Hna Hpa Hnb Hpb) as Hext.
  assert (Hla : a < length H) by (by eapply lookup_lt_Some).
  assert (Hlb : b < length H) by (by eapply lookup_lt_Some).
  pose proof (merge_lookup_new hash H a b Hla Hlb) as Hq.
  pose proof (merge_lookup_left hash H a b na Hne Hna) as Ha'.
  pose proof (merge_lookup_right hash H a b nb Hne Hnb) as Hb'.
  assert (Hold : forall t, t ∈ done ++ rest ->
            t <> a /\ t <> b /\ t < length H /\ t ∈ done ++ a :: b :: rest).
  { intros t Ht. apply elem_of_app in Ht as [Ht|Ht].
    - specialize (Hdisj t Ht). repeat split; [set_solver..| |set_solver].
      apply Hlt. set_solver.
    - repeat split; [set_solver..| |set_solver]. apply Hlt. set_solver. }
  assert (Hsplit : forall t, t ∈ done ++ length H :: rest ->
            t = length H \/ t ∈ done ++ rest) by set_solver.
  unfold hash_at in Hq. rewrite Hna, Hnb in Hq.
  split.
  - apply NoDup_app. repeat split; [done| |].
    + intros t Ht Ht'. apply elem_of_cons in Ht' as [->|Ht'].
      * assert (length H < length H); [|lia]. apply Hlt. set_solver.
      * apply (Hdisj t Ht). set_solver.
    + apply NoDup_cons. split; [|done].
      intros Hin. assert (length H < length H); [|lia]. apply Hlt. set_solver.
  - intros t Ht. apply Hsplit in Ht as [->|Ht].
    + eexists. split; [exact Hq|done].
    + destruct (Hold t Ht) as (Hta & Htb & Htl & Ht').
      rewrite merge_lookup_other by done.
      by apply (inv_top _ _ _ _ HI).
  - intros t Ht. apply Hsplit in Ht as [->|Ht].
    + eapply (valid_node _ _ _ _ a b); eauto.
      * apply valid_extends with H; [|done].
        apply (inv_valid _ _ _ _ HI). set_solver.
      * apply valid_extends with H; [|done].
        apply (inv_valid _ _ _ _ HI). set_solver.
    + destruct (Hold t Ht) as (_ & _ & _ & Ht').
      apply valid_extends with H; [|done].
      by apply (inv_valid _ _ _ _ HI).
  - intros l Hl.
    destruct (inv_path _ _ _ _ HI l Hl)
      as (t & sibs & dirs & nl & nt & Ht & Hp & Hnl & Hnt & Hrec).
    destruct (Hext l nl Hnl) as (nl' & Hnl' & Ehl & _).
    pose proof (path_extends _ _ _ _ _ _ Hp Hext) as Hp'.
    pose proof (path_length _ _ _ _ _ Hp) as Hlen.
    destruct (decide (t = a)) as [->|Hta]; [|destruct (decide (t = b)) as [->|Htb]].
    + assert (nt = na) as -> by congruence.
      exists (length H), (sibs ++ [n_h (with_parent (Some (length H)) nb)]),
        (dirs ++ [false]), nl'. eexists.
      split; [set_solver|]. split.
      { eapply path_snoc_left; eauto. }
      repeat split; [done|exact Hq|].
      rewrite recompute_snoc by done. simpl. by rewrite Ehl, Hrec.
    + assert (nt = nb) as -> by congruence.
      exists (length H), (sibs ++ [n_h (with_parent (Some (length H)) na)]),
        (dirs ++ [true]), nl'. eexists.
      split; [set_solver|]. split.
      { eapply path_snoc_right; eauto. simpl. congruence. }
      repeat split; [done|exact Hq|].
      rewrite recompute_snoc by done. simpl. by rewrite Ehl, Hrec.
    + destruct (Hext t nt Hnt) as (nt' & Hnt' & Eht & _).
      exists t, sibs, dirs, nl', nt'.
      split; [set_solver|]. repeat split; try done. congruence.
Qed.

Lemma merge_inv_extends H done a b rest :
  inv hash H L (done ++ a :: b :: rest) -> extends H (merge hash H a b).
Proof.
  intros HI.
  pose proof (inv_nodup _ _ _ _ HI) as Hnd.
  apply NoDup_app in Hnd as (_ & _ & Hnd2).
  apply NoDup_cons in Hnd2 as (Hab & _).
  destruct (inv_top _ _ _ _ HI a) as (na & Hna & Hpa); [set_solver|].
  destruct (inv_top _ _ _ _ HI b) as (nb & Hnb & Hpb); [set_solver|].
  eapply merge_extends; eauto. set_solver.
Qed.

Lemma pair_up_inv lvl : forall done H,
  inv hash H L (done ++ lvl) ->
  inv hash (pair_up hash H lvl).1 L
      (done ++ (pair_up hash H lvl).2 ++ leftover lvl) /\
  extends H (pair_up hash H lvl).1.
Proof.
  induction lvl as [|a|a b lvl IH] using pair_ind; intros done H HI.
  - split; [done|apply extends_refl].
  - split; [done|apply extends_refl].
  - pose proof (merge_inv _ _ _ _ _ HI) as HI'.
    pose proof (merge_inv_extends _ _ _ _ _ HI) as Hext.
    replace (done ++ length H :: lvl) with ((done ++ [length H]) ++ lvl) in HI'
      by (by rewrite <- app_assoc).
    destruct (IH _ _ HI') as [HI'' Hext'].
    cbn [pair_up leftover].
    destruct (pair_up hash (merge hash H a b) lvl) as [H' ps].
    cbn [fst snd] in *. split.
    + by rewrite <- app_assoc in HI''.
    + by eapply extends_trans.
Qed.

Lemma half_up m : (m + 1) / 2 + m / 2 = m.
Proof.
  pose proof (Nat.div_mod_eq m 2) as Hm.
  assert (Hlt : m mod 2 < 2) by (apply Nat.mod_upper_bound; lia).
  destruct (m mod 2) as [|[|?]] eqn:E; [| |lia].
  - replace (m + 1) with (1 + (m / 2) * 2) by lia.
    rewrite Nat.div_add by lia. change (1 / 2) with 0. lia.
  - replace (m + 1) with (0 + (m / 2 + 1) * 2) by lia.
    rewrite Nat.div_add by lia. change (0 / 2) with 0. lia.
Qed.

(** The level loop returns, with a single node left, whatever budget of
    at least [len(level)] iterations it is given. *)
Lemma level_loop_spec fuel : forall lvl H n,
  length lvl <= fuel -> lvl <> [] -> inv hash H L lvl ->
  exists r,
    (rounds fuel hash H lvl).2 = [r] /\
    level_loop fuel hash (H, Some <$> lvl, n) =
      Done ((rounds fuel hash H lvl).1, [Some r],
            bump (length lvl - 1) n) /\
    inv hash (rounds fuel hash H lvl).1 L [r] /\
    extends H (rounds fuel hash H lvl).1.
Proof.
  induction fuel as [|fuel IH]; intros lvl H n Hfuel Hne HI.
  { destruct lvl; [done|simpl in Hfuel; lia]. }
  cbn [level_loop rounds].
  rewrite length_fmap.
  destruct (decide (1 < length lvl)) as [Hlong|Hshort].
  - unfold for_range.
    pose proof (iterate_pairs hash lvl [] 0 H [] n) as Hit.
    cbn [app] in Hit. rewrite Hit; clear Hit; [|done|].
    2:{ apply Forall_forall. intros t Ht. eapply inv_top_lt; eauto. }
    cbn [mbind outcome_bind app].
    rewrite promote_leftover'. cbn [mbind outcome_bind].
    rewrite <- fmap_app.
    destruct (pair_up_inv lvl [] H HI) as [HI' Hext]. cbn [app] in HI'.
    pose proof (round_length hash lvl H) as Hlen.
    pose proof (half_up (length lvl)) as Hhalf.
    assert (Hpos : 1 <= (length lvl + 1) / 2).
    { replace (length lvl + 1) with ((length lvl - 1) + 1 * 2) by lia.
      rewrite Nat.div_add by lia. lia. }
    assert (Hpos' : 1 <= length lvl / 2).
    { replace (length lvl) with ((length lvl - 2) + 1 * 2) by lia.
      rewrite Nat.div_add by lia. lia. }
    destruct (pair_up hash H lvl) as [H1 ps] eqn:Hpu. cbn [fst snd] in *.
    destruct (IH (ps ++ leftover lvl) H1 (bump (length lvl / 2) n))
      as (r & Hr & Hrun & HIr & Hext'); [lia| |done|].
    { intros Heq. rewrite Heq in Hlen. cbn [length] in Hlen. lia. }
    exists r. rewrite Hrun, bump_add. split; [done|]. split; [|split; [done|]].
    + do 2 f_equal. f_equal. lia.
    + by eapply extends_trans.
  - destruct lvl as [|r [|? ?]]; [done| |simpl in Hshort; lia].
    exists r. split; [done|]. split; [done|]. split; [done|apply extends_refl].
Qed.
End Rounds.

(** ** The builder as a whole *)

Section Build.
Context (hash : HashStrategy).

Lemma leaves_lookup H data i x :
  data !! i = Some x ->
  (H ++ (leaf_node hash <$> data)) !! (length H + i) = Some (leaf_node hash x).
Proof.
  intros Hx. rewrite lookup_app_r by lia.
  replace (length H + i - length H) with i by lia.
  by rewrite list_lookup_fmap, Hx.
Qed.

Lemma initial_inv H data :
  inv hash (H ++ (leaf_node hash <$> data))
      (seq (length H) (length data)) (seq (length H) (length data)).
Proof.
  assert (Hleaf : forall t, t ∈ seq (length H) (length data) ->
            exists x, (H ++ (leaf_node hash <$> data)) !! t
                      = Some (leaf_node hash x)).
  { intros t Ht. apply elem_of_seq in Ht as [Hlo Hhi].
    destruct (lookup_lt_is_Some_2 data (t - length H)) as [x Hx]; [lia|].
    exists x. replace t with (length H + (t - length H)) by lia.
    by apply leaves_lookup. }
  split.
  - apply NoDup_seq.
  - intros t Ht. destruct (Hleaf t Ht) as [x Hx]. eauto.
  - intros t Ht. destruct (Hleaf t Ht) as [x Hx].
    by eapply valid_leaf.
  - intros l Hl. destruct (Hleaf l Hl) as [x Hx].
    exists l, [], [], (leaf_node hash x), (leaf_node hash x).
    repeat split; try done. constructor.
Qed.

(** [buildMerkleTree] returns for every non-empty input: it neither
    panics nor exhausts the budget of its level loop.  The tree it
    returns has a root, the leaves in input order at fresh consecutive
    addresses, and the invariant holds with the root as only top node. *)
Lemma buildMerkleTree_returns data H :
  data <> [] ->
  exists r,
    (built hash data H).2 = [r] /\
    buildMerkleTree data (Some hash) H =
      Done ((built hash data H).1,
            Some (mkTree (Some r)
                    (bump (length data - 1) (Z.of_nat (length data)))
                    (Some <$> seq (length H) (length data))
                    (Some hash))) /\
    inv hash (built hash data H).1 (seq (length H) (length data)) [r] /\
    extends (H ++ (leaf_node hash <$> data)) (built hash data H).1.
Proof.
  intros Hne. unfold buildMerkleTree, built.
  destruct (decide (length data = 0)) as [Hz|_].
  { destruct data; [done|simpl in Hz; lia]. }
  cbn [the_strategy mbind outcome_bind].
  pose proof (leaf_loop_spec hash data 0 H [] eq_refl) as Hleafs.
  cbn [app] in Hleafs. rewrite Hleafs. clear Hleafs.
  rewrite length_fmap, length_seq.
  destruct (level_loop_spec hash (seq (length H) (length data))
              (length data) (seq (length H) (length data))
              (H ++ (leaf_node hash <$> data)) (Z.of_nat (length data)))
    as (r & Hr & Hrun & HI & Hext).
  - by rewrite length_seq.
  - destruct data; [done|]. done.
  - apply initial_inv.
  - exists r. rewrite Hrun. cbn [mbind outcome_bind].
    rewrite length_seq. done.
Qed.
End Build.

(** ** Reading the tree *)

Lemma Node_verify_mono fuel : forall H hash p b fuel',
  Node_verify fuel H hash p = Done b -> fuel <= fuel' ->
  Node_verify fuel' H hash p = Done b.
Proof.
  induction fuel as [|fuel IH]; intros H hash p b fuel' Hrun Hle; [done|].
  destruct fuel' as [|fuel']; [lia|].
  cbn [Node_verify] in *.
  destruct (deref H p) as [nd| |]; [|done..].
  cbn [mbind outcome_bind] in *.
  destruct (n_left nd) as [lp|], (n_right nd) as [rp|]; try done.
  destruct (deref H (Some lp)) as [l| |]; [|done..].
  cbn [mbind outcome_bind] in *.
  destruct (deref H (Some rp)) as [r| |]; [|done..].
  cbn [mbind outcome_bind] in *.
  destruct (bytes_Equal _ _); [|done].
  destruct (Node_verify fuel H hash (Some lp)) as [ok| |] eqn:Hl;
    cbn [mbind outcome_bind] in Hrun; [|done..].
  rewrite (IH _ _ _ _ fuel' Hl) by lia.
  cbn [mbind outcome_bind].
  destruct ok; [|done]. apply (IH _ _ _ _ _ Hrun). lia.
Qed.

Lemma Node_verify_valid hash H a :
  valid hash H a ->
  exists k, forall fuel, k <= fuel ->
    Node_verify fuel H hash (Some a) = Done true.
Proof.
  induction 1 as
    [a nd Ha Hl Hr
    | a nd l r nl nr Ha Hl Hr Hnl Hnr Hh Hvl [kl IHl] Hvr [kr IHr]].
  - exists 1. intros [|fuel] Hf; [lia|].
    cbn [Node_verify deref]. rewrite Ha. cbn [mbind outcome_bind].
    by rewrite Hl, Hr.
  - exists (S (kl `max` kr)). intros [|fuel] Hf; [lia|].
    cbn [Node_verify deref]. rewrite Ha. cbn [mbind outcome_bind].
    rewrite Hl, Hr. cbn [deref]. rewrite Hnl, Hnr. cbn [mbind outcome_bind].
    unfold bytes_Equal. rewrite bool_decide_eq_true_2 by done.
    rewrite IHl by lia. cbn [mbind outcome_bind]. apply IHr. lia.
Qed.

Lemma climb_path H p t sibs dirs nt :
  path H p t sibs dirs ->
  H !! t = Some nt -> n_parent nt = None ->
  forall fuel s0 d0, length sibs < fuel ->
    climb fuel H (Some p) s0 d0 = Done (s0 ++ sibs, d0 ++ dirs).
Proof.
  intros Hp Hnt Hpar. induction Hp as
    [a
    | p q t nd pn r nr sibs dirs Hnd Hpq Hpn Hl Hr Hnr Hrest IH
    | p q t nd pn l nl sibs dirs Hnd Hpq Hpn Hnl Hl Hnl' Hrest IH];
    intros [|fuel] s0 d0 Hfuel; cbn [length] in Hfuel; try lia.
  - cbn [climb deref]. rewrite Hnt. cbn [mbind outcome_bind].
    rewrite Hpar. by rewrite !app_nil_r.
  - cbn [climb deref]. rewrite Hnd. cbn [mbind outcome_bind].
    rewrite Hpq. unfold Node_isLeft. cbn [deref]. rewrite Hnd.
    cbn [mbind outcome_bind]. rewrite Hpq. cbn [deref]. rewrite Hpn.
    cbn [mbind outcome_bind].
    rewrite bool_decide_eq_true_2 by done.
    rewrite Hr. cbn [deref]. rewrite Hnr. cbn [mbind outcome_bind].
    rewrite (IH Hnt) by lia. by rewrite <- !app_assoc.
  - cbn [climb deref]. rewrite Hnd. cbn [mbind outcome_bind].
    rewrite Hpq. unfold Node_isLeft. cbn [deref]. rewrite Hnd.
    cbn [mbind outcome_bind]. rewrite Hpq. cbn [deref]. rewrite Hpn.
    cbn [mbind outcome_bind].
    rewrite bool_decide_eq_false_2 by done.
    rewrite Hl. cbn [deref]. rewrite Hnl'. cbn [mbind outcome_bind].
    rewrite (IH Hnt) by lia. by rewrite <- !app_assoc.
Qed.

Lemma proof_loop_spec hash dirs : forall pre sibs acc,
  length sibs = length dirs ->
  proof_loop hash (pre ++ sibs) dirs (length pre) acc =
  Done (recompute hash acc (combine sibs dirs)).
Proof.
  induction dirs as [|d dirs IH]; intros pre [|s sibs] acc Hlen;
    simpl in Hlen; try done.
  cbn [proof_loop]. unfold index.
  rewrite list_lookup_middle by done. cbn [mbind outcome_bind].
  replace (pre ++ s :: sibs) with ((pre ++ [s]) ++ sibs)
    by (by rewrite <- app_assoc).
  replace (S (length pre)) with (length (pre ++ [s]))
    by (rewrite length_app; simpl; lia).
  rewrite IH by lia. done.
Qed.

Lemma scan_leaves_spec H hash ls : forall st,
  Forall (live H) ls ->
  scan_leaves H hash ls st =
  Done (match last (List.filter (matches H hash) ls) with
        | Some l => (true, l)
        | None => st
        end).
Proof.
  induction ls as [|l ls IH]; intros st Hlive; [done|].
  apply Forall_cons in Hlive as [(a & nd & -> & Hnd) Hlive].
  cbn [scan_leaves deref List.filter matches]. rewrite Hnd.
  cbn [mbind outcome_bind]. rewrite IH by done.
  destruct (bytes_Equal hash (n_h nd)); [|done].
  rewrite last_cons. by destruct (last _).
Qed.

Lemma last_filter_found {A : Type} (f : A -> bool) (ls : list A) y :
  y ∈ ls -> f y = true ->
  exists l, last (List.filter f ls) = Some l /\ l ∈ ls /\ f l = true.
Proof.
  intros Hy Hfy.
  destruct (last (List.filter f ls)) as [l|] eqn:Hlast.
  - exists l. split; [done|].
    apply last_Some_elem_of, list_elem_of_In, filter_In in Hlast.
    by rewrite list_elem_of_In.
  - apply last_None in Hlast.
    assert (Hin : In y (List.filter f ls))
      by (apply filter_In; by rewrite <- list_elem_of_In).
    rewrite Hlast in Hin. destruct Hin.
Qed.

Lemma last_filter_none {A : Type} (f : A -> bool) (ls : list A) :
  (forall y, y ∈ ls -> f y = false) -> last (List.filter f ls) = None.
Proof.
  intros Hnone. apply last_None.
  destruct (List.filter f ls) as [|l rest] eqn:Hf; [done|].
  assert (Hin : In l (List.filter f ls)) by (rewrite Hf; by left).
  apply filter_In in Hin as [Hin Hfl].
  rewrite Hnone in Hfl; [done|by apply list_elem_of_In].
Qed.

Lemma matches_inv H hash l :
  matches H hash l = true ->
  exists a nd, l = Some a /\ H !! a = Some nd /\ n_h nd = hash.
Proof.
  unfold matches, bytes_Equal. destruct l as [a|]; [|done].
  destruct (H !! a) as [nd|] eqn:Hnd; [|done].
  intros Heq%bool_decide_eq_true. by exists a, nd.
Qed.

(** ** Building, extracting a proof and verifying it *)

Lemma roundtrip_any_strategy hash data H x :
  x ∈ data ->
  exists H' m,
    buildMerkleTree data (Some hash) H = Done (H', Some m) /\
    exists k, forall fuel, k <= fuel ->
      exists p,
        MerkleTree_Proof fuel H' (Some m) x = Done (Some p, None) /\
        VerifyProof x (Some p) = Done None.
Proof.
  intros Hx.
  assert (Hne : data <> []) by (intros ->; by apply elem_of_nil in Hx).
  destruct (buildMerkleTree_returns hash data H Hne)
    as (r & _ & Hrun & HI & Hext).
  set (H' := (built hash data H).1) in *.
  eexists H', _. split; [exact Hrun|].
  set (L := seq (length H) (length data)) in *.
  (* every leaf pointer is a node that still stores its leaf hash *)
  assert (Hleaf : forall i y, data !! i = Some y ->
            exists nd, H' !! (length H + i) = Some nd /\
                       n_h nd = HashLeaf hash (Bytes y)).
  { intros i y Hy.
    destruct (Hext _ _ (leaves_lookup hash H data i y Hy))
      as (nd & Hnd & Eh & _).
    eauto. }
  assert (Hlive : Forall (live H') (Some <$> L)).
  { apply Forall_fmap, Forall_forall. intros t Ht.
    apply elem_of_seq in Ht as [Hlo Hhi].
    destruct (lookup_lt_is_Some_2 data (t - length H)) as [y Hy]; [lia|].
    destruct (Hleaf _ _ Hy) as (nd & Hnd & _).
    replace (length H + (t - length H)) with t in Hnd by lia.
    exists t, nd. done. }
  (* the scan finds a leaf with the hash of [x] *)
  apply list_elem_of_lookup in Hx as [i Hi].
  destruct (Hleaf _ _ Hi) as (ndx & Hndx & Ehx).
  assert (Hi' : i < length data) by (by eapply lookup_lt_Some).
  destruct (last_filter_found (matches H' (HashLeaf hash (Bytes x)))
              (Some <$> L) (Some (length H + i)))
    as (l & Hlast & Hl & Hm).
  { apply list_elem_of_fmap. exists (length H + i). split; [done|].
    apply elem_of_seq. lia. }
  { unfold matches, bytes_Equal. rewrite Hndx.
    by apply bool_decide_eq_true_2. }
  apply matches_inv in Hm as (a & nl & -> & Hnl & Ehl).
  apply list_elem_of_fmap in Hl as (a' & [= <-] & Ha).
  (* the tree verifies, and the leaf has a path to the root *)
  destruct (Node_verify_valid hash H' r) as [k1 Hver].
  { apply (inv_valid _ _ _ _ HI). set_solver. }
  destruct (inv_path _ _ _ _ HI a Ha)
    as (t & sibs & dirs & nl' & nt & Ht & Hp & Hnl' & Hnt & Hrec).
  apply list_elem_of_singleton in Ht as ->.
  assert (nl' = nl) as -> by congruence.
  destruct (inv_top _ _ _ _ HI r) as (nt' & Hnt' & Hpar); [set_solver|].
  assert (nt' = nt) as -> by congruence.
  pose proof (path_length _ _ _ _ _ Hp) as Hlen.
  exists (k1 `max` S (length sibs)). intros fuel Hfuel.
  exists (mkProof (n_h nt) sibs dirs (Some hash)). split.
  - unfold MerkleTree_Proof, MerkleTree_VerifyExists.
    cbn [m_hashStrategy m_leaves the_strategy mbind outcome_bind].
    rewrite scan_leaves_spec by done. rewrite Hlast.
    cbn [mbind outcome_bind negb].
    unfold MerkleTree_Verify. cbn [m_root m_hashStrategy].
    rewrite Hver by lia. cbn [mbind outcome_bind negb].
    rewrite (climb_path _ _ _ _ _ _ Hp Hnt Hpar) by lia.
    cbn [mbind outcome_bind app].
    unfold MerkleTree_Root. cbn [m_root deref]. rewrite Hnt. done.
  - unfold VerifyProof. cbn [p_hashStrategy p_siblings p_left p_root].
    destruct (decide (length sibs ≠ length dirs)) as [|_]; [done|].
    rewrite (proof_loop_spec hash dirs [] sibs) by done.
    cbn [mbind outcome_bind]. rewrite <- Ehl, Hrec.
    unfold bytes_Equal. by rewrite bool_decide_eq_true_2.
Qed.

(** ** Larger budgets do not change a result *)

Lemma climb_mono fuel : forall H p s d res fuel',
  climb fuel H p s d = Done res -> fuel <= fuel' ->
  climb fuel' H p s d = Done res.
Proof.
  induction fuel as [|fuel IH]; intros H p s d res fuel' Hrun Hle; [done|].
  destruct fuel' as [|fuel']; [lia|].
  cbn [climb] in *.
  destruct (deref H p) as [nd| |]; [|done..].
  cbn [mbind outcome_bind] in *.
  destruct (n_parent nd) as [q|]; [|done].
  destruct (Node_isLeft H p) as [isL| |]; [|done..].
  cbn [mbind outcome_bind] in *.
  destruct (deref H (Some q)) as [pn| |]; [|done..].
  cbn [mbind outcome_bind] in *.
  destruct isL.
  - destruct (deref H (n_right pn)) as [r| |]; [|done..].
    cbn [mbind outcome_bind] in *. apply (IH _ _ _ _ _ _ Hrun). lia.
  - destruct (deref H (n_left pn)) as [l| |]; [|done..].
    cbn [mbind outcome_bind] in *. apply (IH _ _ _ _ _ _ Hrun). lia.
Qed.

Lemma MerkleTree_Verify_mono fuel fuel' H m b :
  MerkleTree_Verify fuel H m = Done b -> fuel <= fuel' ->
  MerkleTree_Verify fuel' H m = Done b.
Proof.
  unfold MerkleTree_Verify. destruct m as [t|]; [|done].
  destruct (m_root t); [|done]. destruct (m_hashStrategy t); [|done].
  apply Node_verify_mono.
Qed.

Lemma MerkleTree_VerifyExists_mono fuel fuel' H m x res :
  MerkleTree_VerifyExists fuel H m x = Done res -> fuel <= fuel' ->
  MerkleTree_VerifyExists fuel' H m x = Done res.
Proof.
  unfold MerkleTree_VerifyExists. destruct m as [t|]; [|done].
  destruct (the_strategy (m_hashStrategy t)) as [hs| |]; [|done..].
  cbn [mbind outcome_bind].
  destruct (scan_leaves _ _ _ _) as [[inLeaves node]| |]; [|done..].
  cbn [mbind outcome_bind].
  destruct inLeaves; [|done]. cbn [negb].
  destruct (MerkleTree_Verify fuel H (Some t)) as [ok| |] eqn:Hv; [|done..].
  intros Hrun Hle. by rewrite (MerkleTree_Verify_mono _ _ _ _ _ Hv Hle).
Qed.

Lemma MerkleTree_Proof_mono fuel fuel' H m x res :
  MerkleTree_Proof fuel H m x = Done res -> fuel <= fuel' ->
  MerkleTree_Proof fuel' H m x = Done res.
Proof.
  unfold MerkleTree_Proof. destruct m as [t|]; [|done].
  destruct (MerkleTree_VerifyExists fuel H (Some t) x)
    as [[node err]| |] eqn:Hve; [|done..].
  intros Hrun Hle.
  rewrite (MerkleTree_VerifyExists_mono _ _ _ _ _ _ Hve Hle).
  cbn [mbind outcome_bind] in *.
  destruct err; [done|].
  destruct (climb fuel H node [] []) as [[s d]| |] eqn:Hc; [|done..].
  by rewrite (climb_mono _ _ _ _ _ _ _ Hc Hle).
Qed.

(** ** The rightmost match *)

Lemma last_filter_rightmost {A : Type} (f : A -> bool) (ls : list A) l :
  last (List.filter f ls) = Some l ->
  exists i, ls !! i = Some l /\ f l = true /\
    forall j y, i < j -> ls !! j = Some y -> f y = false.
Proof.
  induction ls as [|x ls IH]; [done|].
  cbn [List.filter]. destruct (f x) eqn:Hfx.
  - rewrite last_cons.
    destruct (last (List.filter f ls)) as [y|] eqn:Hlast.
    + intros [= ->]. destruct (IH eq_refl) as (i & Hi & Hfl & Hafter).
      exists (S i). split; [done|]. split; [done|].
      intros [|j] y Hj; [lia|]. cbn. apply Hafter. lia.
    + intros [= ->]. exists 0. split; [done|]. split; [done|].
      intros [|j] y Hj Hy; [lia|]. cbn in Hy.
      destruct (f y) eqn:Hfy; [|done].
      destruct (last_filter_found f ls y) as (z & Hz & _); [|done|congruence].
      by eapply list_elem_of_lookup_2.
  - intros Hlast. destruct (IH Hlast) as (i & Hi & Hfl & Hafter).
    exists (S i). split; [done|]. split; [done|].
    intros [|j] y Hj; [lia|]. cbn. apply Hafter. lia.
Qed.

(** ** Verification of a finite graph *)

Lemma groundedb_sound fuel : forall H a,
  groundedb fuel H a = true -> grounded H a.
Proof.
  induction fuel as [|fuel IH]; intros H a; [done|].
  cbn [groundedb]. destruct (H !! a) as [nd|] eqn:Hnd; [|done].
  intros [Hl Hr]%andb_true_iff.
  apply (grounded_node H a nd Hnd).
  - intros c Hc. rewrite Hc in Hl. by apply IH.
  - intros c Hc. rewrite Hc in Hr. by apply IH.
Qed.

Lemma valid_grounded hash H a : valid hash H a -> grounded H a.
Proof.
  induction 1 as
    [a nd Ha Hl Hr | a nd l r nl nr Ha Hl Hr Hnl Hnr Hh Hvl IHl Hvr IHr].
  - apply (grounded_node H a nd Ha); congruence.
  - apply (grounded_node H a nd Ha); congruence.
Qed.

Lemma Node_verify_grounded hash H a :
  grounded H a ->
  exists b k,
    (forall fuel, k <= fuel -> Node_verify fuel H hash (Some a) = Done b) /\
    (b = true <-> forall d, reach H a d -> node_ok hash H d).
Proof.
  induction 1 as [a nd Ha Hgl IHl Hgr IHr].
  destruct (n_left nd) as [l|] eqn:Hl, (n_right nd) as [r|] eqn:Hr.
  - destruct (IHl l eq_refl) as (bl & kl & Hrunl & Hiffl).
    destruct (IHr r eq_refl) as (br & kr & Hrunr & Hiffr).
    pose proof (Hgl l eq_refl) as Hgl'. pose proof (Hgr r eq_refl) as Hgr'.
    destruct Hgl' as [l nl Hnl _ _]. destruct Hgr' as [r nr Hnr _ _].
    destruct (decide (n_h nd = HashInternal hash (n_h nl) (n_h nr)))
      as [Heq|Hneq].
    + exists (bl && br), (S (kl `max` kr)). split.
      * intros [|fuel] Hf; [lia|].
        cbn [Node_verify deref]. rewrite Ha. cbn [mbind outcome_bind].
        rewrite Hl, Hr. cbn [deref]. rewrite Hnl, Hnr.
        cbn [mbind outcome_bind].
        unfold bytes_Equal. rewrite bool_decide_eq_true_2 by done.
        rewrite Hrunl by lia. cbn [mbind outcome_bind].
        destruct bl; [|done]. apply Hrunr. lia.
      * rewrite andb_true_iff, Hiffl, Hiffr. split.
        -- intros [Hokl Hokr] d Hd.
           inversion Hd as [| ? nd' c ? Hnd' Hc Hrest
                            | ? nd' c ? Hnd' Hc Hrest]; subst.
           ++ exists nd. split; [done|]. right. by exists l, r, nl, nr.
           ++ apply Hokl. congruence.
           ++ apply Hokr. congruence.
        -- intros Hok. split; intros d Hd; apply Hok.
           ++ by eapply reach_left.
           ++ by eapply reach_right.
    + exists false, 1. split.
      * intros [|fuel] Hf; [lia|].
        cbn [Node_verify deref]. rewrite Ha. cbn [mbind outcome_bind].
        rewrite Hl, Hr. cbn [deref]. rewrite Hnl, Hnr.
        cbn [mbind outcome_bind].
        unfold bytes_Equal. by rewrite bool_decide_eq_false_2.
      * split; [done|]. intros Hok.
        destruct (Hok a (reach_refl H a)) as (nd' & Hnd' & Hcase).
        assert (nd' = nd) as -> by congruence.
        destruct Hcase as [[? ?]|(l' & r' & nl' & nr' & ? & ? & ? & ? & ?)];
          [congruence|].
        assert (l' = l) as -> by congruence.
        assert (r' = r) as -> by congruence.
        congruence.
  - exists false, 1. split.
    + intros [|fuel] Hf; [lia|].
      cbn [Node_verify deref]. rewrite Ha. cbn [mbind outcome_bind].
      by rewrite Hl, Hr.
    + split; [done|]. intros Hok.
      destruct (Hok a (reach_refl H a)) as (nd' & Hnd' & Hcase).
      assert (nd' = nd) as -> by congruence.
      destruct Hcase as [[? ?]|(l' & r' & nl' & nr' & ? & ? & ? & ? & ?)];
        congruence.
  - exists false, 1. split.
    + intros [|fuel] Hf; [lia|].
      cbn [Node_verify deref]. rewrite Ha. cbn [mbind outcome_bind].
      by rewrite Hl, Hr.
    + split; [done|]. intros Hok.
      destruct (Hok a (reach_refl H a)) as (nd' & Hnd' & Hcase).
      assert (nd' = nd) as -> by congruence.
      destruct Hcase as [[? ?]|(l' & r' & nl' & nr' & ? & ? & ? & ? & ?)];
        congruence.
  - exists true, 1. split.
    + intros [|fuel] Hf; [lia|].
      cbn [Node_verify deref]. rewrite Ha. cbn [mbind outcome_bind].
      by rewrite Hl, Hr.
    + split; [|done]. intros _ d Hd.
      inversion Hd as [| ? nd' c ? Hnd' Hc Hrest
                       | ? nd' c ? Hnd' Hc Hrest]; subst; [|congruence..].
      exists nd. split; [done|]. by left.
Qed.

(** [Verify()] returns on a finite graph. *)
Lemma MerkleTree_Verify_returns H m :
  (forall t, m = Some t -> finite_tree H t) ->
  exists b k, forall fuel, k <= fuel -> MerkleTree_Verify fuel H m = Done b.
Proof.
  intros Hfin. unfold MerkleTree_Verify.
  destruct m as [t|]; [|by exists false, 0].
  destruct (m_root t) as [r|] eqn:Hr; [|by exists false, 0].
  destruct (m_hashStrategy t) as [hs|]; [|by exists false, 0].
  destruct (Node_verify_grounded hs H r) as (b & k & Hrun & _).
  { by apply (Hfin t). }
  by exists b, k.
Qed.

(** ** The test trees *)

Lemma built_test_tree data store :
  length data = 3 ->
  (built defaultHashStrategy data []).1 = store ->
  (built defaultHashStrategy data []).2 = [4] ->
  BuildMerkleTree data [] =
    Done (store, Some (mkTree (Some 4) 5 [Some 0; Some 1; Some 2]
                              (Some defaultHashStrategy))) /\
  inv defaultHashStrategy store [0; 1; 2] [4].
Proof.
  intros Hlen Hstore Htop.
  destruct (buildMerkleTree_returns defaultHashStrategy data [])
    as (r & Hr & Hrun & HI & _).
  { intros ->. done. }
  rewrite Htop in Hr. injection Hr as <-.
  rewrite Hstore, Hlen in *. split; [exact Hrun|exact HI].
Qed.

Lemma abc_live : Forall (live abc_store) (m_leaves abc_tree).
Proof.
  repeat (apply List.Forall_cons; [by eexists _, _|]). apply List.Forall_nil.
Qed.

Lemma aba_live : Forall (live aba_store) (m_leaves aba_tree).
Proof.
  repeat (apply List.Forall_cons; [by eexists _, _|]). apply List.Forall_nil.
Qed.

Lemma abc_finite : finite_tree abc_store abc_tree.
Proof. intros r [= <-]. apply (groundedb_sound 3). by vm_compute. Qed.

Lemma aba_finite : finite_tree aba_store aba_tree.
Proof. intros r [= <-]. apply (groundedb_sound 3). by vm_compute. Qed.

Lemma abc_built :
  BuildMerkleTree abc [] = Done (abc_store, Some abc_tree) /\
  inv defaultHashStrategy abc_store [0; 1; 2] [4].
Proof. apply built_test_tree; [done|by vm_compute..]. Qed.

Lemma aba_built :
  BuildMerkleTree aba [] = Done (aba_store, Some aba_tree) /\
  inv defaultHashStrategy aba_store [0; 1; 2] [4].
Proof. apply built_test_tree; [done|by vm_compute..]. Qed.

(** ** The proof of an item, from the path of its leaf *)

Lemma walk_sound fuel : forall H p t sibs dirs,
  walk fuel H p = Some (t, sibs, dirs) ->
  path H p t sibs dirs /\
  exists nt, H !! t = Some nt /\ n_parent nt = None.
Proof.
  induction fuel as [|fuel IH]; intros H p t sibs dirs; [done|].
  cbn [walk]. destruct (H !! p) as [nd|] eqn:Hnd; [|done].
  cbn [mbind option_bind].
  destruct (n_parent nd) as [q|] eqn:Hq.
  2:{ intros [= <- <- <-]. split; [constructor|eauto]. }
  destruct (H !! q) as [pn|] eqn:Hpn; [|done]. cbn [mbind option_bind].
  destruct (bool_decide (n_left pn = Some p)) eqn:Hdec.
  - apply bool_decide_eq_true in Hdec.
    destruct (n_right pn) as [r|] eqn:Hr; [|done]. cbn [mbind option_bind].
    destruct (H !! r) as [nr|] eqn:Hnr; [|done]. cbn [mbind option_bind].
    destruct (walk fuel H q) as [[[t' sibs'] dirs']|] eqn:Hw; [|done].
    cbn [mbind option_bind]. intros [= <- <- <-].
    destruct (IH _ _ _ _ _ Hw) as [Hp Htop]. split; [|done].
    by eapply path_from_left.
  - apply bool_decide_eq_false in Hdec.
    destruct (n_left pn) as [l|] eqn:Hl; [|done]. cbn [mbind option_bind].
    destruct (H !! l) as [nl|] eqn:Hnl; [|done]. cbn [mbind option_bind].
    destruct (walk fuel H q) as [[[t' sibs'] dirs']|] eqn:Hw; [|done].
    cbn [mbind option_bind]. intros [= <- <- <-].
    destruct (IH _ _ _ _ _ Hw) as [Hp Htop]. split; [|done].
    eapply path_from_right; eauto. by rewrite Hl.
Qed.

Lemma MerkleTree_Proof_of_path H t hs x node r sibs dirs nr root :
  m_hashStrategy t = Some hs ->
  Forall (live H) (m_leaves t) ->
  last (List.filter (matches H (HashLeaf hs (Bytes x))) (m_leaves t))
    = Some (Some node) ->
  m_root t = Some r -> valid hs H r ->
  path H node r sibs dirs ->
  H !! r = Some nr -> n_parent nr = None -> n_h nr = root ->
  exists k, forall fuel, k <= fuel ->
    MerkleTree_Proof fuel H (Some t) x =
      Done (Some (mkProof root sibs dirs (Some hs)), None).
Proof.
  intros Hhs Hlive Hlast Hr Hvalid Hp Hnr Hpar <-.
  destruct (Node_verify_valid hs H r Hvalid) as [k1 Hver].
  exists (k1 `max` S (length sibs)). intros fuel Hfuel.
  unfold MerkleTree_Proof, MerkleTree_VerifyExists. rewrite Hhs.
  cbn [the_strategy mbind outcome_bind].
  rewrite scan_leaves_spec by done. rewrite Hlast.
  cbn [mbind outcome_bind negb].
  unfold MerkleTree_Verify. rewrite Hr, Hhs.
  rewrite Hver by lia. cbn [mbind outcome_bind negb].
  rewrite (climb_path _ _ _ _ _ _ Hp Hnr Hpar) by lia.
  cbn [mbind outcome_bind app].
  unfold MerkleTree_Root. rewrite Hr. cbn [deref]. rewrite Hnr. done.
Qed.

Lemma MerkleTree_Proof_of_walk H t hs x node r sibs dirs root k0 :
  m_hashStrategy t = Some hs ->
  Forall (live H) (m_leaves t) ->
  last (List.filter (matches H (HashLeaf hs (Bytes x))) (m_leaves t))
    = Some (Some node) ->
  m_root t = Some r -> valid hs H r ->
  walk k0 H node = Some (r, sibs, dirs) ->
  n_h <$> H !! r = Some root ->
  exists k, forall fuel, k <= fuel ->
    MerkleTree_Proof fuel H (Some t) x =
      Done (Some (mkProof root sibs dirs (Some hs)), None).
Proof.
  intros Hhs Hlive Hlast Hr Hvalid Hwalk Hroot.
  destruct (walk_sound _ _ _ _ _ _ Hwalk) as (Hp & nr & Hnr & Hpar).
  rewrite Hnr in Hroot. injection Hroot as Hroot.
  by eapply MerkleTree_Proof_of_path.
Qed.

Lemma last_filter_snoc {A : Type} (f : A -> bool) (ls : list A) x :
  f x = true -> last (List.filter f (ls ++ [x])) = Some x.
Proof.
  intros Hfx. rewrite List.filter_app. cbn [List.filter]. rewrite Hfx.
  apply last_snoc.
Qed.

(** With the duplicate input ["a"; "b"; "a"], the proof of ["a"] is the
    one-step path of the third leaf; the path of the first leaf has two
    steps. *)
Example aba_proof_of_duplicate :
  walk 3 aba_store 0 =
    Some (4, [HashLeaf defaultHashStrategy (Bytes (TestLeaf "b"));
              HashLeaf defaultHashStrategy (Bytes (TestLeaf "a"))],
          [false; false]) /\
  exists k, forall fuel, k <= fuel ->
    MerkleTree_Proof fuel aba_store (Some aba_tree) (TestLeaf "a") =
      Done (Some (mkProof
                    (HashInternal defaultHashStrategy
                       (HashInternal defaultHashStrategy
                          (HashLeaf defaultHashStrategy (Bytes (TestLeaf "a")))
                          (HashLeaf defaultHashStrategy (Bytes (TestLeaf "b"))))
                       (HashLeaf defaultHashStrategy (Bytes (TestLeaf "a"))))
                    [HashInternal defaultHashStrategy
                       (HashLeaf defaultHashStrategy (Bytes (TestLeaf "a")))
                       (HashLeaf defaultHashStrategy (Bytes (TestLeaf "b")))]
                    [true]
                    (Some defaultHashStrategy)), None).
Proof.
  split; [by vm_compute|].
  destruct aba_built as [_ HI].
  pose proof aba_live as Hlive.
  assert (Hlast : last (List.filter
                          (matches aba_store
                             (HashLeaf defaultHashStrategy (Bytes (TestLeaf "a"))))
                          (m_leaves aba_tree)) = Some (Some 2))
    by (vm_compute; reflexivity).
  assert (Hvalid : valid defaultHashStrategy aba_store 4)
    by (apply (inv_valid _ _ _ _ HI); apply list_elem_of_here).
  assert (Hwalk : walk 2 aba_store 2 =
            Some (4,
                  [HashInternal defaultHashStrategy
                     (HashLeaf defaultHashStrategy (Bytes (TestLeaf "a")))
                     (HashLeaf defaultHashStrategy (Bytes (TestLeaf "b")))],
                  [true]))
    by (vm_compute; reflexivity).
  assert (Hroot : n_h <$> aba_store !! 4 =
            Some (HashInternal defaultHashStrategy
                    (HashInternal defaultHashStrategy
                       (HashLeaf defaultHashStrategy (Bytes (TestLeaf "a")))
                       (HashLeaf defaultHashStrategy (Bytes (TestLeaf "b"))))
                    (HashLeaf defaultHashStrategy (Bytes (TestLeaf "a")))))
    by (vm_compute; reflexivity).
  exact (MerkleTree_Proof_of_walk aba_store aba_tree defaultHashStrategy
           (TestLeaf "a") 2 4 _ _ _ 2 eq_refl Hlive Hlast eq_refl Hvalid
           Hwalk Hroot).
Qed.

(** ** Three leaves, in any store

    The store that [buildMerkleTree] makes of three items: the first
    two leaves under a node, that node and the third leaf under the
    root. *)

Section ThreeLeaves.
Context (hs : HashStrategy) (a b c : Leaf) (H : heap).

Lemma three_built :
  built hs [a; b; c] H =
  (merge hs (merge hs (H ++ (leaf_node hs <$> [a; b; c]))
                   (length H) (S (length H)))
         (length H + 3) (S (S (length H))),
   [length H + 4]).
Proof.
  unfold built. cbn [length seq rounds pair_up leftover app].
  destruct (decide (1 < 3)) as [_|?]; [|lia].
  cbn [length]. destruct (decide (1 < 2)) as [_|?]; [|lia].
  destruct (decide (1 < 1)) as [?|_]; [lia|].
  rewrite merge_length, !length_app. cbn [length fmap list_fmap].
  repeat f_equal; lia.
Qed.

Lemma three_nodes :
  let H3 := (built hs [a; b; c] H).1 in
  let ha := HashLeaf hs (Bytes a) in
  let hb := HashLeaf hs (Bytes b) in
  let hc := HashLeaf hs (Bytes c) in
  H3 !! length H = Some (mkNode ha None None (Some (length H + 3))) /\
  H3 !! S (length H) = Some (mkNode hb None None (Some (length H + 3))) /\
  H3 !! S (S (length H)) = Some (mkNode hc None None (Some (length H + 4))) /\
  H3 !! (length H + 3) =
    Some (mkNode (HashInternal hs ha hb) (Some (length H))
                 (Some (S (length H))) (Some (length H + 4))) /\
  H3 !! (length H + 4) =
    Some (mkNode (HashInternal hs (HashInternal hs ha hb) hc)
                 (Some (length H + 3)) (Some (S (S (length H)))) None).
Proof.
  intros H3 ha hb hc. subst H3. rewrite three_built. cbn [fst].
  set (H1 := H ++ (leaf_node hs <$> [a; b; c])).
  assert (Hlen1 : length H1 = length H + 3)
    by (unfold H1; rewrite length_app; done).
  assert (Ha : H1 !! length H = Some (leaf_node hs a)).
  { replace (length H) with (length H + 0) at 1 by lia.
    by apply leaves_lookup. }
  assert (Hb : H1 !! S (length H) = Some (leaf_node hs b)).
  { replace (S (length H)) with (length H + 1) by lia.
    by apply leaves_lookup. }
  assert (Hc : H1 !! S (S (length H)) = Some (leaf_node hs c)).
  { replace (S (S (length H))) with (length H + 2) by lia.
    by apply leaves_lookup. }
  set (H2 := merge hs H1 (length H) (S (length H))).
  assert (Hlen2 : length H2 = length H + 4)
    by (unfold H2; rewrite merge_length; lia).
  assert (Ha2 : H2 !! length H
                = Some (with_parent (Some (length H + 3)) (leaf_node hs a))).
  { unfold H2. rewrite (merge_lookup_left hs H1 (length H) (S (length H)) _ ltac:(lia) Ha).
    by rewrite Hlen1. }
  assert (Hb2 : H2 !! S (length H)
                = Some (with_parent (Some (length H + 3)) (leaf_node hs b))).
  { unfold H2. rewrite (merge_lookup_right hs H1 (length H) (S (length H)) _ ltac:(lia) Hb).
    by rewrite Hlen1. }
  assert (Hc2 : H2 !! S (S (length H)) = Some (leaf_node hs c)).
  { unfold H2. rewrite merge_lookup_other by lia. done. }
  assert (Hn2 : H2 !! (length H + 3)
                = Some (mkNode (HashInternal hs ha hb) (Some (length H))
                               (Some (S (length H))) None)).
  { unfold H2. rewrite <- Hlen1. rewrite merge_lookup_new by lia.
    unfold hash_at. by rewrite Ha, Hb. }
  split; [|split; [|split; [|split]]].
  - rewrite merge_lookup_other by lia. done.
  - rewrite merge_lookup_other by lia. done.
  - rewrite (merge_lookup_right hs H2 (length H + 3) (S (S (length H))) _ ltac:(lia) Hc2).
    by rewrite Hlen2.
  - rewrite (merge_lookup_left hs H2 (length H + 3) (S (S (length H))) _ ltac:(lia) Hn2).
    by rewrite Hlen2.
  - rewrite <- Hlen2. rewrite merge_lookup_new by lia.
    unfold hash_at. by rewrite Hn2, Hc2.
Qed.

(** The paths of the first and of the third leaf. *)
Lemma three_paths :
  let H3 := (built hs [a; b; c] H).1 in
  path H3 (length H) (length H + 4)
       [HashLeaf hs (Bytes b); HashLeaf hs (Bytes c)] [false; false] /\
  path H3 (S (S (length H))) (length H + 4)
       [HashInternal hs (HashLeaf hs (Bytes a)) (HashLeaf hs (Bytes b))]
       [true].
Proof.
  intros H3. destruct three_nodes as (Ha & Hb & Hc & Hn & Hr).
  fold H3 in Ha, Hb, Hc, Hn, Hr. split.
  - eapply (path_from_left H3 _ (length H + 3) _ _ _ (S (length H)) (mkNode _ _ _ _));
      [exact Ha|done|exact Hn|done|done|exact Hb|].
    eapply (path_from_left H3 _ (length H + 4) _ _ _ (S (S (length H))) (mkNode _ _ _ _));
      [exact Hn|done|exact Hr|done|done|exact Hc|].
    constructor.
  - eapply (path_from_right H3 _ (length H + 4) _ _ _ (length H + 3) (mkNode _ _ _ _));
      [exact Hc|done|exact Hr| |done|exact Hn|constructor].
    cbn. intros [=]. lia.
Qed.

(** The leaf pointers of the tree and what they store. *)
Lemma three_live :
  Forall (live (built hs [a; b; c] H).1) (Some <$> seq (length H) 3).
Proof.
  destruct three_nodes as (Ha & Hb & Hc & _).
  repeat (apply List.Forall_cons; [eexists _, _; split; [done|eassumption]|]).
  apply List.Forall_nil.
Qed.

Lemma three_matches hash :
  List.filter (matches (built hs [a; b; c] H).1 hash)
              (Some <$> seq (length H) 3) =
  (List.filter (fun l : ptr * bytes => bytes_Equal hash (l.2))
     [(Some (length H), HashLeaf hs (Bytes a));
      (Some (S (length H)), HashLeaf hs (Bytes b));
      (Some (S (S (length H))), HashLeaf hs (Bytes c))]).*1.
Proof.
  destruct three_nodes as (Ha & Hb & Hc & _).
  cbn [seq fmap list_fmap List.filter matches snd].
  rewrite Ha, Hb, Hc. cbn [n_h].
  by destruct (bytes_Equal hash (HashLeaf hs (Bytes a))),
              (bytes_Equal hash (HashLeaf hs (Bytes b))),
              (bytes_Equal hash (HashLeaf hs (Bytes c))).
Qed.
End ThreeLeaves.

(** ** Calls on a tree without strategy *)

(** [VerifyExists] has no guard of its own: on a nil tree and on the zero
    value of [MerkleTree] it dereferences nil.  [Proof] guards the nil
    tree, not the missing strategy. *)
Example VerifyExists_without_strategy (fuel : nat) (H : heap) (x : Leaf) :
  MerkleTree_VerifyExists fuel H None x = Panics /\
  MerkleTree_VerifyExists fuel H (Some (mkTree None 0 [] None)) x = Panics /\
  MerkleTree_Proof fuel H None x = Done (None, Some (errors_New "nil tree")) /\
  MerkleTree_Proof fuel H (Some (mkTree None 0 [] None)) x = Panics.
Proof. repeat split. Qed.

(** * The claims *)

(** ** C1: round trip *)

(** C1.  For every non-empty sequence of items and every item [x] of
    it: [BuildMerkleTree] (default strategy) returns a tree, [Proof(x)]
    on that tree returns a proof and no error, and [VerifyProof] of [x]
    and that proof returns nil.  The calls return for every iteration
    budget from some [k] on. *)
Theorem C1_roundtrip (data : list Leaf) (H : heap) (x : Leaf) :
  data <> [] -> x ∈ data ->
  exists H' m,
    BuildMerkleTree data H = Done (H', Some m) /\
    exists k, forall fuel, k <= fuel ->
      exists p,
        MerkleTree_Proof fuel H' (Some m) x = Done (Some p, None) /\
        VerifyProof x (Some p) = Done None.
Proof.
  intros _ Hx. unfold BuildMerkleTree.
  by apply roundtrip_any_strategy.
Qed.

Lemma C1_roundtrip_witness :
  abc <> [] /\ TestLeaf "b" ∈ abc /\
  exists H' m,
    BuildMerkleTree abc [] = Done (H', Some m) /\
    exists k, forall fuel, k <= fuel ->
      exists p,
        MerkleTree_Proof fuel H' (Some m) (TestLeaf "b") = Done (Some p, None) /\
        VerifyProof (TestLeaf "b") (Some p) = Done None.
Proof.
  assert (Hne : abc <> []) by (unfold abc; discriminate).
  assert (Hin : TestLeaf "b" ∈ abc)
    by (unfold abc; apply list_elem_of_further, list_elem_of_here).
  split; [exact Hne|]. split; [exact Hin|].
  exact (C1_roundtrip abc [] (TestLeaf "b") Hne Hin).
Defined.

(** ** C2: node count *)

(** C2, as stated, fails for three items: the first level has an odd
    number of nodes greater than one, so the third leaf is promoted, and
    three is not a power of two; yet [Len()] is [5 = 2 * 3 - 1], not
    less. *)
Lemma C2_counterexample :
  exists H' m,
    BuildMerkleTree abc [] = Done (H', Some m) /\
    MerkleTree_Len (Some m) = Done (2 * Z.of_nat (length abc) - 1)%Z /\
    (1 < length abc /\ length abc mod 2 <> 0) /\
    ~ (exists k, length abc = 2 ^ k).
Proof.
  destruct (buildMerkleTree_returns defaultHashStrategy abc [])
    as (r & _ & Hrun & _); [discriminate|].
  eexists _, _. split; [exact Hrun|].
  split; [reflexivity|]. split; [split; [simpl; lia|discriminate]|].
  intros [k Hk]. simpl in Hk.
  destruct k as [|[|k]]; simpl in Hk; lia.
Qed.

(** C2, amended.  For every non-empty sequence of [n] items, with
    [2n - 1] in the range of [int], [Len()] is [2n - 1], promotion or
    not; for three items it is [5]. *)
Theorem C2_node_count (hash : HashStrategy) (data : list Leaf) (H : heap) :
  data <> [] ->
  (2 * Z.of_nat (length data) - 1 <= int_max)%Z ->
  exists H' m,
    buildMerkleTree data (Some hash) H = Done (H', Some m) /\
    MerkleTree_Len (Some m) = Done (2 * Z.of_nat (length data) - 1)%Z /\
    (length data = 3 -> MerkleTree_Len (Some m) = Done 5%Z).
Proof.
  intros Hne Hmax.
  destruct (buildMerkleTree_returns hash data H Hne) as (r & _ & Hrun & _).
  eexists _, _. split; [exact Hrun|].
  assert (Hlen : 1 <= length data) by (destruct data; [done|simpl; lia]).
  assert (Hn : MerkleTree_Len
                 (Some (mkTree (Some r)
                          (bump (length data - 1) (Z.of_nat (length data)))
                          (Some <$> seq (length H) (length data))
                          (Some hash)))
               = Done (2 * Z.of_nat (length data) - 1)%Z).
  { cbn [MerkleTree_Len m_n]. rewrite bump_exact by lia. f_equal. lia. }
  split; [exact Hn|]. intros H3. rewrite Hn, H3. reflexivity.
Qed.

Lemma C2_node_count_witness :
  abc <> [] /\
  (2 * Z.of_nat (length abc) - 1 <= int_max)%Z /\
  exists H' m,
    buildMerkleTree abc (Some defaultHashStrategy) [] = Done (H', Some m) /\
    MerkleTree_Len (Some m) = Done (2 * Z.of_nat (length abc) - 1)%Z /\
    (length abc = 3 -> MerkleTree_Len (Some m) = Done 5%Z).
Proof.
  assert (Hne : abc <> []) by (unfold abc; discriminate).
  assert (Hmax : (2 * Z.of_nat (length abc) - 1 <= int_max)%Z)
    by (vm_compute; discriminate).
  split; [exact Hne|]. split; [exact Hmax|].
  exact (C2_node_count defaultHashStrategy abc [] Hne Hmax).
Defined.

(** ** C5: the default strategy *)

(** C5.  The default strategy hashes a leaf as SHA-256 of the byte
    [0x00] followed by the item bytes, and an internal node as SHA-256
    of the byte [0x01], the left hash, then the right hash; the two tag
    bytes differ.  The values for the leaf ["a"] and for the node over
    the leaves ["a"] and ["b"] are the published SHA-256 digests of those
    byte strings. *)
Theorem C5_default_strategy :
  (forall b, HashLeaf defaultHashStrategy b = HashSHA256 (x00 :: b)) /\
  (forall l r,
     HashInternal defaultHashStrategy l r = HashSHA256 (x01 :: l ++ r)) /\
  x00 <> x01 /\
  SHA256.hex (HashLeaf defaultHashStrategy (Bytes (TestLeaf "a"))) =
    "022a6979e6dab7aa5ae4c3e5e45f7e977112a7e63593820dbec1ec738a24f93c"%string /\
  SHA256.hex
    (HashInternal defaultHashStrategy
       (HashLeaf defaultHashStrategy (Bytes (TestLeaf "a")))
       (HashLeaf defaultHashStrategy (Bytes (TestLeaf "b")))) =
    "b137985ff484fb600db93107c77b0365c80d78f5b429ded0fd97361d077999eb"%string.
Proof.
  split; [reflexivity|]. split; [reflexivity|]. split; [discriminate|].
  split; vm_compute; reflexivity.
Qed.

(** ** C9: empty input *)

(** C9.  Building from no items returns the nil tree, whatever the
    strategy, and leaves the store alone; on the nil tree [Root()]
    returns the nil slice and [Len()] returns [-1], which is not [0];
    both calls return. *)
Theorem C9_empty_input (hash : option HashStrategy) (H : heap) :
  buildMerkleTree [] hash H = Done (H, None) /\
  BuildMerkleTree [] H = Done (H, None) /\
  MerkleTree_Root H None = Done [] /\
  MerkleTree_Len None = Done (-1)%Z /\
  (-1 <> 0)%Z.
Proof. repeat split; done. Qed.

(** ** C6: what [Verify()] decides *)

(** C6.  On a tree whose graph is finite, [Verify()] returns, and it
    returns true exactly when the tree is present (the tree value and
    its root node) with a strategy and every node of the graph under the
    root is a leaf or has two children and stores [HashInternal] of
    their hashes under that strategy.  A node of the graph with exactly
    one child makes it return false, and so do an absent tree and an
    absent strategy. *)
Theorem C6_Verify_semantics (H : heap) (m : option MerkleTree) :
  (forall t, m = Some t -> finite_tree H t) ->
  exists b k,
    (forall fuel, k <= fuel -> MerkleTree_Verify fuel H m = Done b) /\
    (b = true <->
       exists t r hs,
         m = Some t /\ m_root t = Some r /\ m_hashStrategy t = Some hs /\
         forall a, reach H r a -> node_ok hs H a) /\
    ((exists t r a nd,
        m = Some t /\ m_root t = Some r /\ reach H r a /\
        H !! a = Some nd /\ one_child nd) -> b = false) /\
    (m = None -> b = false) /\
    (forall t, m = Some t -> m_hashStrategy t = None -> b = false).
Proof.
  intros Hfin.
  assert (Hcore : exists b k,
    (forall fuel, k <= fuel -> MerkleTree_Verify fuel H m = Done b) /\
    (b = true <->
       exists t r hs,
         m = Some t /\ m_root t = Some r /\ m_hashStrategy t = Some hs /\
         forall a, reach H r a -> node_ok hs H a)).
  { unfold MerkleTree_Verify. destruct m as [t|].
    2:{ exists false, 0. split; [done|]. split; [done|].
        intros (t & r & hs & ? & _). done. }
    destruct (m_root t) as [r|] eqn:Hr.
    2:{ exists false, 0. split; [done|]. split; [done|].
        intros (t' & r & hs & [= <-] & ? & _). congruence. }
    destruct (m_hashStrategy t) as [hs|] eqn:Hhs.
    2:{ exists false, 0. split; [done|]. split; [done|].
        intros (t' & r' & hs & [= <-] & _ & ? & _). congruence. }
    destruct (Node_verify_grounded hs H r) as (b & k & Hrun & Hiff).
    { by apply (Hfin t). }
    exists b, k. split; [done|]. rewrite Hiff. split.
    - intros Hok. by exists t, r, hs.
    - intros (t' & r' & hs' & [= <-] & Hr' & Hhs' & Hok).
      assert (r' = r) as -> by congruence.
      assert (hs' = hs) as -> by congruence. done. }
  destruct Hcore as (b & k & Hrun & Hiff).
  exists b, k. split; [done|]. split; [done|].
  split; [|split].
  - intros (t & r & a & nd & -> & Hr & Hreach & Hnd & Hone).
    destruct b; [|done]. exfalso.
    destruct (proj1 Hiff eq_refl) as (t' & r' & hs & [= <-] & Hr' & _ & Hok).
    assert (r' = r) as -> by congruence.
    destruct (Hok a Hreach) as (nd' & Hnd' & Hcase).
    assert (nd' = nd) as -> by congruence.
    destruct Hone as [[? ?]|[? ?]];
      destruct Hcase as [[? ?]|(l & r' & nl & nr & ? & ? & _)]; congruence.
  - intros ->. destruct b; [|done].
    destruct (proj1 Hiff eq_refl) as (t & _ & _ & ? & _). done.
  - intros t -> Hnone. destruct b; [|done].
    destruct (proj1 Hiff eq_refl) as (t' & _ & hs & [= <-] & _ & ? & _).
    congruence.
Qed.

Lemma C6_Verify_semantics_witness :
  (forall t, Some abc_tree = Some t -> finite_tree abc_store t) /\
  exists b k,
    (forall fuel, k <= fuel ->
       MerkleTree_Verify fuel abc_store (Some abc_tree) = Done b) /\
    (b = true <->
       exists t r hs,
         Some abc_tree = Some t /\ m_root t = Some r /\
         m_hashStrategy t = Some hs /\
         forall a, reach abc_store r a -> node_ok hs abc_store a) /\
    ((exists t r a nd,
        Some abc_tree = Some t /\ m_root t = Some r /\
        reach abc_store r a /\
        abc_store !! a = Some nd /\ one_child nd) -> b = false) /\
    (Some abc_tree = None -> b = false) /\
    (forall t, Some abc_tree = Some t -> m_hashStrategy t = None -> b = false).
Proof.
  assert (Hfin : forall t, Some abc_tree = Some t -> finite_tree abc_store t).
  { intros t [= <-]. exact abc_finite. }
  split; [exact Hfin|].
  exact (C6_Verify_semantics abc_store (Some abc_tree) Hfin).
Defined.

(** ** C7: the errors of [VerifyExists] *)

(** C7.  On a tree with a strategy, leaf pointers that are nodes and a
    finite graph, [VerifyExists(x)] returns; its error is "not in tree"
    exactly when no retained leaf stores [HashLeaf(x)]; when some leaf
    does, it returns a leaf that does, with the error "unable to verify
    tree" if [Verify()] is false and with no error if it is true. *)
Theorem C7_VerifyExists_errors (H : heap) (t : MerkleTree)
    (hs : HashStrategy) (x : Leaf) :
  m_hashStrategy t = Some hs ->
  Forall (live H) (m_leaves t) ->
  finite_tree H t ->
  exists b k, forall fuel, k <= fuel ->
    MerkleTree_Verify fuel H (Some t) = Done b /\
    exists node err,
      MerkleTree_VerifyExists fuel H (Some t) x = Done (node, err) /\
      (err = Some (errors_New "not in tree") <->
         forall l, l ∈ m_leaves t ->
           matches H (HashLeaf hs (Bytes x)) l = false) /\
      ((exists l, l ∈ m_leaves t /\
                  matches H (HashLeaf hs (Bytes x)) l = true) ->
         node ∈ m_leaves t /\
         matches H (HashLeaf hs (Bytes x)) node = true /\
         (b = false -> err = Some (errors_New "unable to verify tree")) /\
         (b = true -> err = None)).
Proof.
  intros Hhs Hlive Hfin.
  destruct (MerkleTree_Verify_returns H (Some t)) as (b & k & Hrun).
  { by intros t' [= <-]. }
  exists b, k. intros fuel Hfuel. split; [by apply Hrun|].
  unfold MerkleTree_VerifyExists. rewrite Hhs.
  cbn [the_strategy mbind outcome_bind].
  rewrite scan_leaves_spec by done.
  destruct (last (List.filter (matches H (HashLeaf hs (Bytes x))) (m_leaves t)))
    as [node|] eqn:Hlast; cbn [mbind outcome_bind negb].
  - destruct (last_filter_rightmost _ _ _ Hlast) as (i & Hi & Hm & _).
    assert (Hin : node ∈ m_leaves t) by (by eapply list_elem_of_lookup_2).
    rewrite Hrun by done. cbn [mbind outcome_bind].
    exists node, (if b then None else Some (errors_New "unable to verify tree")).
    split; [by destruct b|]. split.
    + split.
      * by destruct b.
      * intros Hnone. rewrite (Hnone node Hin) in Hm. done.
    + intros _. split; [done|]. split; [done|]. by split; intros ->.
  - exists None, (Some (errors_New "not in tree")).
    split; [done|]. split.
    + split; [|done]. intros _ l Hl.
      destruct (matches H (HashLeaf hs (Bytes x)) l) eqn:Hm; [|done].
      destruct (last_filter_found _ _ _ Hl Hm) as (z & Hz & _). congruence.
    + intros (l & Hl & Hm).
      destruct (last_filter_found _ _ _ Hl Hm) as (z & Hz & _). congruence.
Qed.

Lemma C7_VerifyExists_errors_witness :
  m_hashStrategy abc_tree = Some defaultHashStrategy /\
  Forall (live abc_store) (m_leaves abc_tree) /\
  finite_tree abc_store abc_tree /\
  exists b k, forall fuel, k <= fuel ->
    MerkleTree_Verify fuel abc_store (Some abc_tree) = Done b /\
    exists node err,
      MerkleTree_VerifyExists fuel abc_store (Some abc_tree) (TestLeaf "d")
        = Done (node, err) /\
      (err = Some (errors_New "not in tree") <->
         forall l, l ∈ m_leaves abc_tree ->
           matches abc_store
             (HashLeaf defaultHashStrategy (Bytes (TestLeaf "d"))) l = false) /\
      ((exists l, l ∈ m_leaves abc_tree /\
                  matches abc_store
                    (HashLeaf defaultHashStrategy (Bytes (TestLeaf "d"))) l
                  = true) ->
         node ∈ m_leaves abc_tree /\
         matches abc_store
           (HashLeaf defaultHashStrategy (Bytes (TestLeaf "d"))) node = true /\
         (b = false -> err = Some (errors_New "unable to verify tree")) /\
         (b = true -> err = None)).
Proof.
  assert (Hhs : m_hashStrategy abc_tree = Some defaultHashStrategy)
    by reflexivity.
  pose proof abc_live as Hlive.
  pose proof abc_finite as Hfin.
  split; [exact Hhs|]. split; [exact Hlive|]. split; [exact Hfin|].
  exact (C7_VerifyExists_errors abc_store abc_tree defaultHashStrategy
           (TestLeaf "d") Hhs Hlive Hfin).
Defined.

(** ** C8: the errors of [VerifyProof] *)

(** C8, as stated, fails on a proof without hash strategy: whether its
    two sequences differ in length ([lopsided_proof]) or not
    ([zero_proof], the zero value of [Proof]), [VerifyProof] returns the
    error "no proof/hash strategy", which is neither the length-mismatch
    error nor "root does not match" nor success. *)
Lemma C8_counterexample :
  length (p_siblings lopsided_proof) <> length (p_left lopsided_proof) /\
  VerifyProof (TestLeaf "a") (Some lopsided_proof) =
    Done (Some (errors_New "no proof/hash strategy")) /\
  length (p_siblings zero_proof) = length (p_left zero_proof) /\
  VerifyProof (TestLeaf "a") (Some zero_proof) =
    Done (Some (errors_New "no proof/hash strategy")) /\
  errors_New "no proof/hash strategy" <> errors_New "proof lengths mismatch" /\
  errors_New "no proof/hash strategy" <> errors_New "root does not match".
Proof. repeat split; done. Qed.

(** C8, amended.  A nil proof and a proof without hash strategy are
    rejected first, with the error "no proof/hash strategy".  For a
    proof that carries a strategy: if the sibling and direction
    sequences differ in length, [VerifyProof] returns the error "proof
    lengths mismatch", whatever the strategy computes; otherwise it
    folds [HashLeaf(x)] through the pairs in leaf-to-root order and
    returns "root does not match" exactly when the result differs from
    the recorded root, and nil otherwise. *)
Theorem C8_VerifyProof_errors (x : Leaf) (pr : MerkleProof)
    (hs : HashStrategy) :
  p_hashStrategy pr = Some hs ->
  (length (p_siblings pr) <> length (p_left pr) ->
     VerifyProof x (Some pr) =
       Done (Some (errors_New "proof lengths mismatch"))) /\
  (length (p_siblings pr) = length (p_left pr) ->
     exists err,
       VerifyProof x (Some pr) = Done err /\
       (err = Some (errors_New "root does not match") <->
          recompute hs (HashLeaf hs (Bytes x))
                    (combine (p_siblings pr) (p_left pr)) <> p_root pr) /\
       (err = None <->
          recompute hs (HashLeaf hs (Bytes x))
                    (combine (p_siblings pr) (p_left pr)) = p_root pr)) /\
  VerifyProof x None = Done (Some (errors_New "no proof/hash strategy")) /\
  (forall pr', p_hashStrategy pr' = None ->
     VerifyProof x (Some pr') =
       Done (Some (errors_New "no proof/hash strategy"))).
Proof.
  intros Hhs. unfold VerifyProof. rewrite Hhs.
  split; [|split; [|split]].
  - intros Hne. by destruct (decide _).
  - intros Heq. destruct (decide _) as [|_]; [done|].
    rewrite (proof_loop_spec hs (p_left pr) [] (p_siblings pr)) by done.
    cbn [mbind outcome_bind]. unfold bytes_Equal.
    destruct (decide (recompute hs (HashLeaf hs (Bytes x))
                        (combine (p_siblings pr) (p_left pr)) = p_root pr))
      as [Hroot|Hroot].
    + rewrite bool_decide_eq_true_2 by done. exists None.
      cbn [negb]. split; [done|]. split; split; done.
    + rewrite bool_decide_eq_false_2 by done.
      exists (Some (errors_New "root does not match")).
      cbn [negb]. split; [done|]. split; split; done.
  - done.
  - intros pr' ->. done.
Qed.

Lemma C8_VerifyProof_errors_witness :
  p_hashStrategy (mkProof [] [[]] [] (Some defaultHashStrategy))
    = Some defaultHashStrategy /\
  VerifyProof (TestLeaf "a") (Some (mkProof [] [[]] [] (Some defaultHashStrategy)))
    = Done (Some (errors_New "proof lengths mismatch")).
Proof.
  split; [reflexivity|].
  apply (C8_VerifyProof_errors (TestLeaf "a")
           (mkProof [] [[]] [] (Some defaultHashStrategy))
           defaultHashStrategy eq_refl).
  cbn. discriminate.
Defined.

(** ** C10: duplicate items *)

(** C10.  On a tree with a strategy, leaf pointers that are nodes and a
    finite graph, when some retained leaf stores [HashLeaf(x)]:
    [VerifyExists(x)] returns the leaf of highest index in the leaf list
    that does (the scan does not stop at the first hit), and when the
    tree verifies, [Proof(x)] is the walk up the parent pointers that
    starts at that leaf. *)
Theorem C10_rightmost_duplicate (H : heap) (t : MerkleTree)
    (hs : HashStrategy) (x : Leaf) :
  m_hashStrategy t = Some hs ->
  Forall (live H) (m_leaves t) ->
  finite_tree H t ->
  (exists l, l ∈ m_leaves t /\
             matches H (HashLeaf hs (Bytes x)) l = true) ->
  exists i node,
    m_leaves t !! i = Some node /\
    matches H (HashLeaf hs (Bytes x)) node = true /\
    (forall j l, i < j -> m_leaves t !! j = Some l ->
       matches H (HashLeaf hs (Bytes x)) l = false) /\
    exists b k, forall fuel, k <= fuel ->
      MerkleTree_Verify fuel H (Some t) = Done b /\
      (exists err,
         MerkleTree_VerifyExists fuel H (Some t) x = Done (node, err)) /\
      (b = true ->
         MerkleTree_Proof fuel H (Some t) x =
           ('(siblings, left_) ← climb fuel H node [] [];
            root ← MerkleTree_Root H (Some t);
            Done (Some (mkProof root siblings left_ (Some hs)), None))).
Proof.
  intros Hhs Hlive Hfin (l & Hl & Hm).
  destruct (last_filter_found _ _ _ Hl Hm) as (node & Hlast & _ & _).
  destruct (last_filter_rightmost _ _ _ Hlast) as (i & Hi & Hmn & Hafter).
  exists i, node. split; [done|]. split; [done|]. split; [done|].
  destruct (MerkleTree_Verify_returns H (Some t)) as (b & k & Hrun).
  { by intros t' [= <-]. }
  exists b, k. intros fuel Hfuel. split; [by apply Hrun|].
  assert (Hve : MerkleTree_VerifyExists fuel H (Some t) x =
                Done (node, if b then None
                            else Some (errors_New "unable to verify tree"))).
  { unfold MerkleTree_VerifyExists. rewrite Hhs.
    cbn [the_strategy mbind outcome_bind].
    rewrite scan_leaves_spec by done. rewrite Hlast.
    cbn [mbind outcome_bind negb]. rewrite Hrun by done.
    cbn [mbind outcome_bind]. by destruct b. }
  split; [eauto|].
  intros ->. unfold MerkleTree_Proof. rewrite Hve.
  cbn [mbind outcome_bind]. by rewrite Hhs.
Qed.

Lemma C10_rightmost_duplicate_witness :
  m_hashStrategy aba_tree = Some defaultHashStrategy /\
  Forall (live aba_store) (m_leaves aba_tree) /\
  finite_tree aba_store aba_tree /\
  (exists l, l ∈ m_leaves aba_tree /\
             matches aba_store
               (HashLeaf defaultHashStrategy (Bytes (TestLeaf "a"))) l = true) /\
  exists i node,
    m_leaves aba_tree !! i = Some node /\
    matches aba_store
      (HashLeaf defaultHashStrategy (Bytes (TestLeaf "a"))) node = true /\
    (forall j l, i < j -> m_leaves aba_tree !! j = Some l ->
       matches aba_store
         (HashLeaf defaultHashStrategy (Bytes (TestLeaf "a"))) l = false) /\
    exists b k, forall fuel, k <= fuel ->
      MerkleTree_Verify fuel aba_store (Some aba_tree) = Done b /\
      (exists err,
         MerkleTree_VerifyExists fuel aba_store (Some aba_tree) (TestLeaf "a")
           = Done (node, err)) /\
      (b = true ->
         MerkleTree_Proof fuel aba_store (Some aba_tree) (TestLeaf "a") =
           ('(siblings, left_) ← climb fuel aba_store node [] [];
            root ← MerkleTree_Root aba_store (Some aba_tree);
            Done (Some (mkProof root siblings left_
                          (Some defaultHashStrategy)), None))).
Proof.
  assert (Hhs : m_hashStrategy aba_tree = Some defaultHashStrategy)
    by reflexivity.
  pose proof aba_live as Hlive.
  pose proof aba_finite as Hfin.
  assert (Hdup : exists l, l ∈ m_leaves aba_tree /\
             matches aba_store
               (HashLeaf defaultHashStrategy (Bytes (TestLeaf "a"))) l = true).
  { exists (Some 0). split; [apply list_elem_of_here|].
    vm_compute. reflexivity. }
  split; [exact Hhs|]. split; [exact Hlive|]. split; [exact Hfin|].
  split; [exact Hdup|].
  exact (C10_rightmost_duplicate aba_store aba_tree defaultHashStrategy
           (TestLeaf "a") Hhs Hlive Hfin Hdup).
Defined.

(** ** C3: the three-leaf scenario *)

(** C3.  For the items ["a"], ["b"], ["c"] under the default strategy:
    [Root()] is
    [HashInternal(HashInternal(HashLeaf("a"), HashLeaf("b")), HashLeaf("c"))],
    and [Proof] of ["a"] returns that root, the siblings
    [HashLeaf("b")], [HashLeaf("c")] in leaf-to-root order and the flags
    [false], [false]. *)
Theorem C3_three_leaf_scenario (H : heap) :
  exists H' m,
    BuildMerkleTree abc H = Done (H', Some m) /\
    MerkleTree_Root H' (Some m) =
      Done (HashInternal defaultHashStrategy
              (HashInternal defaultHashStrategy
                 (HashLeaf defaultHashStrategy (Bytes (TestLeaf "a")))
                 (HashLeaf defaultHashStrategy (Bytes (TestLeaf "b"))))
              (HashLeaf defaultHashStrategy (Bytes (TestLeaf "c")))) /\
    exists k, forall fuel, k <= fuel ->
      MerkleTree_Proof fuel H' (Some m) (TestLeaf "a") =
        Done (Some (mkProof
                      (HashInternal defaultHashStrategy
                         (HashInternal defaultHashStrategy
                            (HashLeaf defaultHashStrategy (Bytes (TestLeaf "a")))
                            (HashLeaf defaultHashStrategy (Bytes (TestLeaf "b"))))
                         (HashLeaf defaultHashStrategy (Bytes (TestLeaf "c"))))
                      [HashLeaf defaultHashStrategy (Bytes (TestLeaf "b"));
                       HashLeaf defaultHashStrategy (Bytes (TestLeaf "c"))]
                      [false; false]
                      (Some defaultHashStrategy)), None).
Proof.
  unfold BuildMerkleTree, abc.
  pose proof (three_nodes defaultHashStrategy (TestLeaf "a") (TestLeaf "b")
                (TestLeaf "c") H) as (_ & _ & _ & _ & Hroot).
  pose proof (three_paths defaultHashStrategy (TestLeaf "a") (TestLeaf "b")
                (TestLeaf "c") H) as [Hpath _].
  pose proof (three_live defaultHashStrategy (TestLeaf "a") (TestLeaf "b")
                (TestLeaf "c") H) as Hlive.
  assert (Hlast :
    last (List.filter
            (matches (built defaultHashStrategy
                        [TestLeaf "a"; TestLeaf "b"; TestLeaf "c"] H).1
               (HashLeaf defaultHashStrategy (Bytes (TestLeaf "a"))))
            (Some <$> seq (length H) 3)) = Some (Some (length H))).
  { rewrite three_matches. vm_compute. reflexivity. }
  destruct (buildMerkleTree_returns defaultHashStrategy
              [TestLeaf "a"; TestLeaf "b"; TestLeaf "c"] H)
    as (r & Hr & Hrun & HI & _); [discriminate|].
  rewrite three_built in Hr. injection Hr as <-.
  eexists _, _. split; [exact Hrun|]. split.
  - unfold MerkleTree_Root. cbn [m_root deref]. by rewrite Hroot.
  - eapply (MerkleTree_Proof_of_path _ _ defaultHashStrategy _
              (length H) (length H + 4));
      [reflexivity|exact Hlive|exact Hlast|reflexivity|
       |exact Hpath|exact Hroot|reflexivity|reflexivity].
    apply (inv_valid _ _ _ _ HI). apply list_elem_of_here.
Qed.

(** ** C4: promotion, not duplication *)

(** C4.  For every three items [a], [b], [c] and every strategy: the
    proof that [Proof] returns for the third item has a path of length
    one, whose sibling is [HashInternal(HashLeaf(a), HashLeaf(b))] with
    the left flag set; its root is [HashInternal] of that sibling and
    [HashLeaf(c)].  The byte sequences of the proof are thus internal
    hashes: under a strategy none of whose internal hashes equals
    [HashLeaf(c)], none of them is [HashLeaf(c)]. *)
Theorem C4_promotion_not_duplication (hs : HashStrategy) (a b c : Leaf)
    (H : heap) :
  exists H' m,
    buildMerkleTree [a; b; c] (Some hs) H = Done (H', Some m) /\
    exists k, forall fuel, k <= fuel ->
      exists p,
        MerkleTree_Proof fuel H' (Some m) c = Done (Some p, None) /\
        length (p_siblings p) = 1 /\
        p_siblings p =
          [HashInternal hs (HashLeaf hs (Bytes a)) (HashLeaf hs (Bytes b))] /\
        p_left p = [true] /\
        p_root p =
          HashInternal hs
            (HashInternal hs (HashLeaf hs (Bytes a)) (HashLeaf hs (Bytes b)))
            (HashLeaf hs (Bytes c)) /\
        ((forall l r, HashInternal hs l r <> HashLeaf hs (Bytes c)) ->
           p_root p <> HashLeaf hs (Bytes c) /\
           Forall (fun s => s <> HashLeaf hs (Bytes c)) (p_siblings p)).
Proof.
  pose proof (three_nodes hs a b c H) as (_ & _ & _ & _ & Hroot).
  pose proof (three_paths hs a b c H) as [_ Hpath].
  pose proof (three_live hs a b c H) as Hlive.
  assert (Hlast :
    last (List.filter
            (matches (built hs [a; b; c] H).1 (HashLeaf hs (Bytes c)))
            (Some <$> seq (length H) 3)) = Some (Some (S (S (length H))))).
  { rewrite three_matches. cbn [List.filter snd].
    assert (Hc : bytes_Equal (HashLeaf hs (Bytes c)) (HashLeaf hs (Bytes c))
                 = true) by (by apply bool_decide_eq_true_2).
    rewrite Hc.
    by destruct (bytes_Equal _ (HashLeaf hs (Bytes a))),
                (bytes_Equal _ (HashLeaf hs (Bytes b))). }
  destruct (buildMerkleTree_returns hs [a; b; c] H)
    as (r & Hr & Hrun & HI & _); [discriminate|].
  rewrite three_built in Hr. injection Hr as <-.
  eexists _, _. split; [exact Hrun|].
  assert (Hvalid : valid hs (built hs [a; b; c] H).1 (length H + 4))
    by (apply (inv_valid _ _ _ _ HI); apply list_elem_of_here).
  destruct (MerkleTree_Proof_of_path _
              (mkTree (Some (length H + 4))
                 (bump (length [a; b; c] - 1) (Z.of_nat (length [a; b; c])))
                 (Some <$> seq (length H) (length [a; b; c])) (Some hs))
              hs c (S (S (length H))) (length H + 4) _ _ _ _
              eq_refl Hlive Hlast eq_refl Hvalid Hpath Hroot eq_refl eq_refl)
    as [k Hk].
  exists k. intros fuel Hfuel. eexists. split; [by apply Hk|].
  cbn [p_siblings p_left p_root].
  split; [done|]. split; [done|]. split; [done|]. split; [done|].
  intros Hsep. split; [apply Hsep|].
  apply List.Forall_cons; [apply Hsep|apply List.Forall_nil].
Qed.

Lemma C4_promotion_not_duplication_witness :
  (forall l r, HashInternal tagStrategy l r
               <> HashLeaf tagStrategy (Bytes (TestLeaf "c"))) /\
  exists H' m,
    buildMerkleTree abc (Some tagStrategy) [] = Done (H', Some m) /\
    exists k, forall fuel, k <= fuel ->
      exists p,
        MerkleTree_Proof fuel H' (Some m) (TestLeaf "c") = Done (Some p, None) /\
        length (p_siblings p) = 1 /\
        p_left p = [true] /\
        p_root p <> HashLeaf tagStrategy (Bytes (TestLeaf "c")) /\
        Forall (fun s => s <> HashLeaf tagStrategy (Bytes (TestLeaf "c")))
               (p_siblings p).
Proof.
  assert (Hsep : forall l r, HashInternal tagStrategy l r
                             <> HashLeaf tagStrategy (Bytes (TestLeaf "c")))
    by (intros l r; cbn; discriminate).
  split; [exact Hsep|].
  destruct (C4_promotion_not_duplication tagStrategy
              (TestLeaf "a") (TestLeaf "b") (TestLeaf "c") [])
    as (H' & m & Hrun & k & Hk).
  exists H', m. split; [exact Hrun|]. exists k. intros fuel Hfuel.
  destruct (Hk fuel Hfuel) as (p & Hp & Hlen & _ & Hleft & _ & Hno).
  exists p. destruct (Hno Hsep) as [Hroot Hsibs]. done.
Defined.

(** * Further properties of the code *)

(** ** Trees as [buildMerkleTree] leaves them *)

Lemma built_leaf hs data H i x :
  data <> [] -> data !! i = Some x ->
  exists nd,
    (built hs data H).1 !! (length H + i) = Some nd /\
    n_h nd = HashLeaf hs (Bytes x) /\
    n_left nd = None /\ n_right nd = None.
Proof.
  intros Hne Hx.
  destruct (buildMerkleTree_returns hs data H Hne) as (r & _ & _ & _ & Hext).
  destruct (Hext _ _ (leaves_lookup hs H data i x Hx))
    as (nd & Hnd & Eh & El & Er & _).
  exists nd. done.
Qed.

Lemma built_live hs data H :
  data <> [] ->
  Forall (live (built hs data H).1) (Some <$> seq (length H) (length data)).
Proof.
  intros Hne. apply Forall_fmap, Forall_forall. intros t Ht.
  apply elem_of_seq in Ht as [Hlo Hhi].
  destruct (lookup_lt_is_Some_2 data (t - length H)) as [y Hy]; [lia|].
  destruct (built_leaf hs data H _ _ Hne Hy) as (nd & Hnd & _).
  replace (length H + (t - length H)) with t in Hnd by lia.
  by exists t, nd.
Qed.

Lemma built_matches hs data H hash i x :
  data <> [] -> data !! i = Some x ->
  matches (built hs data H).1 hash (Some (length H + i)) =
  bytes_Equal hash (HashLeaf hs (Bytes x)).
Proof.
  intros Hne Hx.
  destruct (built_leaf hs data H _ _ Hne Hx) as (nd & Hnd & Eh & _).
  unfold matches. by rewrite Hnd, Eh.
Qed.

(** X1.  A tree that [buildMerkleTree] has just built passes its own
    check: [Verify()] returns true, under any strategy. *)
Theorem X1_built_tree_verifies (hs : HashStrategy) (data : list Leaf)
    (H : heap) :
  data <> [] ->
  exists H' m,
    buildMerkleTree data (Some hs) H = Done (H', Some m) /\
    exists k, forall fuel, k <= fuel ->
      MerkleTree_Verify fuel H' (Some m) = Done true.
Proof.
  intros Hne.
  destruct (buildMerkleTree_returns hs data H Hne) as (r & _ & Hrun & HI & _).
  eexists _, _. split; [exact Hrun|].
  destruct (Node_verify_valid hs (built hs data H).1 r) as [k Hk].
  { apply (inv_valid _ _ _ _ HI). apply list_elem_of_here. }
  exists k. intros fuel Hfuel. unfold MerkleTree_Verify.
  cbn [m_root m_hashStrategy]. by apply Hk.
Qed.

Lemma X1_built_tree_verifies_witness :
  abc <> [] /\
  exists H' m,
    buildMerkleTree abc (Some defaultHashStrategy) [] = Done (H', Some m) /\
    exists k, forall fuel, k <= fuel ->
      MerkleTree_Verify fuel H' (Some m) = Done true.
Proof.
  assert (Hne : abc <> []) by (unfold abc; discriminate).
  split; [exact Hne|].
  exact (X1_built_tree_verifies defaultHashStrategy abc [] Hne).
Defined.

(** X3.  The tree retains one leaf per item, in input order: the [i]-th
    leaf pointer is a node without children that stores the leaf hash
    of the [i]-th item. *)
Theorem X3_leaves_in_input_order (hs : HashStrategy) (data : list Leaf)
    (H : heap) :
  data <> [] ->
  exists H' m,
    buildMerkleTree data (Some hs) H = Done (H', Some m) /\
    length (m_leaves m) = length data /\
    forall i x, data !! i = Some x ->
      exists a nd,
        m_leaves m !! i = Some (Some a) /\ H' !! a = Some nd /\
        n_h nd = HashLeaf hs (Bytes x) /\
        n_left nd = None /\ n_right nd = None.
Proof.
  intros Hne.
  destruct (buildMerkleTree_returns hs data H Hne) as (r & _ & Hrun & _ & _).
  eexists _, _. split; [exact Hrun|]. cbn [m_leaves]. split.
  - by rewrite length_fmap, length_seq.
  - intros i x Hx.
    destruct (built_leaf hs data H _ _ Hne Hx) as (nd & Hnd & Eh & El & Er).
    exists (length H + i), nd. split; [|done].
    rewrite list_lookup_fmap, lookup_seq_lt; [done|].
    by eapply lookup_lt_Some.
Qed.

Lemma X3_leaves_in_input_order_witness :
  abc <> [] /\
  exists H' m,
    buildMerkleTree abc (Some defaultHashStrategy) [] = Done (H', Some m) /\
    length (m_leaves m) = length abc /\
    forall i x, abc !! i = Some x ->
      exists a nd,
        m_leaves m !! i = Some (Some a) /\ H' !! a = Some nd /\
        n_h nd = HashLeaf defaultHashStrategy (Bytes x) /\
        n_left nd = None /\ n_right nd = None.
Proof.
  assert (Hne : abc <> []) by (unfold abc; discriminate).
  split; [exact Hne|].
  exact (X3_leaves_in_input_order defaultHashStrategy abc [] Hne).
Defined.

(** X5.  On a tree that has just been built, [VerifyExists(x)] finds a
    leaf and reports no error when the leaf hash of [x] is the leaf hash
    of some item of the input, and reports "not in tree", with a nil
    node, when it is the leaf hash of none. *)
Theorem X5_membership (hs : HashStrategy) (data : list Leaf) (H : heap)
    (x : Leaf) :
  data <> [] ->
  exists H' m,
    buildMerkleTree data (Some hs) H = Done (H', Some m) /\
    exists k, forall fuel, k <= fuel ->
      ((exists y, y ∈ data /\ HashLeaf hs (Bytes y) = HashLeaf hs (Bytes x)) ->
         exists a, MerkleTree_VerifyExists fuel H' (Some m) x
                   = Done (Some a, None)) /\
      ((forall y, y ∈ data ->
          HashLeaf hs (Bytes y) <> HashLeaf hs (Bytes x)) ->
         MerkleTree_VerifyExists fuel H' (Some m) x
         = Done (None, Some (errors_New "not in tree"))).
Proof.
  intros Hne.
  destruct (buildMerkleTree_returns hs data H Hne) as (r & _ & Hrun & HI & _).
  eexists _, _. split; [exact Hrun|].
  destruct (Node_verify_valid hs (built hs data H).1 r) as [k Hk].
  { apply (inv_valid _ _ _ _ HI). apply list_elem_of_here. }
  exists k. intros fuel Hfuel.
  unfold MerkleTree_VerifyExists.
  cbn [m_hashStrategy m_leaves the_strategy mbind outcome_bind].
  rewrite scan_leaves_spec by (by apply built_live).
  split.
  - intros (y & Hy & Ehy).
    apply list_elem_of_lookup in Hy as [i Hi].
    destruct (last_filter_found
                (matches (built hs data H).1 (HashLeaf hs (Bytes x)))
                (Some <$> seq (length H) (length data))
                (Some (length H + i))) as (l & Hlast & _ & Hm).
    { apply list_elem_of_fmap. exists (length H + i). split; [done|].
      apply elem_of_seq. apply lookup_lt_Some in Hi. lia. }
    { rewrite (built_matches hs data H _ i y Hne Hi), Ehy.
      by apply bool_decide_eq_true_2. }
    rewrite Hlast. apply matches_inv in Hm as (a & nd & -> & _).
    exists a. cbn [mbind outcome_bind negb].
    unfold MerkleTree_Verify. cbn [m_root m_hashStrategy].
    by rewrite Hk.
  - intros Hnone. rewrite last_filter_none; [done|].
    intros l Hl. apply list_elem_of_fmap in Hl as (t & -> & Ht).
    apply elem_of_seq in Ht as [Hlo Hhi].
    destruct (lookup_lt_is_Some_2 data (t - length H)) as [y Hy]; [lia|].
    replace t with (length H + (t - length H)) by lia.
    rewrite (built_matches hs data H _ _ y Hne Hy).
    apply bool_decide_eq_false_2. intros Heq.
    apply (Hnone y); [by eapply list_elem_of_lookup_2|done].
Qed.

Lemma X5_membership_witness :
  abc <> [] /\
  exists H' m,
    buildMerkleTree abc (Some tagStrategy) [] = Done (H', Some m) /\
    exists k, forall fuel, k <= fuel ->
      MerkleTree_VerifyExists fuel H' (Some m) (TestLeaf "d")
      = Done (None, Some (errors_New "not in tree")).
Proof.
  assert (Hne : abc <> []) by (unfold abc; discriminate).
  split; [exact Hne|].
  destruct (X5_membership tagStrategy abc [] (TestLeaf "d") Hne)
    as (H' & m & Hrun & k & Hk).
  exists H', m. split; [exact Hrun|]. exists k. intros fuel Hfuel.
  apply (Hk fuel Hfuel). intros y Hy.
  unfold abc in Hy. repeat (apply elem_of_cons in Hy as [->|Hy]);
    [discriminate..|by apply elem_of_nil in Hy].
Defined.

(** ** What [Proof] hands out *)

Lemma climb_lengths fuel : forall H p s d s' d',
  climb fuel H p s d = Done (s', d') ->
  length s = length d -> length s' = length d'.
Proof.
  induction fuel as [|fuel IH]; intros H p s d s' d' Hrun Hlen; [done|].
  cbn [climb] in Hrun.
  destruct (deref H p) as [nd| |]; [|done..].
  cbn [mbind outcome_bind] in Hrun.
  destruct (n_parent nd) as [q|]; [|by injection Hrun as <- <-].
  destruct (Node_isLeft H p) as [isL| |]; [|done..].
  cbn [mbind outcome_bind] in Hrun.
  destruct (deref H (Some q)) as [pn| |]; [|done..].
  cbn [mbind outcome_bind] in Hrun.
  destruct isL.
  - destruct (deref H (n_right pn)) as [r| |]; [|done..].
    cbn [mbind outcome_bind] in Hrun. apply (IH _ _ _ _ _ _ Hrun).
    rewrite !length_app. simpl. lia.
  - destruct (deref H (n_left pn)) as [l| |]; [|done..].
    cbn [mbind outcome_bind] in Hrun. apply (IH _ _ _ _ _ _ Hrun).
    rewrite !length_app. simpl. lia.
Qed.

(** X6.  Whatever the store, when [Proof] returns it returns either a
    proof or an error, never both and never neither.  A proof it
    returns has as many siblings as flags, carries the strategy of the
    tree and records what [Root()] returns; so [VerifyProof] on it can
    only answer nil or "root does not match". *)
Theorem X6_Proof_result (fuel : nat) (H : heap) (m : option MerkleTree)
    (x : Leaf) (p : option MerkleProof) (e : option error) :
  MerkleTree_Proof fuel H m x = Done (p, e) ->
  (p = None <-> e <> None) /\
  forall pr, p = Some pr ->
    length (p_siblings pr) = length (p_left pr) /\
    MerkleTree_Root H m = Done (p_root pr) /\
    (exists t hs, m = Some t /\ m_hashStrategy t = Some hs /\
                  p_hashStrategy pr = Some hs) /\
    forall y,
      VerifyProof y (Some pr) = Done None \/
      VerifyProof y (Some pr) = Done (Some (errors_New "root does not match")).
Proof.
  unfold MerkleTree_Proof. destruct m as [t|].
  2:{ intros [= <- <-]. split; [done|]. intros pr [=]. }
  destruct (MerkleTree_VerifyExists fuel H (Some t) x)
    as [[node err]| |] eqn:Hve; [|done..].
  cbn [mbind outcome_bind].
  destruct err as [err|].
  { intros [= <- <-]. split; [done|]. intros pr [=]. }
  destruct (climb fuel H node [] []) as [[s d]| |] eqn:Hclimb; [|done..].
  cbn [mbind outcome_bind].
  destruct (MerkleTree_Root H (Some t)) as [root| |] eqn:Hroot; [|done..].
  cbn [mbind outcome_bind]. intros [= <- <-].
  split; [split; [done|by intros []]|].
  intros pr [= <-]. cbn [p_siblings p_left p_root p_hashStrategy].
  pose proof (climb_lengths _ _ _ _ _ _ _ Hclimb eq_refl) as Hlen.
  assert (Hhs : exists hs, m_hashStrategy t = Some hs).
  { unfold MerkleTree_VerifyExists in Hve.
    destruct (m_hashStrategy t) as [hs|]; [by exists hs|done]. }
  destruct Hhs as [hs Hhs].
  split; [done|]. split; [done|]. split; [by exists t, hs|].
  intros y. unfold VerifyProof.
  cbn [p_siblings p_left p_root p_hashStrategy]. rewrite Hhs.
  destruct (decide (length s ≠ length d)) as [|_]; [done|].
  rewrite (proof_loop_spec hs d [] s) by done. cbn [mbind outcome_bind].
  destruct (bytes_Equal _ _); [by left|by right].
Qed.

Lemma X6_Proof_result_witness :
  MerkleTree_Proof 3 abc_store (Some abc_tree) (TestLeaf "d")
    = Done (None, Some (errors_New "not in tree")) /\
  ((@None MerkleProof) = None <->
   Some (errors_New "not in tree") <> None).
Proof.
  assert (Hrun : MerkleTree_Proof 3 abc_store (Some abc_tree) (TestLeaf "d")
                 = Done (None, Some (errors_New "not in tree")))
    by (vm_compute; reflexivity).
  split; [exact Hrun|].
  exact (proj1 (X6_Proof_result 3 abc_store (Some abc_tree) (TestLeaf "d")
                  None (Some (errors_New "not in tree")) Hrun)).
Defined.

(** ** A proof is bound to its leaf *)

Lemma recompute_inj hs pairs :
  binding hs ->
  forall a b, recompute hs a pairs = recompute hs b pairs -> a = b.
Proof.
  intros [Hright Hleft]. unfold recompute.
  induction pairs as [|[s d] pairs IH]; intros a b Heq; [done|].
  cbn [fold_left fst snd] in Heq. apply IH in Heq.
  destruct d; [by eapply Hright|by eapply Hleft].
Qed.

(** X8.  Tamper detection.  Under a strategy whose internal hash
    determines each argument once the other is fixed, a proof that
    [VerifyProof] accepts for [x] is rejected with "root does not match"
    for every [y] with another leaf hash. *)
Theorem X8_proof_binds_leaf (hs : HashStrategy) (x y : Leaf)
    (pr : MerkleProof) :
  p_hashStrategy pr = Some hs ->
  binding hs ->
  VerifyProof x (Some pr) = Done None ->
  HashLeaf hs (Bytes y) <> HashLeaf hs (Bytes x) ->
  VerifyProof y (Some pr) = Done (Some (errors_New "root does not match")).
Proof.
  intros Hhs Hbind Hx Hne. unfold VerifyProof in *. rewrite Hhs in *.
  destruct (decide (length (p_siblings pr) ≠ length (p_left pr)))
    as [|Hlen]; [done|].
  apply dec_stable in Hlen.
  rewrite (proof_loop_spec hs (p_left pr) [] (p_siblings pr)) in * by done.
  cbn [mbind outcome_bind] in *. unfold bytes_Equal in *.
  destruct (decide (recompute hs (HashLeaf hs (Bytes x))
                      (combine (p_siblings pr) (p_left pr)) = p_root pr))
    as [Hroot|Hroot].
  2:{ by rewrite bool_decide_eq_false_2 in Hx. }
  rewrite bool_decide_eq_false_2; [done|].
  intros Hy. apply Hne.
  apply (recompute_inj hs (combine (p_siblings pr) (p_left pr)) Hbind).
  by rewrite Hy, Hroot.
Qed.

Lemma tagStrategy_binding : binding tagStrategy.
Proof.
  split; cbn; intros s h h' [= Heq].
  - by apply app_inv_head in Heq.
  - by apply app_inv_tail in Heq.
Qed.

Lemma X8_proof_binds_leaf_witness :
  p_hashStrategy ab_tag_proof = Some tagStrategy /\
  binding tagStrategy /\
  VerifyProof (TestLeaf "a") (Some ab_tag_proof) = Done None /\
  HashLeaf tagStrategy (Bytes (TestLeaf "a*"))
    <> HashLeaf tagStrategy (Bytes (TestLeaf "a")) /\
  VerifyProof (TestLeaf "a*") (Some ab_tag_proof)
    = Done (Some (errors_New "root does not match")).
Proof.
  assert (Hok : VerifyProof (TestLeaf "a") (Some ab_tag_proof) = Done None)
    by reflexivity.
  assert (Hne : HashLeaf tagStrategy (Bytes (TestLeaf "a*"))
                <> HashLeaf tagStrategy (Bytes (TestLeaf "a")))
    by (cbn; discriminate).
  split; [reflexivity|]. split; [exact tagStrategy_binding|].
  split; [exact Hok|]. split; [exact Hne|].
  exact (X8_proof_binds_leaf tagStrategy (TestLeaf "a") (TestLeaf "a*")
           ab_tag_proof eq_refl tagStrategy_binding Hok Hne).
Defined.

(** ** A single item *)

(** X9.  For a single item the level loop is not entered: the build
    allocates the leaf and nothing else, [Len()] is [1], [Root()] is the
    leaf hash of the item, and the proof of the item has no siblings. *)
Theorem X9_single_item (hs : HashStrategy) (x : Leaf) (H : heap) :
  exists m,
    buildMerkleTree [x] (Some hs) H =
      Done (H ++ [mkNode (HashLeaf hs (Bytes x)) None None None], Some m) /\
    MerkleTree_Len (Some m) = Done 1%Z /\
    MerkleTree_Root (H ++ [mkNode (HashLeaf hs (Bytes x)) None None None])
                    (Some m) = Done (HashLeaf hs (Bytes x)) /\
    exists k, forall fuel, k <= fuel ->
      MerkleTree_Proof fuel
        (H ++ [mkNode (HashLeaf hs (Bytes x)) None None None]) (Some m) x =
      Done (Some (mkProof (HashLeaf hs (Bytes x)) [] [] (Some hs)), None).
Proof.
  destruct (buildMerkleTree_returns hs [x] H) as (r & Hr & Hrun & HI & _);
    [done|].
  assert (Hbuilt : built hs [x] H =
            (H ++ [mkNode (HashLeaf hs (Bytes x)) None None None], [length H])).
  { unfold built. cbn [length rounds seq].
    destruct (decide (1 < 1)); [lia|done]. }
  rewrite Hbuilt in *. cbn [fst snd] in *. injection Hr as <-.
  eexists. split; [exact Hrun|].
  assert (Hleaf : (H ++ [mkNode (HashLeaf hs (Bytes x)) None None None])
                    !! length H
                  = Some (mkNode (HashLeaf hs (Bytes x)) None None None))
    by (by apply list_lookup_middle).
  split; [done|]. split.
  - unfold MerkleTree_Root. cbn [m_root deref]. by rewrite Hleaf.
  - eapply (MerkleTree_Proof_of_path _ _ hs x (length H) (length H) [] []);
      [reflexivity| | |reflexivity| |constructor|exact Hleaf|reflexivity
      |reflexivity].
    + cbn. apply List.Forall_cons; [by eexists _, _|apply List.Forall_nil].
    + cbn [m_leaves length seq fmap list_fmap List.filter matches].
      rewrite Hleaf. cbn [n_h]. unfold bytes_Equal.
      by rewrite bool_decide_eq_true_2.
    + apply (inv_valid _ _ _ _ HI). apply list_elem_of_here.
Qed.

(** ** The root depends on the items and the strategy only *)

Section RootHash.
Context (hs : HashStrategy) (L : list addr).

Lemma hash_at_extends H H' a nd :
  extends H H' -> H !! a = Some nd -> hash_at H' a = hash_at H a.
Proof.
  intros Hext Ha. destruct (Hext a nd Ha) as (nd' & Ha' & Eh & _).
  unfold hash_at. by rewrite Ha, Ha'.
Qed.

Lemma hash_at_level H H' T lvl :
  inv hs H L T -> extends H H' -> lvl ⊆ T ->
  hash_at H' <$> lvl = hash_at H <$> lvl.
Proof.
  intros HI Hext Hsub. apply list_fmap_ext. intros i t Ht.
  destruct (inv_top _ _ _ _ HI t) as (nd & Hnd & _).
  { apply Hsub. by eapply list_elem_of_lookup_2. }
  by eapply hash_at_extends.
Qed.

Lemma pair_up_hashes lvl : forall pre H,
  inv hs H L (pre ++ lvl) ->
  hash_at (pair_up hs H lvl).1 <$> ((pair_up hs H lvl).2 ++ leftover lvl) =
  hash_pairs hs (hash_at H <$> lvl).
Proof.
  induction lvl as [|a|a b lvl IH] using pair_ind; intros pre H HI;
    [done..|].
  pose proof (merge_inv _ _ _ _ _ _ _ HI) as HI'.
  pose proof (merge_inv_extends _ _ _ _ _ _ _ HI) as Hext.
  replace (pre ++ length H :: lvl) with ((pre ++ [length H]) ++ lvl) in HI'
    by (by rewrite <- app_assoc).
  destruct (pair_up_inv hs L lvl _ _ HI') as [_ Hext'].
  specialize (IH _ _ HI').
  assert (Hla : a < length H) by (eapply inv_top_lt; [exact HI|set_solver]).
  assert (Hlb : b < length H) by (eapply inv_top_lt; [exact HI|set_solver]).
  pose proof (merge_lookup_new hs H a b Hla Hlb) as Hq.
  cbn [pair_up leftover fmap list_fmap hash_pairs].
  destruct (pair_up hs (merge hs H a b) lvl) as [H' ps].
  cbn [fst snd app fmap list_fmap] in *. f_equal.
  - rewrite (hash_at_extends _ _ _ _ Hext' Hq). unfold hash_at at 1.
    by rewrite Hq.
  - change (list_fmap addr bytes (hash_at H') (ps ++ leftover lvl))
      with (hash_at H' <$> ps ++ leftover lvl).
    rewrite IH. f_equal.
    apply (hash_at_level _ _ (pre ++ a :: b :: lvl)); [done..|set_solver].
Qed.

Lemma rounds_hashes fuel : forall lvl H,
  inv hs H L lvl ->
  hash_at (rounds fuel hs H lvl).1 <$> (rounds fuel hs H lvl).2 =
  hash_levels fuel hs (hash_at H <$> lvl).
Proof.
  induction fuel as [|fuel IH]; intros lvl H HI; [done|].
  cbn [rounds hash_levels]. rewrite length_fmap.
  destruct (decide (1 < length lvl)); [|done].
  pose proof (pair_up_hashes lvl [] H HI) as Hround.
  destruct (pair_up_inv hs L lvl [] H HI) as [HI' _].
  destruct (pair_up hs H lvl) as [H' ps]. cbn [fst snd app] in *.
  by rewrite IH, Hround.
Qed.
End RootHash.

(** X4.  The root hash of a built tree is the level-by-level reduction
    of the leaf hashes of the items: it depends on the items and the
    strategy, not on the store the tree was built in. *)
Theorem X4_root_is_reduction (hs : HashStrategy) (data : list Leaf)
    (H : heap) :
  data <> [] ->
  exists H' m,
    buildMerkleTree data (Some hs) H = Done (H', Some m) /\
    MerkleTree_Root H' (Some m) = Done (merkle_root hs data).
Proof.
  intros Hne.
  destruct (buildMerkleTree_returns hs data H Hne)
    as (r & Hr & Hrun & HI & _).
  eexists _, _. split; [exact Hrun|].
  pose proof (rounds_hashes hs _ (length data)
                (seq (length H) (length data))
                (H ++ (leaf_node hs <$> data)) (initial_inv hs H data))
    as Hred.
  fold (built hs data H) in Hred. rewrite Hr in Hred.
  assert (Hleaves : hash_at (H ++ (leaf_node hs <$> data))
                      <$> seq (length H) (length data)
                    = (fun x => HashLeaf hs (Bytes x)) <$> data).
  { apply list_eq. intros i. rewrite !list_lookup_fmap.
    destruct (data !! i) as [x|] eqn:Hx.
    - rewrite lookup_seq_lt by (by eapply lookup_lt_Some). cbn.
      unfold hash_at. by rewrite (leaves_lookup hs H data i x Hx).
    - apply lookup_ge_None in Hx.
      rewrite (proj2 (lookup_ge_None _ _)); [done|]. by rewrite length_seq. }
  rewrite Hleaves in Hred. unfold merkle_root. rewrite <- Hred.
  cbn [fmap list_fmap].
  destruct (inv_top _ _ _ _ HI r) as (nr & Hnr & _);
    [apply list_elem_of_here|].
  unfold MerkleTree_Root. cbn [m_root deref]. rewrite Hnr.
  unfold hash_at. by rewrite Hnr.
Qed.

Lemma X4_root_is_reduction_witness :
  abc <> [] /\
  exists H' m,
    buildMerkleTree abc (Some defaultHashStrategy) [] = Done (H', Some m) /\
    MerkleTree_Root H' (Some m) = Done (merkle_root defaultHashStrategy abc).
Proof.
  assert (Hne : abc <> []) by (unfold abc; discriminate).
  split; [exact Hne|].
  exact (X4_root_is_reduction defaultHashStrategy abc [] Hne).
Defined.

(** The reduction on two, three and four items. *)
Example merkle_root_small (hs : HashStrategy) (a b c d : Leaf) :
  merkle_root hs [a; b] =
    HashInternal hs (HashLeaf hs (Bytes a)) (HashLeaf hs (Bytes b)) /\
  merkle_root hs [a; b; c] =
    HashInternal hs
      (HashInternal hs (HashLeaf hs (Bytes a)) (HashLeaf hs (Bytes b)))
      (HashLeaf hs (Bytes c)) /\
  merkle_root hs [a; b; c; d] =
    HashInternal hs
      (HashInternal hs (HashLeaf hs (Bytes a)) (HashLeaf hs (Bytes b)))
      (HashInternal hs (HashLeaf hs (Bytes c)) (HashLeaf hs (Bytes d))).
Proof. repeat split. Qed.

(** ** What the build does to the store *)

Section Allocation.
Context (hs : HashStrategy) (base : nat).

Lemma merge_below H a b i :
  base <= a -> base <= b -> i < base -> base <= length H ->
  merge hs H a b !! i = H !! i.
Proof. intros. apply merge_lookup_other; lia. Qed.

Lemma pair_up_alloc lvl : forall H,
  Forall (fun a => base <= a < length H) lvl -> base <= length H ->
  length (pair_up hs H lvl).1 = length H + length lvl / 2 /\
  (forall i, i < base -> (pair_up hs H lvl).1 !! i = H !! i) /\
  Forall (fun a => base <= a < length (pair_up hs H lvl).1)
         ((pair_up hs H lvl).2 ++ leftover lvl).
Proof.
  induction lvl as [|a|a b lvl IH] using pair_ind; intros H Hin Hbase.
  - cbn. split; [lia|]. split; [done|]. apply Forall_nil_2.
  - cbn. split; [lia|]. done.
  - apply Forall_cons in Hin as [Ha Hin]. apply Forall_cons in Hin as [Hb Hin].
    destruct (IH (merge hs H a b)) as (Hlen & Hlow & Hnew).
    { rewrite merge_length. eapply Forall_impl; [exact Hin|].
      intros t ?. cbn in *. lia. }
    { rewrite merge_length. lia. }
    rewrite merge_length in Hlen.
    cbn [pair_up leftover length]. rewrite half_SS.
    destruct (pair_up hs (merge hs H a b) lvl) as [H' ps].
    cbn [fst snd] in *. split; [lia|]. split.
    + intros i Hi. rewrite Hlow by done. apply merge_below; lia.
    + cbn [app]. apply Forall_cons. split; [lia|done].
Qed.

Lemma rounds_alloc fuel : forall lvl H,
  length lvl <= fuel -> lvl <> [] ->
  Forall (fun a => base <= a < length H) lvl -> base <= length H ->
  length (rounds fuel hs H lvl).1 = length H + (length lvl - 1) /\
  (forall i, i < base -> (rounds fuel hs H lvl).1 !! i = H !! i).
Proof.
  induction fuel as [|fuel IH]; intros lvl H Hfuel Hne Hin Hbase.
  { destruct lvl; [done|simpl in Hfuel; lia]. }
  cbn [rounds]. destruct (decide (1 < length lvl)) as [Hlong|Hshort].
  - destruct (pair_up_alloc lvl H Hin Hbase) as (Hlen & Hlow & Hnew).
    pose proof (round_length hs lvl H) as Hround.
    pose proof (half_up (length lvl)) as Hhalf.
    assert (Hpos : 1 <= (length lvl + 1) / 2).
    { replace (length lvl + 1) with ((length lvl - 1) + 1 * 2) by lia.
      rewrite Nat.div_add by lia. lia. }
    assert (Hpos' : 1 <= length lvl / 2).
    { replace (length lvl) with ((length lvl - 2) + 1 * 2) by lia.
      rewrite Nat.div_add by lia. lia. }
    destruct (pair_up hs H lvl) as [H' ps]. cbn [fst snd] in *.
    destruct (IH (ps ++ leftover lvl) H') as [Hlen' Hlow']; [lia| |done|lia|].
    { intros Heq. rewrite Heq in Hround. cbn [length] in Hround. lia. }
    split; [lia|]. intros i Hi. by rewrite Hlow', Hlow.
  - cbn [fst]. split; [|done].
    destruct lvl as [|? [|? ?]]; [done|simpl; lia|simpl in Hshort; lia].
Qed.
End Allocation.

(** X2.  [buildMerkleTree] only allocates: the store it leaves is the
    store it found followed by new nodes, so no node that existed
    before is changed.  It allocates [2n - 1] nodes for [n] items, and
    [Len()] is that number when it fits an [int]. *)
Theorem X2_build_only_allocates (hs : HashStrategy) (data : list Leaf)
    (H : heap) :
  data <> [] ->
  exists H' m new,
    buildMerkleTree data (Some hs) H = Done (H', Some m) /\
    H' = H ++ new /\
    length new = 2 * length data - 1 /\
    ((Z.of_nat (length new) <= int_max)%Z ->
       MerkleTree_Len (Some m) = Done (Z.of_nat (length new))).
Proof.
  intros Hne.
  destruct (buildMerkleTree_returns hs data H Hne) as (r & _ & Hrun & _ & _).
  assert (Hpos : 1 <= length data) by (destruct data; [done|simpl; lia]).
  destruct (rounds_alloc hs (length H) (length data)
              (seq (length H) (length data))
              (H ++ (leaf_node hs <$> data))) as [Hlen Hlow].
  - by rewrite length_seq.
  - destruct data; [done|]. done.
  - apply Forall_forall. intros t [Hlo Hhi]%elem_of_seq.
    rewrite length_app, length_fmap. lia.
  - rewrite length_app. lia.
  - fold (built hs data H) in Hlen, Hlow.
    rewrite length_app, length_fmap, length_seq in Hlen.
    eexists (built hs data H).1, _, (drop (length H) (built hs data H).1).
    split; [exact Hrun|].
    assert (Hsplit : (built hs data H).1
                     = H ++ drop (length H) (built hs data H).1).
    { rewrite <- (firstn_skipn (length H) (built hs data H).1) at 1.
      f_equal. apply list_eq. intros i.
      destruct (decide (i < length H)) as [Hi|Hi].
      - rewrite lookup_take_lt by done. rewrite Hlow by done.
        by apply lookup_app_l.
      - rewrite lookup_take_ge by lia. symmetry. apply lookup_ge_None. lia. }
    split; [exact Hsplit|].
    assert (Hnew : length (drop (length H) (built hs data H).1)
                   = 2 * length data - 1)
      by (rewrite length_drop; lia).
    split; [exact Hnew|].
    intros Hmax. cbn [MerkleTree_Len m_n]. rewrite Hnew in *.
    rewrite bump_exact by lia. f_equal. lia.
Qed.

Lemma X2_build_only_allocates_witness :
  abc <> [] /\
  exists H' m new,
    buildMerkleTree abc (Some defaultHashStrategy) abc_store
      = Done (H', Some m) /\
    H' = abc_store ++ new /\
    length new = 2 * length abc - 1 /\
    ((Z.of_nat (length new) <= int_max)%Z ->
       MerkleTree_Len (Some m) = Done (Z.of_nat (length new))).
Proof.
  assert (Hne : abc <> []) by (unfold abc; discriminate).
  split; [exact Hne|].
  exact (X2_build_only_allocates defaultHashStrategy abc abc_store Hne).
Defined.

(** ** The size of a proof *)

Section ProofSize.
Context (hs : HashStrategy) (L : list addr).

Lemma merge_within H pre a b rest d :
  inv hs H L (pre ++ a :: b :: rest) ->
  within H L pre (a :: b :: rest) d ->
  within (merge hs H a b) L (pre ++ [length H]) rest d.
Proof.
  intros HI Hw.
  pose proof (inv_nodup _ _ _ _ HI) as Hnd.
  apply NoDup_app in Hnd as (_ & _ & Hnd2).
  apply NoDup_cons in Hnd2 as (Hab & _).
  assert (Hne : a <> b) by set_solver.
  destruct (inv_top _ _ _ _ HI a) as (na & Hna & Hpa); [set_solver|].
  destruct (inv_top _ _ _ _ HI b) as (nb & Hnb & Hpb); [set_solver|].
  pose proof (merge_extends hs H a b na nb Hne Hna Hpa Hnb Hpb) as Hext.
  assert (Hla : a < length H) by (by eapply lookup_lt_Some).
  assert (Hlb : b < length H) by (by eapply lookup_lt_Some).
  pose proof (merge_lookup_new hs H a b Hla Hlb) as Hq.
  pose proof (merge_lookup_left hs H a b na Hne Hna) as Ha'.
  pose proof (merge_lookup_right hs H a b nb Hne Hnb) as Hb'.
  intros l Hl. destruct (Hw l Hl) as (t & sibs & dirs & Hp & Hcase).
  pose proof (path_extends _ _ _ _ _ _ Hp Hext) as Hp'.
  destruct Hcase as [[Ht Hlen]|[Ht Hlen]].
  { exists t, sibs, dirs. split; [done|]. left. split; [set_solver|done]. }
  destruct (decide (t = a)) as [->|Hta]; [|destruct (decide (t = b)) as [->|Htb]].
  - exists (length H), (sibs ++ [n_h (with_parent (Some (length H)) nb)]),
      (dirs ++ [false]). split.
    + eapply path_snoc_left; eauto.
    + left. split; [set_solver|]. rewrite length_app. simpl. lia.
  - exists (length H), (sibs ++ [n_h (with_parent (Some (length H)) na)]),
      (dirs ++ [true]). split.
    + eapply path_snoc_right; eauto. simpl. congruence.
    + left. split; [set_solver|]. rewrite length_app. simpl. lia.
  - exists t, sibs, dirs. split; [done|]. right. split; [set_solver|done].
Qed.

Lemma pair_up_within lvl : forall pre H d,
  inv hs H L (pre ++ lvl) ->
  within H L pre lvl d ->
  within (pair_up hs H lvl).1 L (pre ++ (pair_up hs H lvl).2)
         (leftover lvl) d.
Proof.
  induction lvl as [|a|a b lvl IH] using pair_ind; intros pre H d HI Hw.
  - cbn. by rewrite app_nil_r.
  - cbn. by rewrite app_nil_r.
  - pose proof (merge_inv _ _ _ _ _ _ _ HI) as HI'.
    pose proof (merge_within _ _ _ _ _ _ HI Hw) as Hw'.
    replace (pre ++ length H :: lvl) with ((pre ++ [length H]) ++ lvl) in HI'
      by (by rewrite <- app_assoc).
    specialize (IH _ _ _ HI' Hw').
    cbn [pair_up leftover].
    destruct (pair_up hs (merge hs H a b) lvl) as [H' ps].
    cbn [fst snd] in *. by rewrite <- app_assoc in IH.
Qed.

Lemma half_pow2 m e : m <= 2 ^ S e -> (m + 1) / 2 <= 2 ^ e.
Proof.
  intros Hm. rewrite Nat.pow_succ_r' in Hm.
  pose proof (half_up m) as Hhalf.
  assert (Hle : m / 2 <= (m + 1) / 2)
    by (apply Nat.Div0.div_le_mono; lia).
  assert (Hup : (m + 1) / 2 <= (2 ^ e * 2 + 1) / 2)
    by (apply Nat.Div0.div_le_mono; lia).
  replace (2 ^ e * 2 + 1) with (1 + 2 ^ e * 2) in Hup by lia.
  rewrite Nat.div_add in Hup by lia. change (1 / 2) with 0 in Hup. lia.
Qed.

Lemma rounds_within fuel : forall lvl H e d,
  length lvl <= fuel -> lvl <> [] -> length lvl <= 2 ^ e ->
  inv hs H L lvl -> within H L [] lvl d ->
  within (rounds fuel hs H lvl).1 L [] (rounds fuel hs H lvl).2 (d + e).
Proof.
  induction fuel as [|fuel IH]; intros lvl H e d Hfuel Hne Hpow HI Hw.
  { destruct lvl; [done|simpl in Hfuel; lia]. }
  cbn [rounds]. destruct (decide (1 < length lvl)) as [Hlong|Hshort].
  - destruct e as [|e]; [simpl in Hpow; lia|].
    pose proof (pair_up_within lvl [] H d HI Hw) as Hw'.
    destruct (pair_up_inv hs L lvl [] H HI) as [HI' _].
    pose proof (round_length hs lvl H) as Hround.
    pose proof (half_pow2 _ _ Hpow) as Hhalf.
    pose proof (half_up (length lvl)) as Hsum.
    assert (Hpos : 1 <= (length lvl + 1) / 2).
    { replace (length lvl + 1) with ((length lvl - 1) + 1 * 2) by lia.
      rewrite Nat.div_add by lia. lia. }
    assert (Hpos' : 1 <= length lvl / 2).
    { replace (length lvl) with ((length lvl - 2) + 1 * 2) by lia.
      rewrite Nat.div_add by lia. lia. }
    destruct (pair_up hs H lvl) as [H' ps]. cbn [fst snd app] in *.
    replace (d + S e) with (S d + e) by lia.
    apply IH; [lia| |lia|done|].
    { intros Heq. rewrite Heq in Hround. cbn [length] in Hround. lia. }
    intros l Hl. destruct (Hw' l Hl) as (t & sibs & dirs & Hp & Hcase).
    exists t, sibs, dirs. split; [done|]. right.
    destruct Hcase as [[Ht Hlen]|[Ht Hlen]]; (split; [set_solver|lia]).
  - cbn [fst snd]. intros l Hl.
    destruct (Hw l Hl) as (t & sibs & dirs & Hp & Hcase).
    exists t, sibs, dirs. split; [done|].
    destruct Hcase as [[Ht Hlen]|[Ht Hlen]]; [set_solver|].
    right. split; [done|lia].
Qed.
End ProofSize.

(** X7.  Proofs are logarithmic in the number of items: in a tree built
    from at most [2 ^ d] items, the proof [Proof] returns for an item of
    the input has at most [d] siblings (and as many flags). *)
Theorem X7_proof_size (hs : HashStrategy) (data : list Leaf) (H : heap)
    (x : Leaf) (d : nat) :
  x ∈ data -> length data <= 2 ^ d ->
  exists H' m,
    buildMerkleTree data (Some hs) H = Done (H', Some m) /\
    exists k, forall fuel, k <= fuel ->
      exists p,
        MerkleTree_Proof fuel H' (Some m) x = Done (Some p, None) /\
        length (p_siblings p) <= d /\ length (p_left p) <= d.
Proof.
  intros Hx Hpow.
  assert (Hne : data <> []) by (intros ->; by apply elem_of_nil in Hx).
  destruct (buildMerkleTree_returns hs data H Hne)
    as (r & Hr & Hrun & HI & _).
  eexists _, _. split; [exact Hrun|].
  pose proof (rounds_within hs (seq (length H) (length data)) (length data)
                (seq (length H) (length data))
                (H ++ (leaf_node hs <$> data)) d 0) as Hdepth.
  fold (built hs data H) in Hdepth. rewrite Hr in Hdepth.
  specialize (Hdepth ltac:(by rewrite length_seq)).
  specialize (Hdepth ltac:(destruct data; done)).
  specialize (Hdepth ltac:(by rewrite length_seq)).
  specialize (Hdepth (initial_inv hs H data)).
  assert (Hinit : within (H ++ (leaf_node hs <$> data))
                    (seq (length H) (length data)) []
                    (seq (length H) (length data)) 0).
  { intros l Hl. exists l, [], []. split; [constructor|]. by right. }
  specialize (Hdepth Hinit). cbn [Nat.add] in Hdepth.
  (* the leaf the scan settles on *)
  apply list_elem_of_lookup in Hx as [i Hi].
  destruct (last_filter_found
              (matches (built hs data H).1 (HashLeaf hs (Bytes x)))
              (Some <$> seq (length H) (length data))
              (Some (length H + i))) as (l & Hlast & Hl & Hm).
  { apply list_elem_of_fmap. exists (length H + i). split; [done|].
    apply elem_of_seq. apply lookup_lt_Some in Hi. lia. }
  { rewrite (built_matches hs data H _ i x Hne Hi).
    by apply bool_decide_eq_true_2. }
  apply matches_inv in Hm as (a & nl & -> & Hnl & Ehl).
  apply list_elem_of_fmap in Hl as (a' & [= <-] & Ha).
  destruct (Hdepth a Ha) as (t & sibs & dirs & Hp & Hcase).
  destruct Hcase as [[Ht _]|[Ht Hlen]]; [by apply elem_of_nil in Ht|].
  apply list_elem_of_singleton in Ht as ->.
  destruct (inv_top _ _ _ _ HI r) as (nr & Hnr & Hpar);
    [apply list_elem_of_here|].
  destruct (MerkleTree_Proof_of_path (built hs data H).1
              (mkTree (Some r)
                 (bump (length data - 1) (Z.of_nat (length data)))
                 (Some <$> seq (length H) (length data)) (Some hs))
              hs x a r sibs dirs nr (n_h nr)) as [k Hk];
    [reflexivity|by apply built_live|exact Hlast|reflexivity|
     |exact Hp|exact Hnr|exact Hpar|reflexivity|].
  { apply (inv_valid _ _ _ _ HI). apply list_elem_of_here. }
  exists k. intros fuel Hfuel. eexists. split; [by apply Hk|].
  cbn [p_siblings p_left]. rewrite <- (path_length _ _ _ _ _ Hp). lia.
Qed.

Lemma X7_proof_size_witness :
  TestLeaf "c" ∈ abc /\ length abc <= 2 ^ 2 /\
  exists H' m,
    buildMerkleTree abc (Some defaultHashStrategy) [] = Done (H', Some m) /\
    exists k, forall fuel, k <= fuel ->
      exists p,
        MerkleTree_Proof fuel H' (Some m) (TestLeaf "c") = Done (Some p, None) /\
        length (p_siblings p) <= 2 /\ length (p_left p) <= 2.
Proof.
  assert (Hin : TestLeaf "c" ∈ abc).
  { unfold abc. do 2 apply list_elem_of_further. apply list_elem_of_here. }
  assert (Hlen : length abc <= 2 ^ 2) by (simpl; lia).
  split; [exact Hin|]. split; [exact Hlen|].
  exact (X7_proof_size defaultHashStrategy abc [] (TestLeaf "c") 2 Hin Hlen).
Defined.

(** ** Properties of the nodes without parent, through the rounds *)

Section Tops.
Context (hs : HashStrategy) (L : list addr).
Context (Q : heap -> addr -> Prop).
Hypothesis Q_extends : forall H H' a, Q H a -> extends H H' -> Q H' a.
Hypothesis Q_merge : forall H a b na nb,
  a <> b -> H !! a = Some na -> n_parent na = None ->
  H !! b = Some nb -> n_parent nb = None ->
  Q H a -> Q H b -> Q (merge hs H a b) (length H).

Lemma merge_tops H pre a b rest :
  inv hs H L (pre ++ a :: b :: rest) ->
  (forall t, t ∈ pre ++ a :: b :: rest -> Q H t) ->
  forall t, t ∈ pre ++ length H :: rest -> Q (merge hs H a b) t.
Proof.
  intros HI HQ t Ht.
  pose proof (merge_inv_extends _ _ _ _ _ _ _ HI) as Hext.
  pose proof (inv_nodup _ _ _ _ HI) as Hnd.
  apply NoDup_app in Hnd as (_ & _ & Hnd2).
  apply NoDup_cons in Hnd2 as (Hab & _).
  destruct (inv_top _ _ _ _ HI a) as (na & Hna & Hpa); [set_solver|].
  destruct (inv_top _ _ _ _ HI b) as (nb & Hnb & Hpb); [set_solver|].
  assert (Hcase : t = length H \/ t ∈ pre ++ a :: b :: rest) by set_solver.
  destruct Hcase as [->|Hold].
  - apply (Q_merge H a b na nb); try done; [set_solver|apply HQ..];
      set_solver.
  - apply Q_extends with H; [by apply HQ|done].
Qed.

Lemma pair_up_tops lvl : forall pre H,
  inv hs H L (pre ++ lvl) ->
  (forall t, t ∈ pre ++ lvl -> Q H t) ->
  forall t, t ∈ pre ++ (pair_up hs H lvl).2 ++ leftover lvl ->
    Q (pair_up hs H lvl).1 t.
Proof.
  induction lvl as [|a|a b lvl IH] using pair_ind; intros pre H HI HQ.
  - exact HQ.
  - exact HQ.
  - pose proof (merge_inv _ _ _ _ _ _ _ HI) as HI'.
    pose proof (merge_tops _ _ _ _ _ HI HQ) as HQ'.
    replace (pre ++ length H :: lvl) with ((pre ++ [length H]) ++ lvl)
      in HI', HQ' by (by rewrite <- app_assoc).
    specialize (IH _ _ HI' HQ').
    cbn [pair_up leftover].
    destruct (pair_up hs (merge hs H a b) lvl) as [H' ps].
    cbn [fst snd] in *. intros t Ht. apply IH.
    by rewrite <- app_assoc.
Qed.

Lemma rounds_tops fuel : forall lvl H,
  inv hs H L lvl ->
  (forall t, t ∈ lvl -> Q H t) ->
  forall t, t ∈ (rounds fuel hs H lvl).2 -> Q (rounds fuel hs H lvl).1 t.
Proof.
  induction fuel as [|fuel IH]; intros lvl H HI HQ; [exact HQ|].
  cbn [rounds]. destruct (decide (1 < length lvl)); [|exact HQ].
  pose proof (pair_up_tops lvl [] H HI HQ) as HQ'.
  destruct (pair_up_inv hs L lvl [] H HI) as [HI' _].
  destruct (pair_up hs H lvl) as [H' ps]. cbn [fst snd app] in *.
  by apply IH.
Qed.
End Tops.

(** ** Ideal strategies *)

Lemma framed_inj l : forall l' r r',
  framed l ++ r = framed l' ++ r' -> l = l' /\ r = r'.
Proof.
  induction l as [|b l IH]; intros [|b' l'] r r' Heq; cbn in Heq;
    try discriminate.
  - by injection Heq.
  - injection Heq as -> Heq. by destruct (IH _ _ _ Heq) as [-> ->].
Qed.

Lemma framedStrategy_collision_free : collision_free framedStrategy.
Proof. intros l r l' r' [= Heq]. by apply framed_inj. Qed.

Lemma framedStrategy_separated : separated framedStrategy.
Proof. intros b l r. cbn. discriminate. Qed.

(** ** Soundness of accepted proofs *)

Lemma leaves_in_extends H H' hashes a :
  leaves_in H hashes a -> extends H H' -> leaves_in H' hashes a.
Proof.
  intros Hin Hext.
  induction Hin as [a nd Ha Hl Hr Hh | a nd l r Ha Hl Hr Hinl IHl Hinr IHr].
  - destruct (Hext a nd Ha) as (nd' & Ha' & Eh & El & Er & _).
    apply (leaves_in_leaf _ _ a nd' Ha'); congruence.
  - destruct (Hext a nd Ha) as (nd' & Ha' & Eh & El & Er & _).
    apply (leaves_in_node _ _ a nd' l r Ha'); congruence.
Qed.

Lemma leaves_in_merge hs hashes H a b na nb :
  a <> b -> H !! a = Some na -> n_parent na = None ->
  H !! b = Some nb -> n_parent nb = None ->
  leaves_in H hashes a -> leaves_in H hashes b ->
  leaves_in (merge hs H a b) hashes (length H).
Proof.
  intros Hne Ha Hpa Hb Hpb Hina Hinb.
  pose proof (merge_extends hs H a b na nb Hne Ha Hpa Hb Hpb) as Hext.
  eapply leaves_in_node.
  - apply merge_lookup_new; by eapply lookup_lt_Some.
  - done.
  - done.
  - by eapply leaves_in_extends.
  - by eapply leaves_in_extends.
Qed.

Lemma built_leaves_in hs data H r :
  data <> [] -> (built hs data H).2 = [r] ->
  leaves_in (built hs data H).1
            ((fun x => HashLeaf hs (Bytes x)) <$> data) r.
Proof.
  intros Hne Hr.
  set (hashes := (fun x => HashLeaf hs (Bytes x)) <$> data).
  assert (Hext : forall H1 H2 a,
            leaves_in H1 hashes a -> extends H1 H2 -> leaves_in H2 hashes a)
    by (intros H1 H2 a; apply leaves_in_extends).
  assert (Hmerge : forall H1 a b na nb,
            a <> b -> H1 !! a = Some na -> n_parent na = None ->
            H1 !! b = Some nb -> n_parent nb = None ->
            leaves_in H1 hashes a -> leaves_in H1 hashes b ->
            leaves_in (merge hs H1 a b) hashes (length H1))
    by (intros H1 a b na nb; apply leaves_in_merge).
  apply (rounds_tops hs (seq (length H) (length data))
           (fun H1 a => leaves_in H1 hashes a) Hext Hmerge
           (length data) (seq (length H) (length data))
           (H ++ (leaf_node hs <$> data)) (initial_inv hs H data)).
  - intros t [Hlo Hhi]%elem_of_seq.
    destruct (lookup_lt_is_Some_2 data (t - length H)) as [y Hy]; [lia|].
    pose proof (leaves_lookup hs H data _ y Hy) as Ht.
    replace (length H + (t - length H)) with t in Ht by lia.
    eapply leaves_in_leaf; [exact Ht|done..|]. cbn.
    unfold hashes. apply list_elem_of_fmap. exists y. split; [done|].
    by eapply list_elem_of_lookup_2.
  - fold (built hs data H). rewrite Hr. apply list_elem_of_here.
Qed.

Lemma recompute_snoc_pair hs start pairs s d :
  recompute hs start (pairs ++ [(s, d)]) =
  if d then HashInternal hs s (recompute hs start pairs)
  else HashInternal hs (recompute hs start pairs) s.
Proof. unfold recompute. by rewrite fold_left_app. Qed.

Lemma accepted_hash_is_leaf hs H hashes x pairs :
  collision_free hs -> separated hs ->
  (forall h, h ∈ hashes -> exists b, h = HashLeaf hs b) ->
  forall a nd,
    valid hs H a -> leaves_in H hashes a -> H !! a = Some nd ->
    recompute hs (HashLeaf hs (Bytes x)) pairs = n_h nd ->
    HashLeaf hs (Bytes x) ∈ hashes.
Proof.
  intros Hcf Hsep Hrange.
  induction pairs as [|[s d] pairs IH] using rev_ind;
    intros a nd Hvalid Hleaves Ha Heq.
  - cbn in Heq. destruct Hleaves as [a nd' Ha' _ _ Hin | a nd' l r Ha' Hl Hr _ _].
    + assert (nd' = nd) as -> by congruence. by rewrite Heq.
    + exfalso. assert (nd' = nd) as -> by congruence.
      destruct Hvalid as [a nd' Ha'' Hl' _ | a nd' l' r' nl nr Ha'' _ _ _ _ Hh _ _];
        assert (nd' = nd) as -> by congruence; [congruence|].
      rewrite Hh in Heq. by apply Hsep in Heq.
  - rewrite recompute_snoc_pair in Heq.
    destruct Hvalid
      as [a nd' Ha' Hl Hr | a nd' l r nl nr Ha' Hl Hr Hnl Hnr Hh Hvl Hvr];
      assert (nd' = nd) as -> by congruence.
    + exfalso.
      destruct Hleaves as [a nd' Ha'' _ _ Hin | a nd' l r Ha'' Hl' _ _ _];
        assert (nd' = nd) as -> by congruence; [|congruence].
      destruct (Hrange _ Hin) as [b Hb]. rewrite Hb in Heq.
      destruct d; symmetry in Heq; by apply Hsep in Heq.
    + destruct Hleaves as [a nd' Ha'' Hl' _ _ | a nd' l' r' Ha'' Hl' Hr' Hinl Hinr];
        assert (nd' = nd) as -> by congruence; [congruence|].
      assert (l' = l) as -> by congruence.
      assert (r' = r) as -> by congruence.
      rewrite Hh in Heq. destruct d.
      * apply Hcf in Heq as [_ Heq]. by apply (IH r nr).
      * apply Hcf in Heq as [Heq _]. by apply (IH l nl).
Qed.

(** X10.  No false positives.  Under a collision-free strategy whose
    leaf hashes are never internal hashes: when [VerifyProof] accepts
    [x] with a proof, of whatever shape, whose recorded root is the
    [Root()] of a built tree, the leaf hash of [x] is the leaf hash of
    an item the tree was built from. *)
Theorem X10_accepted_proofs_are_sound (hs : HashStrategy)
    (data : list Leaf) (H : heap) (x : Leaf) (pr : MerkleProof) :
  collision_free hs -> separated hs ->
  data <> [] ->
  exists H' m root,
    buildMerkleTree data (Some hs) H = Done (H', Some m) /\
    MerkleTree_Root H' (Some m) = Done root /\
    (p_hashStrategy pr = Some hs -> p_root pr = root ->
     VerifyProof x (Some pr) = Done None ->
     exists y, y ∈ data /\ HashLeaf hs (Bytes y) = HashLeaf hs (Bytes x)).
Proof.
  intros Hcf Hsep Hne.
  destruct (buildMerkleTree_returns hs data H Hne)
    as (r & Hr & Hrun & HI & _).
  destruct (inv_top _ _ _ _ HI r) as (nr & Hnr & _);
    [apply list_elem_of_here|].
  eexists _, _, (n_h nr). split; [exact Hrun|]. split.
  { unfold MerkleTree_Root. cbn [m_root deref]. by rewrite Hnr. }
  intros Hhs Hroot Hok. unfold VerifyProof in Hok. rewrite Hhs in Hok.
  destruct (decide (length (p_siblings pr) ≠ length (p_left pr)))
    as [|Hlen]; [done|].
  apply dec_stable in Hlen.
  rewrite (proof_loop_spec hs (p_left pr) [] (p_siblings pr)) in Hok by done.
  cbn [mbind outcome_bind] in Hok. unfold bytes_Equal in Hok.
  destruct (decide (recompute hs (HashLeaf hs (Bytes x))
                      (combine (p_siblings pr) (p_left pr)) = p_root pr))
    as [Heq|Heq].
  2:{ by rewrite bool_decide_eq_false_2 in Hok. }
  rewrite Hroot in Heq.
  pose proof (accepted_hash_is_leaf hs (built hs data H).1
                ((fun x => HashLeaf hs (Bytes x)) <$> data) x
                (combine (p_siblings pr) (p_left pr)) Hcf Hsep) as Hsound.
  assert (Hrange : forall h,
            h ∈ (fun x => HashLeaf hs (Bytes x)) <$> data ->
            exists b, h = HashLeaf hs b).
  { intros h (y & -> & _)%list_elem_of_fmap. by exists (Bytes y). }
  assert (Hin : HashLeaf hs (Bytes x)
                ∈ (fun x => HashLeaf hs (Bytes x)) <$> data).
  { apply (Hsound Hrange r nr); [|by apply built_leaves_in|done|done].
    apply (inv_valid _ _ _ _ HI). apply list_elem_of_here. }
  apply list_elem_of_fmap in Hin as (y & Ey & Hy).
  exists y. by split.
Qed.

Lemma X10_accepted_proofs_are_sound_witness :
  collision_free framedStrategy /\ separated framedStrategy /\ abc <> [] /\
  exists H' m root,
    buildMerkleTree abc (Some framedStrategy) [] = Done (H', Some m) /\
    MerkleTree_Root H' (Some m) = Done root /\
    (p_hashStrategy (mkProof root [] [] (Some framedStrategy))
       = Some framedStrategy ->
     p_root (mkProof root [] [] (Some framedStrategy)) = root ->
     VerifyProof (TestLeaf "d") (Some (mkProof root [] [] (Some framedStrategy)))
       = Done None ->
     exists y, y ∈ abc /\
       HashLeaf framedStrategy (Bytes y)
       = HashLeaf framedStrategy (Bytes (TestLeaf "d"))).
Proof.
  assert (Hne : abc <> []) by (unfold abc; discriminate).
  split; [exact framedStrategy_collision_free|].
  split; [exact framedStrategy_separated|]. split; [exact Hne|].
  destruct (X10_accepted_proofs_are_sound framedStrategy abc []
              (TestLeaf "d") (mkProof (merkle_root framedStrategy abc) [] []
                                      (Some framedStrategy))
              framedStrategy_collision_free framedStrategy_separated Hne)
    as (H' & m & root & Hrun & Hroot & _).
  destruct (X10_accepted_proofs_are_sound framedStrategy abc []
              (TestLeaf "d") (mkProof root [] [] (Some framedStrategy))
              framedStrategy_collision_free framedStrategy_separated Hne)
    as (H'' & m' & root' & Hrun' & Hroot' & Hsound).
  rewrite Hrun in Hrun'. injection Hrun' as <- <-.
  rewrite Hroot in Hroot'. injection Hroot' as <-.
  exists H', m, root. split; [exact Hrun|]. split; [exact Hroot|].
  exact Hsound.
Defined.

(** ** A changed hash is found by [Verify] *)

Lemma tamper_lookup (H : heap) (a : addr) h' (y : addr) ny :
  H !! y = Some ny ->
  alter (with_hash h') a H !! y =
  Some (if decide (y = a) then with_hash h' ny else ny).
Proof.
  intros Hy. rewrite list_lookup_alter.
  destruct (decide (a = y)) as [->|Hne].
  - rewrite Hy. by destruct (decide (y = y)).
  - rewrite Hy. by destruct (decide (y = a)); [congruence|].
Qed.

Lemma tamper_grounded (H : heap) (a : addr) h' (y : addr) :
  grounded H y -> grounded (alter (with_hash h') a H) y.
Proof.
  induction 1 as [y nd Hy _ IHl _ IHr].
  apply (grounded_node _ y _ (tamper_lookup H a h' y nd Hy));
    destruct (decide (y = a)); cbn; auto.
Qed.

Lemma reach_internal hs (H : heap) (x a : addr) nd :
  valid hs H x -> reach H x a -> x <> a -> H !! x = Some nd ->
  n_left nd <> None /\ n_right nd <> None.
Proof.
  intros Hvalid Hreach Hne Hx.
  destruct Hvalid as [x nd' Hx' Hl Hr | x nd' l r nl nr Hx' Hl Hr _ _ _ _ _];
    assert (nd' = nd) as -> by congruence.
  - inversion Hreach; subst; congruence.
  - split; congruence.
Qed.

Lemma tamper_detected hs (H : heap) (a : addr) na h' :
  collision_free hs ->
  H !! a = Some na -> h' <> n_h na ->
  forall x nd,
    valid hs H x -> H !! x = Some nd -> n_left nd <> None ->
    reach H x a ->
    exists k, forall fuel, k <= fuel ->
      Node_verify fuel (alter (with_hash h') a H) hs (Some x) = Done false.
Proof.
  intros Hcf Ha Hh' x nd Hvalid. revert nd.
  induction Hvalid
    as [x nd0 Hx0 Hl0 _
       | x nd0 l r nl nr Hx0 Hl Hr Hnl Hnr Hh Hvl IHl Hvr IHr];
    intros nd Hx Hint Hreach;
    assert (nd0 = nd) as -> by congruence; [done|].
  (* a node that is its own child is dealt with by the hypothesis *)
  destruct (decide (l = x)) as [->|Hlx]; [by apply (IHl nd)|].
  destruct (decide (r = x)) as [->|Hrx].
  { apply (IHr nd); [done| |done]. congruence. }
  pose proof (tamper_lookup H a h' x nd Hx) as Hx2.
  pose proof (tamper_lookup H a h' l nl Hnl) as Hl2.
  pose proof (tamper_lookup H a h' r nr Hnr) as Hr2.
  assert (Hstep : forall fuel,
    Node_verify (S fuel) (alter (with_hash h') a H) hs (Some x) =
    if bytes_Equal (if decide (x = a) then h' else n_h nd)
         (HashInternal hs (if decide (l = a) then h' else n_h nl)
                          (if decide (r = a) then h' else n_h nr))
    then
      ok ← Node_verify fuel (alter (with_hash h') a H) hs (Some l);
      if ok : bool
      then Node_verify fuel (alter (with_hash h') a H) hs (Some r)
      else Done false
    else Done false).
  { intros fuel. cbn [Node_verify deref]. rewrite Hx2.
    cbn [mbind outcome_bind].
    assert (El : n_left (if decide (x = a) then with_hash h' nd else nd)
                 = Some l) by (by destruct (decide (x = a))).
    assert (Er : n_right (if decide (x = a) then with_hash h' nd else nd)
                 = Some r) by (by destruct (decide (x = a))).
    rewrite El, Er. cbn [deref]. rewrite Hl2, Hr2. cbn [mbind outcome_bind].
    by destruct (decide (x = a)), (decide (l = a)), (decide (r = a)). }
  destruct (decide (x = a)) as [->|Hxa].
  { (* the node itself was changed *)
    exists 1. intros [|fuel] Hfuel; [lia|]. rewrite Hstep.
    destruct (decide (l = a)); [done|]. destruct (decide (r = a)); [done|].
    assert (na = nd) as -> by congruence.
    unfold bytes_Equal. rewrite bool_decide_eq_false_2; [done|].
    by rewrite <- Hh. }
  destruct (decide (l = a)) as [->|Hla].
  { (* the left child was changed *)
    exists 1. intros [|fuel] Hfuel; [lia|]. rewrite Hstep.
    assert (na = nl) as -> by congruence.
    unfold bytes_Equal. rewrite bool_decide_eq_false_2; [done|].
    rewrite Hh. intros [Heq _]%Hcf. by apply Hh'. }
  destruct (decide (r = a)) as [->|Hra].
  { (* the right child was changed *)
    exists 1. intros [|fuel] Hfuel; [lia|]. rewrite Hstep.
    assert (na = nr) as -> by congruence.
    unfold bytes_Equal. rewrite bool_decide_eq_false_2; [done|].
    rewrite Hh. intros [_ Heq]%Hcf. by apply Hh'. }
  (* the change is further down *)
  assert (Hpass : bytes_Equal (n_h nd) (HashInternal hs (n_h nl) (n_h nr))
                  = true) by (by apply bool_decide_eq_true_2).
  destruct (Node_verify_grounded hs _ l
              (tamper_grounded H a h' l (valid_grounded hs H l Hvl)))
    as (bl & kl & Hrunl & _).
  inversion Hreach as [| ? nd' c ? Hnd' Hc Hrest | ? nd' c ? Hnd' Hc Hrest];
    subst; [done| |];
    assert (nd' = nd) as -> by congruence.
  - assert (c = l) as -> by congruence.
    destruct (reach_internal hs H l a nl Hvl Hrest Hla Hnl) as [Hil _].
    destruct (IHl nl Hnl Hil Hrest) as [k Hk].
    exists (S k). intros [|fuel] Hfuel; [lia|]. rewrite Hstep, Hpass.
    rewrite Hk by lia. done.
  - assert (c = r) as -> by congruence.
    destruct (reach_internal hs H r a nr Hvr Hrest Hra Hnr) as [Hir _].
    destruct (IHr nr Hnr Hir Hrest) as [k Hk].
    exists (S (kl `max` k)). intros [|fuel] Hfuel; [lia|].
    rewrite Hstep, Hpass. rewrite Hrunl by lia. cbn [mbind outcome_bind].
    destruct bl; [|done]. apply Hk. lia.
Qed.

Lemma reach_extends (H H' : heap) (x d : addr) :
  extends H H' -> reach H x d -> reach H' x d.
Proof.
  intros Hext. induction 1 as [x | x nd c d Hx Hc _ IH | x nd c d Hx Hc _ IH].
  - apply reach_refl.
  - destruct (Hext x nd Hx) as (nd' & Hx' & _ & El & _).
    apply (reach_left H' x nd' c d Hx'); [congruence|done].
  - destruct (Hext x nd Hx) as (nd' & Hx' & _ & _ & Er & _).
    apply (reach_right H' x nd' c d Hx'); [congruence|done].
Qed.

Lemma path_top_internal (H : heap) (p t : addr) sibs dirs :
  path H p t sibs dirs -> p <> t ->
  exists nt, H !! t = Some nt /\ n_left nt <> None.
Proof.
  induction 1 as [p | p q t nd pn r nr sibs dirs Hp Hpar Hq Hl Hr Hnr _ IH
                    | p q t nd pn l nl sibs dirs Hp Hpar Hq Hnl Hl Hl' _ IH];
    intros Hne; [done| |].
  - destruct (decide (q = t)) as [->|Hqt]; [|by apply IH].
    exists pn. split; [done|congruence].
  - destruct (decide (q = t)) as [->|Hqt]; [|by apply IH].
    exists pn. split; [done|congruence].
Qed.

Section Reached.
Context (hs : HashStrategy) (L : list addr).

Lemma merge_reached H pre a b rest :
  inv hs H L (pre ++ a :: b :: rest) ->
  reached H L (pre ++ a :: b :: rest) ->
  reached (merge hs H a b) L (pre ++ length H :: rest).
Proof.
  intros HI Hre.
  pose proof (merge_inv_extends hs L H pre a b rest HI) as Hext.
  assert (Hla : a < length H).
  { destruct (inv_top _ _ _ _ HI a) as (na & Hna & _); [set_solver|].
    by eapply lookup_lt_Some. }
  assert (Hlb : b < length H).
  { destruct (inv_top _ _ _ _ HI b) as (nb & Hnb & _); [set_solver|].
    by eapply lookup_lt_Some. }
  pose proof (merge_lookup_new hs H a b Hla Hlb) as Hq.
  intros l Hl. destruct (Hre l Hl) as (t & Ht & Hreach).
  pose proof (reach_extends _ _ _ _ Hext Hreach) as Hreach'.
  destruct (decide (t = a)) as [->|Hta]; [|destruct (decide (t = b)) as [->|Htb]].
  - exists (length H). split; [set_solver|].
    by eapply reach_left; [exact Hq|..].
  - exists (length H). split; [set_solver|].
    by eapply reach_right; [exact Hq|..].
  - exists t. split; [set_solver|done].
Qed.

Lemma pair_up_reached lvl : forall pre H,
  inv hs H L (pre ++ lvl) ->
  reached H L (pre ++ lvl) ->
  reached (pair_up hs H lvl).1 L (pre ++ (pair_up hs H lvl).2 ++ leftover lvl).
Proof.
  induction lvl as [|a|a b lvl IH] using pair_ind; intros pre H HI Hre.
  - done.
  - done.
  - pose proof (merge_inv _ _ _ _ _ _ _ HI) as HI'.
    pose proof (merge_reached _ _ _ _ _ HI Hre) as Hre'.
    replace (pre ++ length H :: lvl) with ((pre ++ [length H]) ++ lvl)
      in HI', Hre' by (by rewrite <- app_assoc).
    specialize (IH _ _ HI' Hre').
    cbn [pair_up leftover].
    destruct (pair_up hs (merge hs H a b) lvl) as [H' ps].
    cbn [fst snd] in *. by rewrite <- app_assoc in IH.
Qed.

Lemma rounds_reached fuel : forall lvl H,
  inv hs H L lvl -> reached H L lvl ->
  reached (rounds fuel hs H lvl).1 L (rounds fuel hs H lvl).2.
Proof.
  induction fuel as [|fuel IH]; intros lvl H HI Hre; [done|].
  cbn [rounds]. destruct (decide (1 < length lvl)) as [Hlong|Hshort]; [|done].
  pose proof (pair_up_reached lvl [] H HI Hre) as Hre'.
  destruct (pair_up_inv hs L lvl [] H HI) as [HI' _].
  destruct (pair_up hs H lvl) as [H' ps]. cbn [fst snd app] in *.
  by apply IH.
Qed.
End Reached.

Lemma built_reached hs data H :
  reached (built hs data H).1 (seq (length H) (length data))
          (built hs data H).2.
Proof.
  apply rounds_reached; [apply initial_inv|].
  intros l Hl. exists l. split; [done|apply reach_refl].
Qed.

Lemma built_tamper hs data (H : heap) r a na h' :
  collision_free hs -> 2 <= length data ->
  (built hs data H).2 = [r] ->
  inv hs (built hs data H).1 (seq (length H) (length data)) [r] ->
  reach (built hs data H).1 r a -> (built hs data H).1 !! a = Some na ->
  h' <> n_h na ->
  exists k, forall fuel, k <= fuel ->
    Node_verify fuel (alter (with_hash h') a (built hs data H).1) hs (Some r)
    = Done false.
Proof.
  intros Hcf Hlen Hr HI Ha Hna Hh'.
  assert (Hvalid : valid hs (built hs data H).1 r)
    by (apply (inv_valid _ _ _ _ HI); apply list_elem_of_here).
  (* the root has children: one of the first two leaves is not the root *)
  assert (exists l, l ∈ seq (length H) (length data) /\ l <> r)
    as (l & Hl & Hlr).
  { destruct (decide (length H = r)) as [Heq|Hneq].
    - exists (S (length H)). split; [apply elem_of_seq; lia|lia].
    - exists (length H). split; [apply elem_of_seq; lia|done]. }
  destruct (inv_path _ _ _ _ HI l Hl)
    as (t & sibs & dirs & nl & nt & Ht & Hp & _).
  apply list_elem_of_singleton in Ht as ->.
  destruct (path_top_internal _ _ _ _ _ Hp Hlr) as (nr & Hnr & Hleft).
  exact (tamper_detected hs _ a na h' Hcf Hna Hh' r nr Hvalid Hnr Hleft Ha).
Qed.

(** X11.  [Verify()] finds every changed hash.  Take a tree built from
    two or more items under a strategy whose [HashInternal] is free of
    collisions: every leaf node is in the graph under the root, and
    overwriting the hash stored in any node of that graph (the root, an
    inner node or a leaf) with a different value makes [Verify()]
    return false. *)
Theorem X11_Verify_detects_changed_hash (hs : HashStrategy)
    (data : list Leaf) (H : heap) :
  collision_free hs -> 2 <= length data ->
  exists H' m r,
    buildMerkleTree data (Some hs) H = Done (H', Some m) /\
    m_root m = Some r /\
    (forall l, l ∈ m_leaves m -> exists a, l = Some a /\ reach H' r a) /\
    forall a na h',
      reach H' r a -> H' !! a = Some na -> h' <> n_h na ->
      exists k, forall fuel, k <= fuel ->
        MerkleTree_Verify fuel (alter (with_hash h') a H') (Some m)
        = Done false.
Proof.
  intros Hcf Hlen.
  assert (Hne : data <> []) by (intros ->; simpl in Hlen; lia).
  destruct (buildMerkleTree_returns hs data H Hne)
    as (r & Hr & Hrun & HI & _).
  eexists _, _, r. split; [exact Hrun|]. cbn [m_root m_leaves].
  split; [done|].
  pose proof (built_reached hs data H) as Hre. rewrite Hr in Hre.
  split.
  { intros l (a & -> & Ha)%list_elem_of_fmap. exists a. split; [done|].
    destruct (Hre a Ha) as (t & Ht & Hreach).
    by apply list_elem_of_singleton in Ht as ->. }
  intros a na h' Ha Hna Hh'.
  destruct (built_tamper hs data H r a na h' Hcf Hlen Hr HI Ha Hna Hh')
    as [k Hk].
  exists k. intros fuel Hfuel. unfold MerkleTree_Verify.
  cbn [m_root m_hashStrategy]. by apply Hk.
Qed.

Lemma X11_Verify_detects_changed_hash_witness :
  collision_free framedStrategy /\ 2 <= length abc /\
  exists H' m r,
    buildMerkleTree abc (Some framedStrategy) [] = Done (H', Some m) /\
    m_root m = Some r /\
    (forall l, l ∈ m_leaves m -> exists a, l = Some a /\ reach H' r a) /\
    forall a na h',
      reach H' r a -> H' !! a = Some na -> h' <> n_h na ->
      exists k, forall fuel, k <= fuel ->
        MerkleTree_Verify fuel (alter (with_hash h') a H') (Some m)
        = Done false.
Proof.
  assert (Hlen : 2 <= length abc) by (unfold abc; cbn [length]; lia).
  split; [exact framedStrategy_collision_free|]. split; [exact Hlen|].
  exact (X11_Verify_detects_changed_hash framedStrategy abc []
           framedStrategy_collision_free Hlen).
Defined.

(** ** The items of a tree, left to right *)

Lemma covers_extends hs (H H' : heap) (a : addr) xs :
  extends H H' -> covers hs H a xs -> covers hs H' a xs.
Proof.
  intros Hext.
  induction 1 as [a nd x Ha Hl Hr Hh
                 | a nd l r nl nr xl xr Ha Hl Hr Hnl Hnr Hh _ IHl _ IHr].
  - destruct (Hext a nd Ha) as (nd' & Ha' & Eh & El & Er & _).
    apply (covers_leaf hs H' a nd' x Ha'); congruence.
  - destruct (Hext a nd Ha) as (nd' & Ha' & Eh & El & Er & _).
    destruct (Hext l nl Hnl) as (nl' & Hnl' & Ehl & _).
    destruct (Hext r nr Hnr) as (nr' & Hnr' & Ehr & _).
    apply (covers_node hs H' a nd' l r nl' nr' xl xr Ha'); congruence.
Qed.

Section Covering.
Context (hs : HashStrategy) (L : list addr).

Lemma merge_covering H pre a b rest xs :
  inv hs H L (pre ++ a :: b :: rest) ->
  covering hs H (pre ++ a :: b :: rest) xs ->
  covering hs (merge hs H a b) (pre ++ length H :: rest) xs.
Proof.
  intros HI (xss & Hall & Hcat).
  pose proof (merge_inv_extends hs L H pre a b rest HI) as Hext.
  pose proof (inv_nodup _ _ _ _ HI) as Hnd.
  apply NoDup_app in Hnd as (_ & _ & Hnd2).
  apply NoDup_cons in Hnd2 as (Hab & _).
  assert (Hne : a <> b) by set_solver.
  destruct (inv_top _ _ _ _ HI a) as (na & Hna & _); [set_solver|].
  destruct (inv_top _ _ _ _ HI b) as (nb & Hnb & _); [set_solver|].
  assert (Hla : a < length H) by (by eapply lookup_lt_Some).
  assert (Hlb : b < length H) by (by eapply lookup_lt_Some).
  apply Forall2_app_inv_l in Hall as (xs1 & xs2 & Hpre & Hrest & ->).
  apply Forall2_cons_inv_l in Hrest as (xa & xs3 & Hca & Hrest & ->).
  apply Forall2_cons_inv_l in Hrest as (xb & xs4 & Hcb & Hrest & ->).
  exists (xs1 ++ (xa ++ xb) :: xs4). split.
  - apply Forall2_app; [|constructor].
    + eapply Forall2_impl; [exact Hpre|]. intros t ys.
      by apply covers_extends.
    + eapply covers_node.
      * by apply merge_lookup_new.
      * done.
      * done.
      * by apply merge_lookup_left.
      * by apply merge_lookup_right.
      * cbn. unfold hash_at. by rewrite Hna, Hnb.
      * by eapply covers_extends.
      * by eapply covers_extends.
    + eapply Forall2_impl; [exact Hrest|]. intros t ys.
      by apply covers_extends.
  - rewrite <- Hcat. rewrite !concat_app. cbn [concat].
    by rewrite <- !app_assoc.
Qed.

Lemma pair_up_covering lvl : forall pre H xs,
  inv hs H L (pre ++ lvl) ->
  covering hs H (pre ++ lvl) xs ->
  covering hs (pair_up hs H lvl).1
           (pre ++ (pair_up hs H lvl).2 ++ leftover lvl) xs.
Proof.
  induction lvl as [|a|a b lvl IH] using pair_ind; intros pre H xs HI Hc.
  - done.
  - done.
  - pose proof (merge_inv _ _ _ _ _ _ _ HI) as HI'.
    pose proof (merge_covering _ _ _ _ _ _ HI Hc) as Hc'.
    replace (pre ++ length H :: lvl) with ((pre ++ [length H]) ++ lvl)
      in HI', Hc' by (by rewrite <- app_assoc).
    specialize (IH _ _ _ HI' Hc').
    cbn [pair_up leftover].
    destruct (pair_up hs (merge hs H a b) lvl) as [H' ps].
    cbn [fst snd] in *. by rewrite <- app_assoc in IH.
Qed.

Lemma rounds_covering fuel : forall lvl H xs,
  inv hs H L lvl -> covering hs H lvl xs ->
  covering hs (rounds fuel hs H lvl).1 (rounds fuel hs H lvl).2 xs.
Proof.
  induction fuel as [|fuel IH]; intros lvl H xs HI Hc; [done|].
  cbn [rounds]. destruct (decide (1 < length lvl)) as [Hlong|Hshort]; [|done].
  pose proof (pair_up_covering lvl [] H xs HI Hc) as Hc'.
  destruct (pair_up_inv hs L lvl [] H HI) as [HI' _].
  destruct (pair_up hs H lvl) as [H' ps]. cbn [fst snd app] in *.
  by apply IH.
Qed.
End Covering.

Lemma initial_covering hs (H : heap) data :
  covering hs (H ++ (leaf_node hs <$> data))
           (seq (length H) (length data)) data.
Proof.
  exists ((fun x => [x]) <$> data). split.
  - apply Forall2_fmap_r, Forall2_same_length_lookup. split.
    + by rewrite length_seq.
    + intros i t x Ht Hx. apply lookup_seq in Ht as [-> _].
      eapply covers_leaf; [by apply leaves_lookup|done..].
  - induction data as [|x data IH]; [done|]. cbn. by rewrite IH.
Qed.

Lemma built_covers hs data (H : heap) r :
  (built hs data H).2 = [r] -> covers hs (built hs data H).1 r data.
Proof.
  intros Hr.
  pose proof (rounds_covering hs _ (length data) _ _ data
                (initial_inv hs H data) (initial_covering hs H data)) as Hc.
  fold (built hs data H) in Hc. rewrite Hr in Hc.
  destruct Hc as (xss & Hall & Hcat).
  apply Forall2_cons_inv_l in Hall as (xs & xss' & Hc & Hnil & ->).
  apply Forall2_nil_inv_l in Hnil as ->.
  cbn in Hcat. rewrite app_nil_r in Hcat. by subst xs.
Qed.

Lemma covers_same_hash hs (H1 H2 : heap) :
  collision_free hs -> separated hs ->
  forall a xs, covers hs H1 a xs ->
  forall b ys, covers hs H2 b ys ->
    hash_at H1 a = hash_at H2 b ->
    (fun x => HashLeaf hs (Bytes x)) <$> xs
    = (fun x => HashLeaf hs (Bytes x)) <$> ys.
Proof.
  intros Hcf Hsep a xs Hca.
  induction Hca as [a nd x Ha Hl Hr Hh
                   | a nd l r nl nr xl xr Ha Hl Hr Hnl Hnr Hh _ IHl _ IHr];
    intros b ys Hcb Heq;
    destruct Hcb as [b nd' y Hb Hl' Hr' Hh'
                    | b nd' l' r' nl' nr' yl yr Hb Hl' Hr' Hnl' Hnr' Hh' Hcl Hcr];
    unfold hash_at in Heq; rewrite Ha, Hb in Heq.
  - cbn. congruence.
  - exfalso. apply (Hsep (Bytes x) (n_h nl') (n_h nr')). congruence.
  - exfalso. apply (Hsep (Bytes y) (n_h nl) (n_h nr)). congruence.
  - assert (Hpair : HashInternal hs (n_h nl) (n_h nr)
                    = HashInternal hs (n_h nl') (n_h nr')) by congruence.
    apply Hcf in Hpair as [Ehl Ehr]. rewrite !fmap_app. f_equal.
    + apply (IHl l' yl Hcl). unfold hash_at. by rewrite Hnl, Hnl'.
    + apply (IHr r' yr Hcr). unfold hash_at. by rewrite Hnr, Hnr'.
Qed.

(** X12.  The tree that [buildMerkleTree] returns is a hash tree over
    the items in input order: under the root, every node without
    children stores the leaf hash of one item, every other node has two
    children and stores the internal hash of their hashes, and the
    leaves read left to right are the input. *)
Theorem X12_tree_covers_items_in_order (hs : HashStrategy)
    (data : list Leaf) (H : heap) :
  data <> [] ->
  exists H' m r,
    buildMerkleTree data (Some hs) H = Done (H', Some m) /\
    m_root m = Some r /\ covers hs H' r data.
Proof.
  intros Hne.
  destruct (buildMerkleTree_returns hs data H Hne) as (r & Hr & Hrun & _).
  eexists _, _, r. split; [exact Hrun|]. split; [done|].
  by apply built_covers.
Qed.

Lemma X12_tree_covers_items_in_order_witness :
  abc <> [] /\
  exists H' m r,
    buildMerkleTree abc (Some defaultHashStrategy) [] = Done (H', Some m) /\
    m_root m = Some r /\ covers defaultHashStrategy H' r abc.
Proof.
  assert (Hne : abc <> []) by (unfold abc; discriminate).
  split; [exact Hne|].
  exact (X12_tree_covers_items_in_order defaultHashStrategy abc [] Hne).
Defined.

(** X13.  The root commits to the items.  Under a strategy whose
    internal hash has no collisions and never equals a leaf hash, two
    inputs (of any lengths) whose trees have the same [Root()] have the
    same leaf hashes in the same order. *)
Theorem X13_root_commits_to_items (hs : HashStrategy)
    (d1 d2 : list Leaf) (H1 H2 : heap) :
  collision_free hs -> separated hs -> d1 <> [] -> d2 <> [] ->
  exists H1' m1 H2' m2,
    buildMerkleTree d1 (Some hs) H1 = Done (H1', Some m1) /\
    buildMerkleTree d2 (Some hs) H2 = Done (H2', Some m2) /\
    (MerkleTree_Root H1' (Some m1) = MerkleTree_Root H2' (Some m2) ->
     (fun x => HashLeaf hs (Bytes x)) <$> d1
     = (fun x => HashLeaf hs (Bytes x)) <$> d2).
Proof.
  intros Hcf Hsep Hne1 Hne2.
  destruct (buildMerkleTree_returns hs d1 H1 Hne1)
    as (r1 & Hr1 & Hrun1 & HI1 & _).
  destruct (buildMerkleTree_returns hs d2 H2 Hne2)
    as (r2 & Hr2 & Hrun2 & HI2 & _).
  eexists _, _, _, _. split; [exact Hrun1|]. split; [exact Hrun2|].
  destruct (inv_top _ _ _ _ HI1 r1) as (n1 & Hn1 & _);
    [apply list_elem_of_here|].
  destruct (inv_top _ _ _ _ HI2 r2) as (n2 & Hn2 & _);
    [apply list_elem_of_here|].
  unfold MerkleTree_Root. cbn [m_root deref]. rewrite Hn1, Hn2.
  cbn [mbind outcome_bind mret outcome_ret]. intros Heq.
  apply (covers_same_hash hs _ _ Hcf Hsep r1 d1 (built_covers hs d1 H1 r1 Hr1)
           r2 d2 (built_covers hs d2 H2 r2 Hr2)).
  unfold hash_at. rewrite Hn1, Hn2. congruence.
Qed.

Lemma X13_root_commits_to_items_witness :
  collision_free framedStrategy /\ separated framedStrategy /\
  abc <> [] /\ aba <> [] /\
  exists H1' m1 H2' m2,
    buildMerkleTree abc (Some framedStrategy) [] = Done (H1', Some m1) /\
    buildMerkleTree aba (Some framedStrategy) [] = Done (H2', Some m2) /\
    (MerkleTree_Root H1' (Some m1) = MerkleTree_Root H2' (Some m2) ->
     (fun x => HashLeaf framedStrategy (Bytes x)) <$> abc
     = (fun x => HashLeaf framedStrategy (Bytes x)) <$> aba).
Proof.
  assert (Hne1 : abc <> []) by (unfold abc; discriminate).
  assert (Hne2 : aba <> []) by (unfold aba; discriminate).
  split; [exact framedStrategy_collision_free|].
  split; [exact framedStrategy_separated|].
  split; [exact Hne1|]. split; [exact Hne2|].
  exact (X13_root_commits_to_items framedStrategy abc aba [] []
           framedStrategy_collision_free framedStrategy_separated Hne1 Hne2).
Defined.

(** ** Queries on a changed tree *)

Lemma tamper_live (H : heap) (a : addr) h' l :
  live H l -> live (alter (with_hash h') a H) l.
Proof.
  intros (b & nd & -> & Hnd). eexists b, _. split; [done|].
  by apply tamper_lookup.
Qed.

(** X14.  No proof comes out of a changed tree.  Take a tree built from
    two or more items under a strategy whose [HashInternal] is free of
    collisions, and overwrite the hash stored in any node under the
    root with a different value: for every item, member or not,
    [VerifyExists] returns an error and [Proof] returns no proof and
    the same error, which is "not in tree" or "unable to verify tree". *)
Theorem X14_changed_tree_gives_no_proof (hs : HashStrategy)
    (data : list Leaf) (H : heap) (x : Leaf) :
  collision_free hs -> 2 <= length data ->
  exists H' m r,
    buildMerkleTree data (Some hs) H = Done (H', Some m) /\
    m_root m = Some r /\
    forall a na h',
      reach H' r a -> H' !! a = Some na -> h' <> n_h na ->
      exists node e k,
        (e = errors_New "not in tree" \/
         e = errors_New "unable to verify tree") /\
        forall fuel, k <= fuel ->
          MerkleTree_VerifyExists fuel (alter (with_hash h') a H') (Some m) x
            = Done (node, Some e) /\
          MerkleTree_Proof fuel (alter (with_hash h') a H') (Some m) x
            = Done (None, Some e).
Proof.
  intros Hcf Hlen.
  assert (Hne : data <> []) by (intros ->; simpl in Hlen; lia).
  destruct (buildMerkleTree_returns hs data H Hne)
    as (r & Hr & Hrun & HI & _).
  eexists _, _, r. split; [exact Hrun|]. cbn [m_root]. split; [done|].
  intros a na h' Ha Hna Hh'.
  destruct (built_tamper hs data H r a na h' Hcf Hlen Hr HI Ha Hna Hh')
    as [k Hk].
  set (H2 := alter (with_hash h') a (built hs data H).1) in *.
  assert (Hlive : Forall (live H2) (Some <$> seq (length H) (length data))).
  { eapply Forall_impl; [exact (built_live hs data H Hne)|].
    intros l. apply tamper_live. }
  pose proof (scan_leaves_spec H2 (HashLeaf hs (Bytes x)) _ (false, None)
                Hlive) as Hscan.
  destruct (last (List.filter (matches H2 (HashLeaf hs (Bytes x)))
                    (Some <$> seq (length H) (length data))))
    as [l|] eqn:Hlast.
  - exists l, (errors_New "unable to verify tree"), k.
    split; [by right|]. intros fuel Hfuel.
    assert (Hve : MerkleTree_VerifyExists fuel H2
              (Some (mkTree (Some r)
                 (bump (length data - 1) (Z.of_nat (length data)))
                 (Some <$> seq (length H) (length data)) (Some hs))) x
              = Done (l, Some (errors_New "unable to verify tree"))).
    { unfold MerkleTree_VerifyExists, the_strategy.
      cbn [m_hashStrategy m_leaves mbind outcome_bind].
      rewrite Hscan. cbn [mbind outcome_bind negb].
      unfold MerkleTree_Verify. cbn [m_root m_hashStrategy].
      rewrite (Hk fuel Hfuel). done. }
    split; [exact Hve|].
    unfold MerkleTree_Proof. rewrite Hve. done.
  - exists None, (errors_New "not in tree"), 0.
    split; [by left|]. intros fuel _.
    assert (Hve : MerkleTree_VerifyExists fuel H2
              (Some (mkTree (Some r)
                 (bump (length data - 1) (Z.of_nat (length data)))
                 (Some <$> seq (length H) (length data)) (Some hs))) x
              = Done (None, Some (errors_New "not in tree"))).
    { unfold MerkleTree_VerifyExists, the_strategy.
      cbn [m_hashStrategy m_leaves mbind outcome_bind].
      rewrite Hscan. done. }
    split; [exact Hve|].
    unfold MerkleTree_Proof. rewrite Hve. done.
Qed.

Lemma X14_changed_tree_gives_no_proof_witness :
  collision_free framedStrategy /\ 2 <= length abc /\
  exists H' m r,
    buildMerkleTree abc (Some framedStrategy) [] = Done (H', Some m) /\
    m_root m = Some r /\
    forall a na h',
      reach H' r a -> H' !! a = Some na -> h' <> n_h na ->
      exists node e k,
        (e = errors_New "not in tree" \/
         e = errors_New "unable to verify tree") /\
        forall fuel, k <= fuel ->
          MerkleTree_VerifyExists fuel (alter (with_hash h') a H') (Some m)
              (TestLeaf "a")
            = Done (node, Some e) /\
          MerkleTree_Proof fuel (alter (with_hash h') a H') (Some m)
              (TestLeaf "a")
            = Done (None, Some e).
Proof.
  assert (Hlen : 2 <= length abc) by (unfold abc; cbn [length]; lia).
  split; [exact framedStrategy_collision_free|]. split; [exact Hlen|].
  exact (X14_changed_tree_gives_no_proof framedStrategy abc []
           (TestLeaf "a") framedStrategy_collision_free Hlen).
Defined.

(** ** The outcomes of the builder *)

(** X15.  What [BuildMerkleTreeWithHashStrategy] does on every input:
    without items it returns the nil tree and leaves the store alone,
    nil strategy or not; with items and a nil strategy the first call
    of [hash.HashLeaf] panics; with items and a strategy it returns a
    tree that has a root node, keeps the strategy and has one leaf
    pointer per item.  No other outcome exists: no index is out of
    range and the level loop ends. *)
Theorem X15_builder_outcomes (data : list Leaf)
    (hash : option HashStrategy) (H : heap) :
  match data, hash with
  | [], _ => BuildMerkleTreeWithHashStrategy data hash H = Done (H, None)
  | _ :: _, None => BuildMerkleTreeWithHashStrategy data hash H = Panics
  | _ :: _, Some hs =>
      exists H' m r,
        BuildMerkleTreeWithHashStrategy data hash H = Done (H', Some m) /\
        m_root m = Some r /\ is_Some (H' !! r) /\
        m_hashStrategy m = Some hs /\
        length (m_leaves m) = length data
  end.
Proof.
  destruct data as [|x data]; [done|]. destruct hash as [hs|]; [|done].
  destruct (buildMerkleTree_returns hs (x :: data) H)
    as (r & Hr & Hrun & HI & _); [done|].
  eexists _, _, r. split; [exact Hrun|]. cbn [m_root m_hashStrategy m_leaves].
  split; [done|]. split; [|split; [done|]].
  - destruct (inv_top _ _ _ _ HI r) as (nr & Hnr & _);
      [apply list_elem_of_here|]. by exists nr.
  - by rewrite length_fmap, length_seq.
Qed.

(** * The first version *)

Lemma V1_Node_verify_eq fuel : forall (H : heap) (n : ptr),
  V1.Node_verify fuel H n = Node_verify fuel H V1.hashing n.
Proof.
  induction fuel as [|fuel IH]; intros H n; [done|].
  cbn [V1.Node_verify Node_verify].
  destruct (deref H n) as [nd| |]; [|done..]. cbn [mbind outcome_bind].
  destruct (n_left nd) as [l|], (n_right nd) as [r|]; [|done..].
  destruct (deref H (Some l)) as [nl| |]; [|done..].
  destruct (deref H (Some r)) as [nr| |]; [|done..].
  cbn [mbind outcome_bind]. by rewrite !IH.
Qed.

Lemma V1_BuildMerkleTree_returns data (H : heap) :
  data <> [] ->
  exists r,
    (built V1.hashing data H).2 = [r] /\
    V1.BuildMerkleTree data H =
      Done ((built V1.hashing data H).1,
            Some (V1.mkTree (Some r)
                    (bump (length data - 1) (Z.of_nat (length data)))
                    (Some <$> seq (length H) (length data)))) /\
    inv V1.hashing (built V1.hashing data H).1
        (seq (length H) (length data)) [r].
Proof.
  intros Hne.
  destruct (buildMerkleTree_returns V1.hashing data H Hne)
    as (r & Hr & Hrun & HI & _).
  exists r. split; [done|]. split; [|done].
  unfold buildMerkleTree in Hrun. unfold V1.BuildMerkleTree.
  destruct (decide (length data = 0)) as [|_]; [done|].
  cbn [the_strategy mbind outcome_bind] in Hrun.
  destruct (leaf_loop V1.hashing data 0 (H, replicate (length data) None))
    as [H1 level].
  destruct (level_loop (length level) V1.hashing
              (H1, level, Z.of_nat (length level)))
    as [[[H2 level'] n']| |]; [|done..].
  cbn [mbind outcome_bind] in *.
  destruct (index level' 0) as [root| |]; [|done..].
  cbn [mbind outcome_bind] in *. by injection Hrun as -> -> -> ->.
Qed.

Lemma linked_extends hs (H H' : heap) (p t : addr) :
  extends H H' -> linked hs H p t -> linked hs H' p t.
Proof.
  intros Hext.
  induction 1 as [a | p q t nd pn l r nl nr Hp Hpq Hq Hl Hr Hnl Hnr Hh Hc _ IH].
  - apply linked_here.
  - destruct (Hext p nd Hp) as (nd' & Hp' & _ & _ & _ & Epar).
    destruct (Hext q pn Hq) as (pn' & Hq' & Eh & El & Er & _).
    destruct (Hext l nl Hnl) as (nl' & Hnl' & Ehl & _).
    destruct (Hext r nr Hnr) as (nr' & Hnr' & Ehr & _).
    apply (linked_step hs H' p q t nd' pn' l r nl' nr'); try congruence.
    rewrite Epar; congruence.
Qed.

Lemma linked_trans hs (H : heap) (p t u : addr) :
  linked hs H p t -> linked hs H t u -> linked hs H p u.
Proof.
  induction 1 as [a | p q t nd pn l r nl nr Hp Hpq Hq Hl Hr Hnl Hnr Hh Hc _ IH];
    [done|].
  intros Htu. by eapply linked_step; eauto.
Qed.

Section Linked.
Context (hs : HashStrategy) (L : list addr).

Lemma merge_linked H pre a b rest :
  inv hs H L (pre ++ a :: b :: rest) ->
  all_linked hs H L (pre ++ a :: b :: rest) ->
  all_linked hs (merge hs H a b) L (pre ++ length H :: rest).
Proof.
  intros HI Hall.
  pose proof (merge_inv_extends hs L H pre a b rest HI) as Hext.
  pose proof (inv_nodup _ _ _ _ HI) as Hnd.
  apply NoDup_app in Hnd as (_ & _ & Hnd2).
  apply NoDup_cons in Hnd2 as (Hab & _).
  assert (Hne : a <> b) by set_solver.
  destruct (inv_top _ _ _ _ HI a) as (na & Hna & _); [set_solver|].
  destruct (inv_top _ _ _ _ HI b) as (nb & Hnb & _); [set_solver|].
  assert (Hla : a < length H) by (by eapply lookup_lt_Some).
  assert (Hlb : b < length H) by (by eapply lookup_lt_Some).
  pose proof (merge_lookup_new hs H a b Hla Hlb) as Hq.
  pose proof (merge_lookup_left hs H a b na Hne Hna) as Ha'.
  pose proof (merge_lookup_right hs H a b nb Hne Hnb) as Hb'.
  assert (Hup : forall c, c = a \/ c = b ->
            linked hs (merge hs H a b) c (length H)).
  { intros c Hc.
    assert (exists nc, merge hs H a b !! c
                       = Some (with_parent (Some (length H)) nc))
      as [nc Hnc] by (destruct Hc as [->| ->]; eauto).
    eapply (linked_step hs _ c (length H) (length H));
      [exact Hnc|done|exact Hq|done|done|exact Ha'|exact Hb'| |done
      |apply linked_here].
    cbn. unfold hash_at. by rewrite Hna, Hnb. }
  intros l Hl. destruct (Hall l Hl) as (t & Ht & Hlink).
  pose proof (linked_extends _ _ _ _ _ Hext Hlink) as Hlink'.
  destruct (decide (t = a)) as [->|Hta]; [|destruct (decide (t = b)) as [->|Htb]].
  - exists (length H). split; [set_solver|].
    eapply linked_trans; [exact Hlink'|]. apply Hup. by left.
  - exists (length H). split; [set_solver|].
    eapply linked_trans; [exact Hlink'|]. apply Hup. by right.
  - exists t. split; [set_solver|done].
Qed.

Lemma pair_up_linked lvl : forall pre H,
  inv hs H L (pre ++ lvl) ->
  all_linked hs H L (pre ++ lvl) ->
  all_linked hs (pair_up hs H lvl).1 L
             (pre ++ (pair_up hs H lvl).2 ++ leftover lvl).
Proof.
  induction lvl as [|a|a b lvl IH] using pair_ind; intros pre H HI Hall.
  - done.
  - done.
  - pose proof (merge_inv _ _ _ _ _ _ _ HI) as HI'.
    pose proof (merge_linked _ _ _ _ _ HI Hall) as Hall'.
    replace (pre ++ length H :: lvl) with ((pre ++ [length H]) ++ lvl)
      in HI', Hall' by (by rewrite <- app_assoc).
    specialize (IH _ _ HI' Hall').
    cbn [pair_up leftover].
    destruct (pair_up hs (merge hs H a b) lvl) as [H' ps].
    cbn [fst snd] in *. by rewrite <- app_assoc in IH.
Qed.

Lemma rounds_linked fuel : forall lvl H,
  inv hs H L lvl -> all_linked hs H L lvl ->
  all_linked hs (rounds fuel hs H lvl).1 L (rounds fuel hs H lvl).2.
Proof.
  induction fuel as [|fuel IH]; intros lvl H HI Hall; [done|].
  cbn [rounds]. destruct (decide (1 < length lvl)) as [Hlong|Hshort]; [|done].
  pose proof (pair_up_linked lvl [] H HI Hall) as Hall'.
  destruct (pair_up_inv hs L lvl [] H HI) as [HI' _].
  destruct (pair_up hs H lvl) as [H' ps]. cbn [fst snd app] in *.
  by apply IH.
Qed.
End Linked.

Lemma built_linked hs data (H : heap) :
  all_linked hs (built hs data H).1 (seq (length H) (length data))
             (built hs data H).2.
Proof.
  apply rounds_linked; [apply initial_inv|].
  intros l Hl. exists l. split; [done|apply linked_here].
Qed.

Lemma V1_climb_linked (H : heap) (p t : addr) :
  linked V1.hashing H p t ->
  forall nt, H !! t = Some nt -> n_parent nt = None ->
  forall nd, H !! p = Some nd ->
  exists k sibs dirs,
    length sibs = length dirs /\
    recompute V1.hashing (n_h nd) (combine sibs dirs) = n_h nt /\
    forall fuel s0 d0, k <= fuel ->
      V1.climb fuel H (Some p) s0 d0 = Done (s0 ++ sibs, d0 ++ dirs).
Proof.
  induction 1 as [a | p q t nd0 pn l r nl nr Hp Hpq Hq Hl Hr Hnl Hnr Hh Hc _ IH];
    intros nt Hnt Hpar nd Hnd.
  - assert (nd = nt) as -> by congruence.
    exists 1, [], []. split; [done|]. split; [done|].
    intros [|fuel] s0 d0 Hfuel; [lia|].
    cbn [V1.climb deref]. rewrite Hnt. cbn [mbind outcome_bind].
    rewrite Hpar. by rewrite !app_nil_r.
  - assert (nd0 = nd) as -> by congruence.
    destruct (IH nt Hnt Hpar pn Hq) as (k & sibs & dirs & Hlen & Hrec & Hrun).
    destruct (decide (n_h nd = n_h nl)) as [Heq|Hneq].
    + exists (S k), (n_h nr :: sibs), (false :: dirs).
      split; [simpl; lia|]. split.
      { cbn [combine]. unfold recompute in *. cbn [fold_left fst snd].
        rewrite Heq. by rewrite <- Hh. }
      intros [|fuel] s0 d0 Hfuel; [lia|].
      cbn [V1.climb deref]. rewrite Hnd. cbn [mbind outcome_bind].
      rewrite Hpq. unfold V1.Node_isLeft. cbn [deref]. rewrite Hnd.
      cbn [mbind outcome_bind]. rewrite Hpq. cbn [deref]. rewrite Hq.
      cbn [mbind outcome_bind]. rewrite Hl, Hr. cbn [deref].
      rewrite Hnl, Hnr. cbn [mbind outcome_bind].
      unfold bytes_Equal. rewrite bool_decide_eq_true_2 by done.
      cbn [mbind outcome_bind]. rewrite Hrun by lia.
      by rewrite <- !app_assoc.
    + assert (p = r) as -> by (destruct Hc as [->| ->]; [congruence|done]).
      assert (nr = nd) as -> by congruence.
      exists (S k), (n_h nl :: sibs), (true :: dirs).
      split; [simpl; lia|]. split.
      { cbn [combine]. unfold recompute in *. cbn [fold_left fst snd].
        by rewrite <- Hh. }
      intros [|fuel] s0 d0 Hfuel; [lia|].
      cbn [V1.climb deref]. rewrite Hnd. cbn [mbind outcome_bind].
      rewrite Hpq. unfold V1.Node_isLeft. cbn [deref]. rewrite Hnd.
      cbn [mbind outcome_bind]. rewrite Hpq. cbn [deref]. rewrite Hq.
      cbn [mbind outcome_bind]. rewrite Hl. cbn [deref].
      rewrite Hnl. cbn [mbind outcome_bind].
      unfold bytes_Equal. rewrite bool_decide_eq_false_2 by done.
      cbn [mbind outcome_bind]. rewrite Hrun by lia.
      by rewrite <- !app_assoc.
Qed.

Lemma V1_proof_of_item (data : list Leaf) (H : heap) (x : Leaf) r :
  x ∈ data -> (built V1.hashing data H).2 = [r] ->
  inv V1.hashing (built V1.hashing data H).1
      (seq (length H) (length data)) [r] ->
  exists nt sibs dirs k,
    (built V1.hashing data H).1 !! r = Some nt /\
    length sibs = length dirs /\
    recompute V1.hashing (V1.hashing_HashLeaf (Bytes x)) (combine sibs dirs)
      = n_h nt /\
    forall fuel n, k <= fuel ->
      V1.MerkleTree_Proof fuel (built V1.hashing data H).1
        (Some (V1.mkTree (Some r) n (Some <$> seq (length H) (length data)))) x
      = Done (Some (V1.mkProof (n_h nt) sibs dirs), None).
Proof.
  intros Hx Hr HI.
  assert (Hne : data <> []) by (intros ->; by apply elem_of_nil in Hx).
  pose proof (built_linked V1.hashing data H) as Hall. rewrite Hr in Hall.
  pose proof (built_live V1.hashing data H Hne) as Hlive.
  set (H' := (built V1.hashing data H).1) in *.
  set (L := seq (length H) (length data)) in *.
  (* the scan finds a leaf with the hash of [x] *)
  apply list_elem_of_lookup in Hx as [i Hi].
  assert (Hi' : i < length data) by (by eapply lookup_lt_Some).
  destruct (last_filter_found (matches H' (V1.hashing_HashLeaf (Bytes x)))
              (Some <$> L) (Some (length H + i)))
    as (l & Hlast & Hl & Hm).
  { apply list_elem_of_fmap. exists (length H + i). split; [done|].
    apply elem_of_seq. lia. }
  { rewrite (built_matches V1.hashing data H _ i x Hne Hi).
    unfold bytes_Equal. by apply bool_decide_eq_true_2. }
  apply matches_inv in Hm as (a & nl & -> & Hnl & Ehl).
  apply list_elem_of_fmap in Hl as (a' & [= <-] & Ha).
  (* the tree verifies, and the leaf is linked to the root *)
  destruct (Node_verify_valid V1.hashing H' r) as [k1 Hver].
  { apply (inv_valid _ _ _ _ HI). set_solver. }
  destruct (Hall a Ha) as (t & Ht & Hlink).
  apply list_elem_of_singleton in Ht as ->.
  destruct (inv_top _ _ _ _ HI r) as (nt & Hnt & Hpar); [set_solver|].
  destruct (V1_climb_linked H' a r Hlink nt Hnt Hpar nl Hnl)
    as (k2 & sibs & dirs & Hlen & Hrec & Hclimb).
  exists nt, sibs, dirs, (k1 `max` k2).
  split; [done|]. split; [done|]. split; [by rewrite <- Ehl|].
  intros fuel n Hfuel.
  unfold V1.MerkleTree_Proof, V1.MerkleTree_VerifyExists.
  cbn [V1.m_leaves mbind outcome_bind].
  rewrite scan_leaves_spec by done. rewrite Hlast.
  cbn [mbind outcome_bind negb].
  unfold V1.MerkleTree_Verify. cbn [V1.m_root].
  rewrite V1_Node_verify_eq, Hver by lia. cbn [mbind outcome_bind negb].
  rewrite Hclimb by lia. cbn [mbind outcome_bind app].
  unfold V1.MerkleTree_Root. cbn [V1.m_root deref]. rewrite Hnt. done.
Qed.

(** X16.  The first version's round trip.  There [isLeft] compares the
    hash of a node with the hash of its parent's left child, so a right
    child with the hash of its left sibling counts as left; the proof
    that [Proof] returns for an item of the input is accepted by
    [VerifyProof] all the same, duplicates or not. *)
Theorem X16_v1_roundtrip (data : list Leaf) (H : heap) (x : Leaf) :
  x ∈ data ->
  exists H' m,
    V1.BuildMerkleTree data H = Done (H', Some m) /\
    exists k, forall fuel, k <= fuel ->
      exists p,
        V1.MerkleTree_Proof fuel H' (Some m) x = Done (Some p, None) /\
        V1.VerifyProof x (Some p) = Done None.
Proof.
  intros Hx.
  assert (Hne : data <> []) by (intros ->; by apply elem_of_nil in Hx).
  destruct (V1_BuildMerkleTree_returns data H Hne) as (r & Hr & Hrun & HI).
  destruct (V1_proof_of_item data H x r Hx Hr HI)
    as (nt & sibs & dirs & k & Hnt & Hlen & Hrec & Hproof).
  eexists _, _. split; [exact Hrun|].
  exists k. intros fuel Hfuel.
  exists (V1.mkProof (n_h nt) sibs dirs). split; [by apply Hproof|].
  unfold V1.VerifyProof. cbn [V1.p_siblings V1.p_left V1.p_root].
  destruct (decide (length sibs ≠ length dirs)) as [|_]; [done|].
  rewrite (proof_loop_spec V1.hashing dirs [] sibs) by done.
  cbn [mbind outcome_bind]. rewrite Hrec.
  unfold bytes_Equal. by rewrite bool_decide_eq_true_2.
Qed.

Lemma X16_v1_roundtrip_witness :
  TestLeaf "a" ∈ aba /\
  exists H' m,
    V1.BuildMerkleTree aba [] = Done (H', Some m) /\
    exists k, forall fuel, k <= fuel ->
      exists p,
        V1.MerkleTree_Proof fuel H' (Some m) (TestLeaf "a")
          = Done (Some p, None) /\
        V1.VerifyProof (TestLeaf "a") (Some p) = Done None.
Proof.
  assert (Hin : TestLeaf "a" ∈ aba) by (unfold aba; apply list_elem_of_here).
  split; [exact Hin|].
  exact (X16_v1_roundtrip aba [] (TestLeaf "a") Hin).
Defined.

Lemma rounds_extends hs L fuel : forall lvl (H : heap),
  inv hs H L lvl -> extends H (rounds fuel hs H lvl).1.
Proof.
  induction fuel as [|fuel IH]; intros lvl H HI; [apply extends_refl|].
  cbn [rounds]. destruct (decide (1 < length lvl)); [|apply extends_refl].
  destruct (pair_up_inv hs L lvl [] H HI) as [HI' Hext].
  destruct (pair_up hs H lvl) as [H' ps]. cbn [fst snd app] in *.
  eapply extends_trans; [exact Hext|]. by apply IH.
Qed.

Lemma rounds_step fuel hs (H : heap) lvl :
  1 < length lvl ->
  rounds (S fuel) hs H lvl =
  rounds fuel hs (pair_up hs H lvl).1 ((pair_up hs H lvl).2 ++ leftover lvl).
Proof.
  intros Hlong. cbn [rounds].
  destruct (decide (1 < length lvl)); [|lia].
  by destruct (pair_up hs H lvl).
Qed.

(** X17.  What the first version's [isLeft] answers.  When the first
    two items have the same leaf hash, the second leaf of the built
    tree is the right child of its parent and not the left one, yet
    [isLeft] of the first version returns true for it; the pointer
    comparison of the later version returns false. *)
Theorem X17_v1_isLeft_compares_hashes (x y : Leaf) (rest : list Leaf)
    (H : heap) :
  V1.hashing_HashLeaf (Bytes x) = V1.hashing_HashLeaf (Bytes y) ->
  exists H' m a nd q pn,
    V1.BuildMerkleTree (x :: y :: rest) H = Done (H', Some m) /\
    V1.m_leaves m !! 1 = Some (Some a) /\
    H' !! a = Some nd /\ n_parent nd = Some q /\ H' !! q = Some pn /\
    n_right pn = Some a /\ n_left pn <> Some a /\
    V1.Node_isLeft H' (Some a) = Done true /\
    Node_isLeft H' (Some a) = Done false.
Proof.
  intros Hsame.
  destruct (V1_BuildMerkleTree_returns (x :: y :: rest) H)
    as (r & Hr & Hrun & _); [done|].
  set (hs := V1.hashing) in *.
  set (H0 := H ++ (leaf_node hs <$> x :: y :: rest)).
  set (b := length H).
  assert (Hx0 : H0 !! b = Some (leaf_node hs x)).
  { pose proof (leaves_lookup hs H (x :: y :: rest) 0 x eq_refl) as Hlk.
    by replace (length H + 0) with b in Hlk by (unfold b; lia). }
  assert (Hy0 : H0 !! S b = Some (leaf_node hs y)).
  { pose proof (leaves_lookup hs H (x :: y :: rest) 1 y eq_refl) as Hlk.
    by replace (length H + 1) with (S b) in Hlk by (unfold b; lia). }
  pose proof (initial_inv hs H (x :: y :: rest)) as HI0.
  fold H0 in HI0. cbn [length seq] in HI0. fold b in HI0.
  set (L := b :: S b :: seq (S (S b)) (length rest)) in *.
  pose proof (merge_inv hs L H0 [] b (S b) _ HI0) as HI1.
  destruct (pair_up_inv hs L (seq (S (S b)) (length rest)) [length H0]
              (merge hs H0 b (S b)) HI1) as [HI2 Hext2].
  assert (Hext : extends (merge hs H0 b (S b))
                         (built hs (x :: y :: rest) H).1).
  { unfold built. fold H0. cbn [length seq]. fold b.
    rewrite rounds_step by (cbn [length]; lia).
    cbn [pair_up leftover].
    destruct (pair_up hs (merge hs H0 b (S b)) (seq (S (S b)) (length rest)))
      as [H1 ps]. cbn [fst snd app] in *.
    eapply extends_trans; [exact Hext2|].
    by apply (rounds_extends hs L). }
  assert (Hne : b <> S b) by lia.
  assert (Hlb : b < length H0) by (by eapply lookup_lt_Some).
  assert (Hlsb : S b < length H0) by (by eapply lookup_lt_Some).
  destruct (Hext _ _ (merge_lookup_left hs H0 b (S b) _ Hne Hx0))
    as (nl & Hnl & Ehl & _).
  destruct (Hext _ _ (merge_lookup_right hs H0 b (S b) _ Hne Hy0))
    as (nd & Hnd & Ehd & _ & _ & Epar).
  destruct (Hext _ _ (merge_lookup_new hs H0 b (S b) Hlb Hlsb))
    as (pn & Hpn & _ & El & Er & _).
  cbn in Ehl, Ehd, El, Er. specialize (Epar ltac:(done)). cbn in Epar.
  eexists _, _, (S b), nd, (length H0), pn.
  split; [exact Hrun|]. cbn [V1.m_leaves].
  split; [done|]. split; [exact Hnd|]. split; [exact Epar|].
  split; [exact Hpn|]. split; [exact Er|].
  split; [rewrite El; intros [=]; lia|]. split.
  - unfold V1.Node_isLeft. cbn [deref]. rewrite Hnd.
    cbn [mbind outcome_bind]. rewrite Epar. cbn [deref]. rewrite Hpn.
    cbn [mbind outcome_bind]. rewrite El. cbn [deref]. rewrite Hnl.
    cbn [mbind outcome_bind]. unfold bytes_Equal.
    rewrite bool_decide_eq_true_2; [done|]. rewrite Ehl, Ehd.
    symmetry. exact Hsame.
  - unfold Node_isLeft. cbn [deref]. rewrite Hnd.
    cbn [mbind outcome_bind]. rewrite Epar. cbn [deref]. rewrite Hpn.
    cbn [mbind outcome_bind]. rewrite El.
    rewrite bool_decide_eq_false_2; [done|]. intros [=]. lia.
Qed.

Lemma X17_v1_isLeft_compares_hashes_witness :
  V1.hashing_HashLeaf (Bytes (TestLeaf "a"))
    = V1.hashing_HashLeaf (Bytes (TestLeaf "a")) /\
  exists H' m a nd q pn,
    V1.BuildMerkleTree [TestLeaf "a"; TestLeaf "a"; TestLeaf "b"] []
      = Done (H', Some m) /\
    V1.m_leaves m !! 1 = Some (Some a) /\
    H' !! a = Some nd /\ n_parent nd = Some q /\ H' !! q = Some pn /\
    n_right pn = Some a /\ n_left pn <> Some a /\
    V1.Node_isLeft H' (Some a) = Done true /\
    Node_isLeft H' (Some a) = Done false.
Proof.
  split; [exact eq_refl|].
  exact (X17_v1_isLeft_compares_hashes (TestLeaf "a") (TestLeaf "a")
           [TestLeaf "b"] [] eq_refl).
Defined.

(** ** What [PrintTreeDFS] writes *)

(** The encoding on the test vectors of RFC 4648, without padding. *)
Example base64_test_vectors :
  V1.base64_RawStdEncoding_EncodeToString (SHA256.of_string "f") = "Zg"%string /\
  V1.base64_RawStdEncoding_EncodeToString (SHA256.of_string "fo") = "Zm8"%string /\
  V1.base64_RawStdEncoding_EncodeToString (SHA256.of_string "foo") = "Zm9v"%string /\
  V1.base64_RawStdEncoding_EncodeToString (SHA256.of_string "foobar")
    = "Zm9vYmFy"%string.
Proof. repeat split; vm_compute; reflexivity. Qed.

Lemma node_line_other h :
  node_line h <> left_line /\ node_line h <> right_line.
Proof. split; discriminate. Qed.

Lemma print_covers hs (H : heap) (a : addr) xs :
  covers hs H a xs ->
  exists k out nd,
    H !! a = Some nd /\
    (forall fuel, k <= fuel ->
       V1.Node_PrintTreeDFS fuel H (Some a) = Done out) /\
    1 <= length xs /\
    out !! 0 = Some (node_line (n_h nd)) /\
    length out = 4 * length xs - 3 /\
    count_occ string_dec out left_line = length xs - 1 /\
    count_occ string_dec out right_line = length xs - 1.
Proof.
  induction 1 as [a nd x Ha Hl Hr Hh
                 | a nd l r nl nr xl xr Ha Hl Hr Hnl Hnr Hh _ IHl _ IHr].
  - exists 1, [node_line (n_h nd)], nd. split; [done|]. split.
    { intros [|fuel] Hfuel; [lia|].
      cbn [V1.Node_PrintTreeDFS deref]. rewrite Ha.
      cbn [mbind outcome_bind]. rewrite Hl, Hr. done. }
    destruct (node_line_other (n_h nd)) as [Hnl Hnr].
    split; [simpl; lia|]. split; [done|]. split; [done|].
    split; by rewrite count_occ_cons_neq.
  - destruct IHl as (kl & outl & nl' & Hnl' & Hrunl & Hposl & _ & Hlenl & Hcll & Hcrl).
    destruct IHr as (kr & outr & nr' & Hnr' & Hrunr & Hposr & _ & Hlenr & Hclr & Hcrr).
    exists (S (kl `max` kr)),
      (([node_line (n_h nd)] ++ left_line :: outl) ++ right_line :: outr), nd.
    split; [done|]. split.
    { intros [|fuel] Hfuel; [lia|].
      cbn [V1.Node_PrintTreeDFS deref]. rewrite Ha.
      cbn [mbind outcome_bind]. rewrite Hl, Hr.
      rewrite Hrunl by lia. cbn [mbind outcome_bind].
      rewrite Hrunr by lia. done. }
    destruct (node_line_other (n_h nd)) as [Hxl Hxr].
    assert (Hlr : left_line <> right_line) by discriminate.
    rewrite !length_app. cbn [length].
    split; [lia|]. split; [done|]. split; [lia|].
    rewrite !count_occ_app. cbn [count_occ].
    destruct (string_dec (node_line (n_h nd)) left_line) as [|_]; [done|].
    destruct (string_dec (node_line (n_h nd)) right_line) as [|_]; [done|].
    destruct (string_dec left_line left_line) as [_|]; [|done].
    destruct (string_dec right_line right_line) as [_|]; [|done].
    destruct (string_dec left_line right_line) as [|_]; [done|].
    destruct (string_dec right_line left_line) as [|_]; [done|].
    split; lia.
Qed.

(** X18.  [PrintTreeDFS] on the root of a built tree returns after
    visiting every node once, parent before children: for [n] items it
    writes [4n - 3] lines, of which [n - 1] are "left:" and [n - 1] are
    "right:" and the others are the "x: " lines of the [2n - 1] nodes;
    the first line is the root hash in unpadded base64. *)
Theorem X18_PrintTreeDFS_lines (data : list Leaf) (H : heap) :
  data <> [] ->
  exists H' m root,
    V1.BuildMerkleTree data H = Done (H', Some m) /\
    V1.MerkleTree_Root H' (Some m) = Done root /\
    exists k out,
      (forall fuel, k <= fuel ->
         V1.Node_PrintTreeDFS fuel H' (V1.m_root m) = Done out) /\
      out !! 0 = Some (node_line root) /\
      length out = 4 * length data - 3 /\
      count_occ string_dec out left_line = length data - 1 /\
      count_occ string_dec out right_line = length data - 1.
Proof.
  intros Hne.
  destruct (V1_BuildMerkleTree_returns data H Hne) as (r & Hr & Hrun & _).
  destruct (print_covers V1.hashing _ r data
              (built_covers V1.hashing data H r Hr))
    as (k & out & nd & Hnd & Hprint & _ & Hhead & Hlen & Hcl & Hcr).
  eexists _, _, (n_h nd). split; [exact Hrun|]. split.
  { unfold V1.MerkleTree_Root. cbn [V1.m_root deref]. by rewrite Hnd. }
  exists k, out. cbn [V1.m_root]. done.
Qed.

Lemma X18_PrintTreeDFS_lines_witness :
  abc <> [] /\
  exists H' m root,
    V1.BuildMerkleTree abc [] = Done (H', Some m) /\
    V1.MerkleTree_Root H' (Some m) = Done root /\
    exists k out,
      (forall fuel, k <= fuel ->
         V1.Node_PrintTreeDFS fuel H' (V1.m_root m) = Done out) /\
      out !! 0 = Some (node_line root) /\
      length out = 4 * length abc - 3 /\
      count_occ string_dec out left_line = length abc - 1 /\
      count_occ string_dec out right_line = length abc - 1.
Proof.
  assert (Hne : abc <> []) by (unfold abc; discriminate).
  split; [exact Hne|].
  exact (X18_PrintTreeDFS_lines abc [] Hne).
Defined.

(** ** The two versions side by side *)

Lemma hashing_is_default : V1.hashing = defaultHashStrategy.
Proof. reflexivity. Qed.

(** X19.  The later version with its default strategy continues the
    first one: from the same items [BuildMerkleTree] of both versions
    leaves the same store, with the same [Root()] and [Len()], and a
    proof that the first version's [Proof] returns for an item is
    accepted by the later [VerifyProof] once the default strategy is
    attached to it. *)
Theorem X19_versions_agree (data : list Leaf) (H : heap) (x : Leaf) :
  x ∈ data ->
  exists H' m1 m2,
    V1.BuildMerkleTree data H = Done (H', Some m1) /\
    BuildMerkleTree data H = Done (H', Some m2) /\
    V1.MerkleTree_Root H' (Some m1) = MerkleTree_Root H' (Some m2) /\
    V1.MerkleTree_Len (Some m1) = MerkleTree_Len (Some m2) /\
    exists k, forall fuel, k <= fuel ->
      exists p,
        V1.MerkleTree_Proof fuel H' (Some m1) x = Done (Some p, None) /\
        VerifyProof x
          (Some (mkProof (V1.p_root p) (V1.p_siblings p) (V1.p_left p)
                         (Some defaultHashStrategy)))
        = Done None.
Proof.
  intros Hx.
  assert (Hne : data <> []) by (intros ->; by apply elem_of_nil in Hx).
  destruct (V1_BuildMerkleTree_returns data H Hne) as (r & Hr & Hrun & HI).
  destruct (buildMerkleTree_returns V1.hashing data H Hne)
    as (r' & Hr' & Hrun' & _).
  assert (r' = r) as -> by congruence.
  destruct (V1_proof_of_item data H x r Hx Hr HI)
    as (nt & sibs & dirs & k & Hnt & Hlen & Hrec & Hproof).
  eexists _, _, _. split; [exact Hrun|].
  unfold BuildMerkleTree. rewrite <- hashing_is_default.
  split; [exact Hrun'|]. split.
  { unfold V1.MerkleTree_Root, MerkleTree_Root. by cbn [V1.m_root m_root]. }
  split; [done|].
  exists k. intros fuel Hfuel.
  exists (V1.mkProof (n_h nt) sibs dirs). split; [by apply Hproof|].
  unfold VerifyProof.
  cbn [V1.p_siblings V1.p_left V1.p_root
       p_hashStrategy p_siblings p_left p_root].
  destruct (decide (length sibs ≠ length dirs)) as [|_]; [done|].
  rewrite (proof_loop_spec V1.hashing dirs [] sibs) by done.
  cbn [mbind outcome_bind].
  change (HashLeaf V1.hashing (Bytes x))
    with (V1.hashing_HashLeaf (Bytes x)).
  rewrite Hrec. unfold bytes_Equal. by rewrite bool_decide_eq_true_2.
Qed.

Lemma X19_versions_agree_witness :
  TestLeaf "a" ∈ aba /\
  exists H' m1 m2,
    V1.BuildMerkleTree aba [] = Done (H', Some m1) /\
    BuildMerkleTree aba [] = Done (H', Some m2) /\
    V1.MerkleTree_Root H' (Some m1) = MerkleTree_Root H' (Some m2) /\
    V1.MerkleTree_Len (Some m1) = MerkleTree_Len (Some m2) /\
    exists k, forall fuel, k <= fuel ->
      exists p,
        V1.MerkleTree_Proof fuel H' (Some m1) (TestLeaf "a")
          = Done (Some p, None) /\
        VerifyProof (TestLeaf "a")
          (Some (mkProof (V1.p_root p) (V1.p_siblings p) (V1.p_left p)
                         (Some defaultHashStrategy)))
        = Done None.
Proof.
  assert (Hin : TestLeaf "a" ∈ aba) by (unfold aba; apply list_elem_of_here).
  split; [exact Hin|].
  exact (X19_versions_agree aba [] (TestLeaf "a") Hin).
Defined.
